(** * effector-router: the route matching library, embedded and verified

    The development follows [src/lib] (the matching code derived from
    React Router v6): path patterns are compiled to regular expressions,
    routes are flattened into scored branches, branches are ranked and
    matched against a pathname, and relative navigation targets are
    resolved against route pathnames.

    Strings are lists of characters.  A character is an 8-bit code and the
    development covers strings of ASCII code units: case mapping and the
    word-character class act on ASCII letters only, codes above 127 are
    characters without case that are not word characters. *)

From Stdlib Require Import Ascii String ZArith Lia Bool.
From stdpp Require Import base list sorting gmap strings.

Set Warnings "-register-all".
Local Open Scope char_scope.

(** ** Strings *)

Abbreviation str := (list ascii).

(** [s!"text"] is the character list of a literal. *)
Notation "s! x" := (list_ascii_of_string x%string)
  (at level 1, x at level 0, only parsing).

Definition code (c : ascii) : N := N_of_ascii c.

Definition in_range (lo hi c : ascii) : bool :=
  (code lo <=? code c)%N && (code c <=? code hi)%N.

Definition is_upper (c : ascii) : bool := in_range "A" "Z" c.
Definition is_lower (c : ascii) : bool := in_range "a" "z" c.
Definition is_digit (c : ascii) : bool := in_range "0" "9" c.

(** [\w] without the unicode flag: [A-Za-z0-9_]. *)
Definition is_word (c : ascii) : bool :=
  is_lower c || is_upper c || is_digit c || Ascii.eqb c "_".

(** The characters [.] refuses: line feed and carriage return (U+2028 and
    U+2029 have no 8-bit code). *)
Definition is_line_terminator (c : ascii) : bool :=
  Ascii.eqb c "010" || Ascii.eqb c "013".

Definition to_upper (c : ascii) : ascii :=
  if is_lower c then ascii_of_N (code c - 32) else c.

Definition to_lower (c : ascii) : ascii :=
  if is_upper c then ascii_of_N (code c + 32) else c.

(** [String.prototype.toLowerCase]. *)
Definition toLowerCase (s : str) : str := map to_lower s.

Fixpoint str_eqb (a b : str) : bool :=
  match a, b with
  | [], [] => true
  | x :: a', y :: b' => Ascii.eqb x y && str_eqb a' b'
  | _, _ => false
  end.

(** [String.prototype.startsWith]. *)
Fixpoint startsWith (s p : str) {struct p} : bool :=
  match p, s with
  | [], _ => true
  | y :: p', x :: s' => Ascii.eqb x y && startsWith s' p'
  | _ :: _, [] => false
  end.

(** [String.prototype.endsWith]. *)
Definition endsWith (s p : str) : bool := startsWith (rev s) (rev p).

(** [s.split(sep)] for a one-character separator: never empty. *)
Fixpoint split (sep : ascii) (s : str) : list str :=
  match s with
  | [] => [[]]
  | c :: s' =>
      if Ascii.eqb c sep then [] :: split sep s'
      else match split sep s' with
           | seg :: segs => (c :: seg) :: segs
           | [] => [[c]]
           end
  end.

(** [a.join(sep)]. *)
Fixpoint join (sep : str) (l : list str) : str :=
  match l with
  | [] => []
  | [x] => x
  | x :: l' => x ++ sep ++ join sep l'
  end.

(** ** Regular expressions

    The fragment of the ECMAScript pattern language the library uses, with
    the backtracking semantics of the language definition: alternatives
    are tried left to right, quantifiers are greedy, an iteration of a
    quantifier that consumes nothing is refused. *)

Inductive regex : Type :=
| REmpty
| RChar (c : ascii)
| RAny
| RSet (neg : bool) (items : list (ascii * ascii))
| RBol
| REol
| RWordB (neg : bool)
| RSeq (a b : regex)
| RAlt (a b : regex)
| RStar (a : regex)
| RPlus (a : regex)
| ROpt (a : regex)
| RGroup (n : nat) (a : regex).

(** A matcher state: the text before the current position (nearest
    character first), the text after it, and the captures set so far
    (latest first). *)
Record mstate : Type := MState {
  m_pre : str;
  m_rest : str;
  m_caps : list (nat * str)
}.

Definition cont : Type := mstate -> option mstate.

Definition canonicalize (ic : bool) (c : ascii) : ascii :=
  if ic then to_upper c else c.

Definition char_matches (ic : bool) (c x : ascii) : bool :=
  Ascii.eqb (canonicalize ic c) (canonicalize ic x).

Definition in_items (items : list (ascii * ascii)) (x : ascii) : bool :=
  existsb (fun it => in_range (fst it) (snd it) x) items.

Definition set_matches (ic neg : bool) (items : list (ascii * ascii)) (x : ascii) : bool :=
  xorb neg
    (in_items items x
     || (ic && (in_items items (to_upper x) || in_items items (to_lower x)))).

Definition step_char (p : ascii -> bool) (k : cont) (st : mstate) : option mstate :=
  match m_rest st with
  | x :: rest =>
      if p x then k (MState (x :: m_pre st) rest (m_caps st)) else None
  | [] => None
  end.

Definition word_before (st : mstate) : bool :=
  match m_pre st with x :: _ => is_word x | [] => false end.

Definition word_after (st : mstate) : bool :=
  match m_rest st with x :: _ => is_word x | [] => false end.

Definition at_boundary (st : mstate) : bool :=
  xorb (word_before st) (word_after st).

Definition progress (st st' : mstate) : bool :=
  (length (m_rest st') <? length (m_rest st))%nat.

Definition consumed (st st' : mstate) : str :=
  take (length (m_rest st) - length (m_rest st')) (m_rest st).

Definition set_cap (n : nat) (st st' : mstate) : mstate :=
  MState (m_pre st') (m_rest st') ((n, consumed st st') :: m_caps st').

Definition or_else (a : option mstate) (b : option mstate) : option mstate :=
  match a with Some x => Some x | None => b end.

(** The greedy loop of [a*]: one more iteration that makes progress, else
    the continuation.  [fuel] bounds the iterations; the text left bounds
    them too, since every iteration consumes a character. *)
Fixpoint star_loop (body : cont -> cont) (k : cont) (fuel : nat) (st : mstate)
  : option mstate :=
  match fuel with
  | 0 => k st
  | S fuel' =>
      or_else
        (body (fun st' => if progress st st' then star_loop body k fuel' st' else None) st)
        (k st)
  end.

Fixpoint rmatch (ic : bool) (r : regex) (k : cont) (st : mstate) : option mstate :=
  match r with
  | REmpty => k st
  | RChar c => step_char (char_matches ic c) k st
  | RAny => step_char (fun x => negb (is_line_terminator x)) k st
  | RSet neg items => step_char (set_matches ic neg items) k st
  | RBol => match m_pre st with [] => k st | _ :: _ => None end
  | REol => match m_rest st with [] => k st | _ :: _ => None end
  | RWordB neg => if xorb neg (at_boundary st) then k st else None
  | RSeq a b => rmatch ic a (rmatch ic b k) st
  | RAlt a b => or_else (rmatch ic a k st) (rmatch ic b k st)
  | RStar a => star_loop (rmatch ic a) k (S (length (m_rest st))) st
  | RPlus a =>
      rmatch ic a
        (fun st' => star_loop (rmatch ic a) k (S (length (m_rest st'))) st') st
  | ROpt a =>
      or_else
        (rmatch ic a (fun st' => if progress st st' then k st' else None) st)
        (k st)
  | RGroup n a => rmatch ic a (fun st' => k (set_cap n st st')) st
  end.

(** *** Reading a pattern

    [parse_re] reads a pattern source from left to right, keeping the open
    groups on a stack.  It accepts the constructions the library writes:
    literals, identity escapes, [\b], [\w], [\d], [.], [^], [$], classes of
    characters and escapes, groups, alternation and the greedy quantifiers
    [*], [+], [?].  Any other construction is rejected. *)

Record frame : Type := Frame {
  fr_group : option nat;
  fr_alts : list regex;
  fr_seq : list regex
}.

Definition seq_of (atoms_rev : list regex) : regex :=
  fold_left (fun acc a => RSeq a acc) atoms_rev REmpty.

Definition alt_of (alts_rev : list regex) (last : regex) : regex :=
  fold_left (fun acc a => RAlt a acc) alts_rev last.

Definition close_frame (fr : frame) : regex :=
  let body := alt_of (fr_alts fr) (seq_of (fr_seq fr)) in
  match fr_group fr with
  | Some n => RGroup n body
  | None => body
  end.

Definition push_atom (a : regex) (fr : frame) : frame :=
  Frame (fr_group fr) (fr_alts fr) (a :: fr_seq fr).

Definition quantifiable (a : regex) : bool :=
  match a with
  | RBol | REol | RWordB _ | RStar _ | RPlus _ | ROpt _ => false
  | _ => true
  end.

Definition quantify (q : regex -> regex) (fr : frame) : option frame :=
  match fr_seq fr with
  | a :: atoms =>
      if quantifiable a then Some (Frame (fr_group fr) (fr_alts fr) (q a :: atoms))
      else None
  | [] => None
  end.

Definition syntax_char (c : ascii) : bool :=
  existsb (Ascii.eqb c) s!"^$\.*+?()[]{}|/".

Definition word_items : list (ascii * ascii) :=
  [("a", "z"); ("A", "Z"); ("0", "9"); ("_", "_")].

Definition digit_items : list (ascii * ascii) := [("0", "9")].

(** The atom an escape [\c] stands for outside a class. *)
Definition escape_atom (c : ascii) : option regex :=
  if Ascii.eqb c "b" then Some (RWordB false)
  else if Ascii.eqb c "B" then Some (RWordB true)
  else if Ascii.eqb c "w" then Some (RSet false word_items)
  else if Ascii.eqb c "W" then Some (RSet true word_items)
  else if Ascii.eqb c "d" then Some (RSet false digit_items)
  else if Ascii.eqb c "D" then Some (RSet true digit_items)
  else if syntax_char c then Some (RChar c)
  else None.

(** The class members an escape [\c] stands for inside a class. *)
Definition escape_items (c : ascii) : option (list (ascii * ascii)) :=
  if Ascii.eqb c "w" then Some word_items
  else if Ascii.eqb c "d" then Some digit_items
  else if syntax_char c || Ascii.eqb c "-" then Some [(c, c)]
  else None.

Inductive pmode : Type :=
| PNormal
| PClassStart
| PClass (neg : bool) (items : list (ascii * ascii)).

Fixpoint parse_re (input : str) (mode : pmode) (stack : list frame) (cur : frame)
    (ngroups : nat) : option (regex * nat) :=
  match mode with
  | PClassStart =>
      match input with
      | "^" :: rest => parse_re rest (PClass true []) stack cur ngroups
      | "]" :: rest => parse_re rest PNormal stack (push_atom (RSet false []) cur) ngroups
      | "\" :: c :: rest =>
          match escape_items c with
          | Some its => parse_re rest (PClass false its) stack cur ngroups
          | None => None
          end
      | "-" :: _ => None
      | c :: rest => parse_re rest (PClass false [(c, c)]) stack cur ngroups
      | [] => None
      end
  | PClass neg items =>
      match input with
      | "]" :: rest => parse_re rest PNormal stack (push_atom (RSet neg items) cur) ngroups
      | "\" :: c :: rest =>
          match escape_items c with
          | Some its => parse_re rest (PClass neg (items ++ its)) stack cur ngroups
          | None => None
          end
      | "-" :: _ => None
      | c :: rest => parse_re rest (PClass neg (items ++ [(c, c)])) stack cur ngroups
      | [] => None
      end
  | PNormal =>
      match input with
      | [] =>
          match stack with
          | [] => Some (close_frame cur, ngroups)
          | _ :: _ => None
          end
      | "(" :: "?" :: ":" :: rest =>
          parse_re rest PNormal (cur :: stack) (Frame None [] []) ngroups
      | "(" :: "?" :: _ => None
      | "(" :: rest =>
          parse_re rest PNormal (cur :: stack) (Frame (Some (S ngroups)) [] []) (S ngroups)
      | ")" :: rest =>
          match stack with
          | parent :: stack' =>
              parse_re rest PNormal stack' (push_atom (close_frame cur) parent) ngroups
          | [] => None
          end
      | "|" :: rest =>
          parse_re rest PNormal stack
            (Frame (fr_group cur) (seq_of (fr_seq cur) :: fr_alts cur) []) ngroups
      | "*" :: rest =>
          match quantify RStar cur with
          | Some cur' => parse_re rest PNormal stack cur' ngroups
          | None => None
          end
      | "+" :: rest =>
          match quantify RPlus cur with
          | Some cur' => parse_re rest PNormal stack cur' ngroups
          | None => None
          end
      | "?" :: rest =>
          match quantify ROpt cur with
          | Some cur' => parse_re rest PNormal stack cur' ngroups
          | None => None
          end
      | "\" :: c :: rest =>
          match escape_atom c with
          | Some a => parse_re rest PNormal stack (push_atom a cur) ngroups
          | None => None
          end
      | "\" :: [] => None
      | "[" :: rest => parse_re rest PClassStart stack cur ngroups
      | "." :: rest => parse_re rest PNormal stack (push_atom RAny cur) ngroups
      | "^" :: rest => parse_re rest PNormal stack (push_atom RBol cur) ngroups
      | "$" :: rest => parse_re rest PNormal stack (push_atom REol cur) ngroups
      | "{" :: _ => None
      | "}" :: _ => None
      | "]" :: _ => None
      | c :: rest => parse_re rest PNormal stack (push_atom (RChar c) cur) ngroups
      end
  end.

(** *** RegExp objects and the string methods that take them *)

Record RegExp : Type := MkRegExp {
  re_ast : regex;
  re_groups : nat;
  re_ignoreCase : bool;
  re_global : bool
}.

(** [new RegExp(source, flags)]; [None] is the SyntaxError of a source
    that cannot be read. *)
Definition new_RegExp (source : str) (ignoreCase global : bool) : option RegExp :=
  match parse_re source PNormal [] (Frame None [] []) 0 with
  | Some (ast, n) => Some (MkRegExp ast n ignoreCase global)
  | None => None
  end.

(** A pattern that matches nowhere, the value of a literal that cannot be
    read (none of the literals below is such). *)
Definition re_never : RegExp := MkRegExp (RSet false []) 0 false false.

(** A regular expression literal [/source/flags]. *)
Definition re_literal (source : string) (ignoreCase global : bool) : RegExp :=
  match new_RegExp (list_ascii_of_string source) ignoreCase global with
  | Some re => re
  | None => re_never
  end.

(** The result of a successful match: where it starts, the text matched
    ([m[0]]) and the captures ([m.slice(1)], [None] for a group that took
    no part). *)
Record match_result : Type := MatchResult {
  mr_index : nat;
  mr_text : str;
  mr_groups : list (option str)
}.

Fixpoint cap_lookup (n : nat) (caps : list (nat * str)) : option str :=
  match caps with
  | [] => None
  | (i, v) :: caps' => if Nat.eqb i n then Some v else cap_lookup n caps'
  end.

Definition groups_of (re : RegExp) (caps : list (nat * str)) : list (option str) :=
  map (fun i => cap_lookup (S i) caps) (seq 0 (re_groups re)).

(** One attempt at the position between [pre] and [rest]. *)
Definition match_here (re : RegExp) (pre rest : str) : option match_result :=
  match rmatch (re_ignoreCase re) (re_ast re) Some (MState pre rest []) with
  | Some st' =>
      Some (MatchResult (length pre)
              (take (length rest - length (m_rest st')) rest)
              (groups_of re (m_caps st')))
  | None => None
  end.

(** The leftmost match at or after the position between [pre] and [rest]. *)
Fixpoint match_from (re : RegExp) (pre rest : str) : option match_result :=
  match match_here re pre rest with
  | Some m => Some m
  | None =>
      match rest with
      | [] => None
      | c :: rest' => match_from re (c :: pre) rest'
      end
  end.

(** [re.exec(s)] and [s.match(re)] for a pattern without the [g] flag. *)
Definition RegExp_exec (re : RegExp) (s : str) : option match_result :=
  match_from re [] s.

(** [re.test(s)]. *)
Definition RegExp_test (re : RegExp) (s : str) : bool :=
  match RegExp_exec re s with Some _ => true | None => false end.

(** What [s.replace(re, ...)] sees of [s]: the matches of [re], in order,
    and the characters between them.  Without the [g] flag only the first
    match counts; with it the search resumes where the last match ended,
    one character further after an empty match. *)
Inductive piece : Type :=
| Keep (c : ascii)
| Hit (m : match_result).

Fixpoint pieces_from (re : RegExp) (skip : nat) (pre rest : str) : list piece :=
  match skip with
  | S skip' =>
      match rest with
      | [] => []
      | c :: rest' => pieces_from re skip' (c :: pre) rest'
      end
  | 0 =>
      match match_here re pre rest with
      | Some m =>
          Hit m ::
          match rest with
          | [] => []
          | c :: rest' =>
              if re_global re then
                match length (mr_text m) with
                | 0 => Keep c :: pieces_from re 0 (c :: pre) rest'
                | S n => pieces_from re n (c :: pre) rest'
                end
              else map Keep (drop (length (mr_text m)) rest)
          end
      | None =>
          match rest with
          | [] => []
          | c :: rest' => Keep c :: pieces_from re 0 (c :: pre) rest'
          end
      end
  end.

Definition pieces (re : RegExp) (s : str) : list piece := pieces_from re 0 [] s.

(** [s.replace(re, f)] for a replacer function [f]. *)
Definition replace_with (re : RegExp) (f : match_result -> str) (s : str) : str :=
  flat_map (fun p => match p with Keep c => [c] | Hit m => f m end) (pieces re s).

(** The expansion of a replacement string: [$$], [$&] and [$1] to [$9]. *)
Fixpoint expand (template : str) (m : match_result) : str :=
  match template with
  | "$" :: "$" :: t => "$" :: expand t m
  | "$" :: "&" :: t => mr_text m ++ expand t m
  | "$" :: d :: t =>
      if in_range "1" "9" d
      then match mr_groups m !! (N.to_nat (code d) - 49)%nat with
           | Some g => default [] g ++ expand t m
           | None => "$" :: d :: expand t m
           end
      else "$" :: d :: expand t m
  | c :: t => c :: expand t m
  | [] => []
  end.

(** [s.replace(re, template)] for a replacement string. *)
Definition replace (re : RegExp) (template : string) (s : str) : str :=
  replace_with re (expand (list_ascii_of_string template)) s.

(** ** Results of operations that may throw *)

Inductive outcome (A : Type) : Type :=
| Return (a : A)
| Throw (message : str).
Arguments Return {A} a.
Arguments Throw {A} message.

#[global] Instance outcome_bind : MBind outcome := fun A B f x =>
  match x with
  | Return a => f a
  | Throw e => Throw e
  end.

#[global] Instance outcome_fmap : FMap outcome := fun A B f x =>
  match x with
  | Return a => Return (f a)
  | Throw e => Throw e
  end.

(** [invariant(cond, message)]. *)
Definition invariant (cond : bool) (message : str) : outcome unit :=
  if cond then Return tt else Throw message.

(** [warning(cond, message)] writes [message] to the console when [cond]
    fails, and has no other effect: the list of the messages written. *)
Definition warning (cond : bool) (message : str) : list str :=
  if cond then [] else [message].

Definition dquote : ascii := ascii_of_nat 34.

(** ** Host functions *)

(** [s.slice(n)]. *)
Definition slice_from (n : nat) (s : str) : str := drop n s.

(** [s.charAt(n)]: the empty string past the end. *)
Definition charAt (n : nat) (s : str) : str :=
  match s !! n with Some c => [c] | None => [] end.

(** [a || b] on strings: the empty string is falsy. *)
Definition or_str (a b : str) : str :=
  match a with [] => b | _ :: _ => a end.

Definition hex_value (c : ascii) : option N :=
  if is_digit c then Some (code c - 48)%N
  else if in_range "a" "f" c then Some (code c - 87)%N
  else if in_range "A" "F" c then Some (code c - 55)%N
  else None.

(** The bytes that must follow a first byte [b] of a well-formed UTF-8
    sequence: their number, and the least and the greatest value of the
    first of them (the others are between 128 and 191); [None] when [b]
    cannot start a sequence.  The narrower ranges after 224, 237, 240 and
    244 rule out the overlong encodings, the surrogates U+D800..U+DFFF
    and the code points above U+10FFFF. *)
Definition utf8_following (b : N) : option (nat * N * N) :=
  if (b <? 128)%N then Some (0%nat, 128, 191)%N
  else if (b <? 194)%N then None
  else if (b <? 224)%N then Some (1%nat, 128, 191)%N
  else if (b =? 224)%N then Some (2%nat, 160, 191)%N
  else if (b =? 237)%N then Some (2%nat, 128, 159)%N
  else if (b <? 240)%N then Some (2%nat, 128, 191)%N
  else if (b =? 240)%N then Some (3%nat, 144, 191)%N
  else if (b <? 244)%N then Some (3%nat, 128, 191)%N
  else if (b =? 244)%N then Some (3%nat, 128, 143)%N
  else None.

(** [decodeURIComponent]: every [%XX] is replaced by the character it
    encodes; [None] is the URIError of a malformed escape.  An escaped
    character outside ASCII is kept as the bytes of its UTF-8 encoding,
    which must be well formed: [pending] counts the continuation bytes
    still due, each of them escaped, and the next of them must be
    between [lo] and [hi]. *)
Fixpoint decode_from (pending : nat) (lo hi : N) (s : str) : option str :=
  match pending, s with
  | 0%nat, [] => Some []
  | S _, [] => None
  | _, "%" :: h :: l :: s' =>
      match hex_value h, hex_value l with
      | Some a, Some b =>
          let byte := (16 * a + b)%N in
          match pending with
          | 0%nat =>
              match utf8_following byte with
              | Some (n, lo', hi') =>
                  cons (ascii_of_N byte) <$> decode_from n lo' hi' s'
              | None => None
              end
          | S n =>
              if (lo <=? byte)%N && (byte <=? hi)%N
              then cons (ascii_of_N byte) <$> decode_from n 128 191 s'
              else None
          end
      | _, _ => None
      end
  | _, "%" :: _ => None
  | 0%nat, c :: s' => cons c <$> decode_from 0 128 191 s'
  | S _, _ :: _ => None
  end.

Definition decodeURIComponent (s : str) : option str := decode_from 0 128 191 s.

(** The [history] package's path objects; a missing field is [None]. *)
Record PartialPath : Type := MkPartialPath {
  pp_pathname : option str;
  pp_search : option str;
  pp_hash : option str
}.

Record Path : Type := MkPath {
  p_pathname : str;
  p_search : str;
  p_hash : str
}.

(** [To = string | Partial<Path>], also the shape of a location argument. *)
Inductive To : Type :=
| ToString (s : str)
| ToPath (p : PartialPath).

(** The text before the first [c] and the text from it on (if any). *)
Fixpoint cut_at (c : ascii) (s : str) : str * option str :=
  match s with
  | [] => ([], None)
  | x :: s' =>
      if Ascii.eqb x c then ([], Some s)
      else let (a, b) := cut_at c s' in (x :: a, b)
  end.

Definition nonempty (s : str) : option str :=
  match s with [] => None | _ :: _ => Some s end.

(** [parsePath] of the [history] package: the hash is cut off at the first
    [#], then the search at the first [?]; what is left is the pathname,
    unless it is empty. *)
Definition parsePath (path : str) : PartialPath :=
  let (p1, h) := cut_at "#" path in
  let (p2, s) := cut_at "?" p1 in
  MkPartialPath (nonempty p2) s h.

(** ** The library *)

(** The parameters parsed from a URL path: an object used as a map from
    names to values.  The map holds the own properties of the object,
    each with a string as its value; the object is a plain one, as the
    literal [{}] of [matchPath] and the default argument of
    [generatePath] are, so that it inherits the properties of
    [Object.prototype]. *)
Abbreviation Params := (gmap str str).

(** The names of the properties of [Object.prototype]. *)
Definition prototype_names : list str :=
  [ s!"constructor"; s!"__defineGetter__"; s!"__defineSetter__";
    s!"hasOwnProperty"; s!"__lookupGetter__"; s!"__lookupSetter__";
    s!"isPrototypeOf"; s!"propertyIsEnumerable"; s!"toString"; s!"valueOf";
    s!"__proto__"; s!"toLocaleString" ].

(** What a property inherited from [Object.prototype] reads as where a
    string is expected: [__proto__] is an accessor that gives the
    prototype itself, an object; [constructor] is the function [Object];
    every other name is a built-in function of that name.  The text of a
    built-in function is the one the host gives. *)
Definition prototype_text (key : str) : option str :=
  if str_eqb key s!"__proto__" then Some s!"[object Object]"
  else if str_eqb key s!"constructor" then
    Some s!"function Object() { [native code] }"
  else if existsb (str_eqb key) prototype_names then
    Some (s!"function " ++ key ++ s!"() { [native code] }")
  else None.

(** [params[key]]: the own property, else the inherited one; [None] is
    [undefined] (the types exclude [null]). *)
Definition get_param (params : Params) (key : str) : option str :=
  match params !! key with
  | Some value => Some value
  | None => prototype_text key
  end.

(** [params[key] = value] for a string [value].  On an object without
    own property [__proto__] the assignment to that name reaches the
    setter of [Object.prototype], which ignores a value that is neither
    an object nor [null]; every other assignment writes an own
    property. *)
Definition set_param (params : Params) (key value : str) : Params :=
  if str_eqb key s!"__proto__" && bool_decide (params !! key = None)
  then params
  else <[key := value]> params.

(** Modelled from the spec: the [RouteObject] and [RouteMatch] types are
    declared in [../typings], which is not among the sources.  Section 3 of
    the specification gives a route an optional [path], an optional [index]
    flag, an optional [caseSensitive] flag and an ordered sequence of child
    routes; the fields of a [RouteMatch] are those [matchRouteBranch]
    writes.  An absent flag reads as [false]. *)
Inductive RouteObject : Type := MkRoute {
  r_path : option str;
  r_index : bool;
  r_caseSensitive : bool;
  r_children : list RouteObject
}.

Record RouteMatch : Type := MkRouteMatch {
  rm_params : Params;
  rm_pathname : str;
  rm_pathnameBase : str;
  rm_route : option RouteObject
}.

(** The regular expression literals of the source. *)
Definition re_param : RegExp := Eval vm_compute in re_literal ":(\w+)" false true.
Definition re_trailing_splat : RegExp := Eval vm_compute in re_literal "\/*\*$" false false.
Definition re_leading_slashes : RegExp := Eval vm_compute in re_literal "^\/*" false false.
Definition re_final_star : RegExp := Eval vm_compute in re_literal "\*$" false false.
Definition re_trailing : RegExp := Eval vm_compute in re_literal "\/*\*?$" false false.
Definition re_special : RegExp :=
  Eval vm_compute in re_literal "[\\.*+^$?{}|()[\]]" false true.
Definition re_base : RegExp := Eval vm_compute in re_literal "(.)\/+$" false false.
Definition re_slashes : RegExp := Eval vm_compute in re_literal "\/\/+" false true.
Definition re_trailing_slashes : RegExp := Eval vm_compute in re_literal "\/+$" false false.
Definition paramRe : RegExp := Eval vm_compute in re_literal "^:\w+$" false false.

(** The [n]th capture handed to a replacer function. *)
Definition capture (n : nat) (m : match_result) : str :=
  default [] (mjoin (mr_groups m !! pred n)).

(** [s.replace(re, f)] for a replacer [f] that may throw: [f] is applied
    to the matches from left to right. *)
Fixpoint subst_hits (f : match_result -> outcome str) (ps : list piece) : outcome str :=
  match ps with
  | [] => Return []
  | Keep c :: ps' => cons c <$> subst_hits f ps'
  | Hit m :: ps' => r ← f m; app r <$> subst_hits f ps'
  end.

Definition hits (ps : list piece) : list match_result :=
  omap (fun p => match p with Hit m => Some m | Keep _ => None end) ps.

Definition generatePath (path : str) (params : Params) : outcome str :=
  s1 ← subst_hits
          (fun m =>
             let key := capture 1 m in
             _ ← invariant (bool_decide (is_Some (get_param params key)))
                   (s!"Missing " ++ [dquote] ++ s!":" ++ key ++ [dquote] ++ s!" param");
             Return (default [] (get_param params key)))
          (pieces re_param path);
  Return (replace_with re_trailing_splat
            (fun _ =>
               match get_param params s!"*" with
               | None => []
               | Some v => replace re_leading_slashes "/" v
               end) s1).

Record RouteMeta : Type := MkRouteMeta {
  relativePath : str;
  caseSensitive : bool;
  childrenIndex : nat
}.

Record RouteBranch : Type := MkRouteBranch {
  path : str;
  score : Z;
  routesMeta : list RouteMeta
}.

Definition joinPaths (paths : list str) : str :=
  replace re_slashes "/" (join s!"/" paths).

Definition normalizePathname (pathname : str) : str :=
  replace re_leading_slashes "/" (replace re_trailing_slashes "" pathname).

Definition normalizeSearch (search : str) : str :=
  if str_eqb search [] || str_eqb search s!"?" then []
  else if startsWith search s!"?" then search
  else s!"?" ++ search.

Definition normalizeHash (hash : str) : str :=
  if str_eqb hash [] || str_eqb hash s!"#" then []
  else if startsWith hash s!"#" then hash
  else s!"#" ++ hash.

Definition dynamicSegmentValue : Z := 3.
Definition indexRouteValue : Z := 2.
Definition emptySegmentValue : Z := 1.
Definition staticSegmentValue : Z := 10.
Definition splatPenalty : Z := -2.
Definition isSplat (s : str) : bool := str_eqb s s!"*".

Definition computeScore (path : str) (index : bool) : Z :=
  let segments := split "/" path in
  let initialScore := Z.of_nat (length segments) in
  let initialScore :=
    if existsb isSplat segments then (initialScore + splatPenalty)%Z else initialScore in
  let initialScore :=
    if index then (initialScore + indexRouteValue)%Z else initialScore in
  fold_left
    (fun score segment =>
       (score +
        (if RegExp_test paramRe segment then dynamicSegmentValue
         else if str_eqb segment [] then emptySegmentValue
         else staticSegmentValue))%Z)
    (List.filter (fun s => negb (isSplat s)) segments)
    initialScore.

(** The body of the [forEach] of [flattenRoutes], from the route at
    position [index] on.  The loop visits the routes of the list it is given
    and nothing else. *)
Fixpoint flatten_from (index : nat) (routes : list RouteObject)
    (branches : list RouteBranch) (parentsMeta : list RouteMeta) (parentPath : str)
  : outcome (list RouteBranch) :=
  match routes with
  | [] => Return branches
  | route :: rest =>
      let relativePath0 := default [] (r_path route) in
      relativePath1 ←
        (if startsWith relativePath0 s!"/" then
           _ ← invariant (startsWith relativePath0 parentPath)
                 (s!"Absolute route path " ++ [dquote] ++ relativePath0 ++ [dquote]
                  ++ s!" nested under path " ++ [dquote] ++ parentPath ++ [dquote]
                  ++ s!" is not valid. An absolute child route path "
                  ++ s!"must start with the combined path of all its parent routes.");
           Return (slice_from (length parentPath) relativePath0)
         else Return relativePath0);
      let meta := MkRouteMeta relativePath1 (r_caseSensitive route) index in
      let path := joinPaths [parentPath; relativePath1] in
      let routesMeta := parentsMeta ++ [meta] in
      if bool_decide (r_path route = None) && negb (r_index route)
      then flatten_from (S index) rest branches parentsMeta parentPath
      else
        flatten_from (S index) rest
          (branches ++ [MkRouteBranch path (computeScore path (r_index route)) routesMeta])
          parentsMeta parentPath
  end.

Definition flattenRoutes (routes : list RouteObject) (branches : list RouteBranch)
    (parentsMeta : list RouteMeta) (parentPath : str) : outcome (list RouteBranch) :=
  flatten_from 0 routes branches parentsMeta parentPath.

(** [a.slice(0, -1).every((n, i) => n === b[i])]. *)
Fixpoint every_equal (a b : list nat) : bool :=
  match a with
  | [] => true
  | n :: a' =>
      match b with
      | m :: b' => Nat.eqb n m && every_equal a' b'
      | [] => false
      end
  end.

Definition slice_init {A : Type} (a : list A) : list A := take (length a - 1) a.

(** [a[a.length - 1] - b[b.length - 1]] is NaN when the lists are empty;
    a sort reads a NaN from its comparator as zero. *)
Definition compareIndexes (a b : list nat) : Z :=
  let siblings := Nat.eqb (length a) (length b) && every_equal (slice_init a) b in
  if siblings then
    match last a, last b with
    | Some x, Some y => (Z.of_nat x - Z.of_nat y)%Z
    | _, _ => 0%Z
    end
  else 0%Z.

Definition compareBranches (a b : RouteBranch) : Z :=
  if negb (score a =? score b)%Z then (score b - score a)%Z
  else compareIndexes (map childrenIndex (routesMeta a))
                      (map childrenIndex (routesMeta b)).

(** [Array.prototype.sort] with a comparator.  The language fixes the
    result when the comparator is consistent: it is the stable sort, which
    this insertion sort computes.  For other comparators the language
    leaves the order to the engine. *)
Fixpoint sort_insert {A : Type} (cmp : A -> A -> Z) (x : A) (l : list A) : list A :=
  match l with
  | [] => [x]
  | y :: l' => if (0 <? cmp x y)%Z then y :: sort_insert cmp x l' else x :: l
  end.

Definition Array_sort {A : Type} (cmp : A -> A -> Z) (l : list A) : list A :=
  foldr (sort_insert cmp) [] l.

(** The array is sorted in place: the sorted array is the result. *)
Definition rankRouteBranches (branches : list RouteBranch) : list RouteBranch :=
  Array_sort compareBranches branches.

(** A [PathPattern]; an absent optional field is [None]. *)
Record PathPattern : Type := MkPathPattern {
  pat_path : str;
  pat_caseSensitive : option bool;
  pat_end : option bool
}.

Record PathMatch : Type := MkPathMatch {
  pm_params : Params;
  pm_pathname : str;
  pm_pathnameBase : str;
  pm_pattern : PathPattern
}.

(** The first argument of [matchPath]: [PathPattern | string]. *)
Inductive PatternArg : Type :=
| PatString (s : str)
| PatObject (p : PathPattern).

(** The source text of the matcher [compilePath] builds. *)
Definition regexpSource (path : str) (end_ : bool) : str :=
  let body :=
    replace re_param "([^\/]+)"
      (replace re_special "\$&"
         (replace re_leading_slashes "/"
            (replace re_trailing "" path))) in
  s!"^" ++ body ++
  (if endsWith path s!"*" then
     if str_eqb path s!"*" || str_eqb path s!"/*" then s!"(.*)$"
     else s!"(?:\/(.+)|\/*)$"
   else if end_ then s!"\/*$" else s!"(?:\b|$)").

(** The names the replacer of [compilePath] pushes, in order, followed by
    the [*] pushed for a trailing splat. *)
Definition paramNames_of (path : str) : list str :=
  let escaped :=
    replace re_special "\$&"
      (replace re_leading_slashes "/"
         (replace re_trailing "" path)) in
  map (capture 1) (hits (pieces re_param escaped))
  ++ (if endsWith path s!"*" then [s!"*"] else []).

Definition compilePath_warning (path : str) : list str :=
  let treated := replace re_final_star "/*" path in
  warning
    (str_eqb path s!"*" || negb (endsWith path s!"*") || endsWith path s!"/*")
    (s!"Route path " ++ [dquote] ++ path ++ [dquote]
     ++ s!" will be treated as if it were " ++ [dquote] ++ treated ++ [dquote]
     ++ s!" because the `*` character must always follow a `/` in the pattern. "
     ++ s!"To get rid of this warning, please change the route path to "
     ++ [dquote] ++ treated ++ [dquote] ++ s!".").

(** [compilePath(path, caseSensitive = false, end = true)]: the warnings
    written, and the matcher with the parameter names.  [Throw] stands for
    the SyntaxError of [new RegExp]. *)
Definition compilePath (path : str) (caseSensitive end_ : option bool)
  : list str * outcome (RegExp * list str) :=
  let caseSensitive := default false caseSensitive in
  let end_ := default true end_ in
  (compilePath_warning path,
   match new_RegExp (regexpSource path end_) (negb caseSensitive) false with
   | Some matcher => Return (matcher, paramNames_of path)
   | None => Throw s!"SyntaxError"
   end).

(** The warning of a failed decoding is written to the console only. *)
Definition safelyDecodeURIComponent (value paramName : str) : str :=
  match decodeURIComponent value with
  | Some v => v
  | None => value
  end.

Definition base_of (s : str) : str := replace re_base "$1" s.

(** The callback of the [reduce] of [matchPath]: it carries the parameters
    read so far and the [pathnameBase], which a splat recomputes. *)
Definition param_step (matchedPathname : str) (captureGroups : list (option str))
    (acc : Params * str) (entry : nat * str) : Params * str :=
  let '(memo, pathnameBase) := acc in
  let '(index, paramName) := entry in
  let raw := default [] (mjoin (captureGroups !! index)) in
  let pathnameBase :=
    if str_eqb paramName s!"*" then
      base_of (take (length matchedPathname - length raw) matchedPathname)
    else pathnameBase in
  (set_param memo paramName (safelyDecodeURIComponent raw paramName), pathnameBase).

(** [pattern = { path: pattern, caseSensitive: false, end: true }] for a
    pattern given as a string. *)
Definition pattern_of (pattern : PatternArg) : PathPattern :=
  match pattern with
  | PatString s => MkPathPattern s (Some false) (Some true)
  | PatObject p => p
  end.

Definition matchPath (pattern : PatternArg) (pathname : str)
  : outcome (option PathMatch) :=
  let pattern := pattern_of pattern in
  compiled ← snd (compilePath (pat_path pattern) (pat_caseSensitive pattern)
                    (pat_end pattern));
  let '(matcher, paramNames) := compiled in
  match RegExp_exec matcher pathname with
  | None => Return None
  | Some m =>
      let matchedPathname := mr_text m in
      let captureGroups := mr_groups m in
      let '(params, pathnameBase) :=
        fold_left (param_step matchedPathname captureGroups)
          (zip (seq 0 (length paramNames)) paramNames)
          ((∅ : Params), base_of matchedPathname) in
      Return (Some (MkPathMatch params matchedPathname pathnameBase pattern))
  end.

(** One step of the loop of [matchRouteBranch] keeps the pathnames and the
    route of the match it pushes; the [params] of every pushed match is the
    one object [matchedParams], which the loop keeps extending. *)
Record step_match : Type := MkStep {
  st_pathname : str;
  st_pathnameBase : str;
  st_route : option RouteObject
}.

Fixpoint match_chain (metas : list RouteMeta) (routes : list RouteObject)
    (pathname : str) (matchedParams : Params) (matchedPathname : str)
    (matches : list step_match) : outcome (option (Params * list step_match)) :=
  match metas with
  | [] => Return (Some (matchedParams, matches))
  | meta :: metas' =>
      let end_ := match metas' with [] => true | _ :: _ => false end in
      let remainingPathname :=
        if str_eqb matchedPathname s!"/" then pathname
        else or_str (slice_from (length matchedPathname) pathname) s!"/" in
      r ← matchPath
            (PatObject (MkPathPattern (relativePath meta) (Some (caseSensitive meta))
                          (Some end_)))
            remainingPathname;
      match r with
      | None => Return None
      | Some match_ =>
          let matchedParams := pm_params match_ ∪ matchedParams in
          let route := routes !! childrenIndex meta in
          let matches :=
            matches ++
            [MkStep (joinPaths [matchedPathname; pm_pathname match_])
                    (joinPaths [matchedPathname; pm_pathnameBase match_])
                    route] in
          let matchedPathname :=
            if negb (str_eqb (pm_pathnameBase match_) s!"/")
            then joinPaths [matchedPathname; pm_pathnameBase match_]
            else matchedPathname in
          match_chain metas' [] pathname matchedParams matchedPathname matches
      end
  end.

(** After the call every match shows the parameters of the whole branch. *)
Definition matchRouteBranch (branch : RouteBranch) (routesArg : list RouteObject)
    (pathname : str) : outcome (option (list RouteMatch)) :=
  r ← match_chain (routesMeta branch) routesArg pathname ∅ s!"/" [];
  Return
    (match r with
     | None => None
     | Some (matchedParams, matches) =>
         Some (map (fun s => MkRouteMatch matchedParams (st_pathname s)
                               (st_pathnameBase s) (st_route s)) matches)
     end).

Definition stripBasename (pathname basename : str) : option str :=
  if str_eqb basename s!"/" then Some pathname
  else if negb (startsWith (toLowerCase pathname) (toLowerCase basename)) then None
  else
    let nextChar := charAt (length basename) pathname in
    if negb (str_eqb nextChar []) && negb (str_eqb nextChar s!"/") then None
    else Some (or_str (slice_from (length basename) pathname) s!"/").

(** The [for] loop of [matchRoutes]: the first branch that matches. *)
Fixpoint first_match (branches : list RouteBranch) (routes : list RouteObject)
    (pathname : str) : outcome (option (list RouteMatch)) :=
  match branches with
  | [] => Return None
  | branch :: branches' =>
      r ← matchRouteBranch branch routes pathname;
      match r with
      | Some matches => Return (Some matches)
      | None => first_match branches' routes pathname
      end
  end.

Definition location_of (locationArg : To) : PartialPath :=
  match locationArg with
  | ToString s => parsePath s
  | ToPath p => p
  end.

(** [matchRoutes(routes, locationArg, basename = '/')]. *)
Definition matchRoutes (routes : list RouteObject) (locationArg : To) (basename : str)
  : outcome (option (list RouteMatch)) :=
  let location := location_of locationArg in
  match stripBasename (or_str (default [] (pp_pathname location)) s!"/") basename with
  | None => Return None
  | Some pathname =>
      branches ← flattenRoutes routes [] [] [];
      first_match (rankRouteBranches branches) routes pathname
  end.

Definition resolvePathname (relativePath fromPathname : str) : str :=
  let segments := split "/" (replace re_trailing_slashes "" fromPathname) in
  let relativeSegments := split "/" relativePath in
  let segments :=
    fold_left
      (fun segments segment =>
         if str_eqb segment s!".." then
           if (1 <? length segments)%nat then slice_init segments else segments
         else if negb (str_eqb segment s!".") then segments ++ [segment]
         else segments)
      relativeSegments segments in
  if (1 <? length segments)%nat then join s!"/" segments else s!"/".

(** [resolvePath(to, fromPathname = '/')]. *)
Definition resolvePath (to : To) (fromPathname : str) : Path :=
  let parsed := location_of to in
  let search := default [] (pp_search parsed) in
  let hash := default [] (pp_hash parsed) in
  let pathname :=
    match pp_pathname parsed with
    | Some toPathname =>
        if str_eqb toPathname [] then fromPathname
        else if startsWith toPathname s!"/" then toPathname
        else resolvePathname toPathname fromPathname
    | None => fromPathname
    end in
  MkPath pathname (normalizeSearch search) (normalizeHash hash).

(** The [while] loop of [resolveTo]: drop the leading [..] segments and
    step the index down once for each. *)
Fixpoint drop_dotdots (toSegments : list str) (routePathnameIndex : Z)
  : list str * Z :=
  match toSegments with
  | seg :: rest =>
      if str_eqb seg s!".." then drop_dotdots rest (routePathnameIndex - 1)%Z
      else (toSegments, routePathnameIndex)
  | [] => ([], routePathnameIndex)
  end.

Definition is_empty_string (toArg : To) : bool :=
  match toArg with ToString [] => true | _ => false end.

Definition resolveTo (toArg : To) (routePathnames : list str) (locationPathname : str)
  : Path :=
  let to := location_of toArg in
  let toPathname :=
    if is_empty_string toArg || bool_decide (pp_pathname to = Some [])
    then Some s!"/" else pp_pathname to in
  let '(to, from) :=
    match toPathname with
    | None => (to, locationPathname)
    | Some toPathname =>
        let routePathnameIndex := (Z.of_nat (length routePathnames) - 1)%Z in
        let '(to, routePathnameIndex) :=
          if startsWith toPathname s!".." then
            let '(toSegments, routePathnameIndex) :=
              drop_dotdots (split "/" toPathname) routePathnameIndex in
            (MkPartialPath (Some (join s!"/" toSegments)) (pp_search to) (pp_hash to),
             routePathnameIndex)
          else (to, routePathnameIndex) in
        (to,
         if (0 <=? routePathnameIndex)%Z
         then default [] (routePathnames !! Z.to_nat routePathnameIndex)
         else s!"/")
    end in
  let path := resolvePath (ToPath to) from in
  match toPathname with
  | Some toPathname =>
      if negb (str_eqb toPathname []) && negb (str_eqb toPathname s!"/")
         && endsWith toPathname s!"/" && negb (endsWith (p_pathname path) s!"/")
      then MkPath (p_pathname path ++ s!"/") (p_search path) (p_hash path)
      else path
  | None => path
  end.

Definition getToPathname (to : To) : option str :=
  if is_empty_string to || bool_decide (pp_pathname (location_of to) = Some [])
  then Some s!"/"
  else pp_pathname (location_of to).

(** ** Notions used to state the properties *)

(** The pathname [matchRoutes] reads from its location argument. *)
Definition location_pathname (locationArg : To) : str :=
  or_str (default [] (pp_pathname (location_of locationArg))) s!"/".

(** The same location argument with another pathname. *)
Definition with_pathname (locationArg : To) (p : str) : To :=
  match locationArg with
  | ToString _ => ToString p
  | ToPath l => ToPath (MkPartialPath (Some p) (pp_search l) (pp_hash l))
  end.

(** [p] starts with the basename [b], case-insensitively, and the basename
    ends there or at a [/]. *)
Definition under_basename (p b : str) : Prop :=
  toLowerCase b `prefix_of` toLowerCase p
  /\ (p !! length b = None \/ p !! length b = Some "/").

(** The number of leading [..] segments. *)
Fixpoint count_dotdots (segments : list str) : nat :=
  match segments with
  | seg :: rest => if str_eqb seg s!".." then S (count_dotdots rest) else 0
  | [] => 0
  end.

(** The pathname a path starts from after [n] steps up the list of route
    pathnames, the last of which is the current route: the root once the
    list is exhausted. *)
Definition route_ancestor (routePathnames : list str) (n : nat) : str :=
  if (n <? length routePathnames)%nat
  then default [] (routePathnames !! (length routePathnames - 1 - n)%nat)
  else s!"/".

(** The trailing slash [resolveTo] restores. *)
Definition keep_trailing_slash (toPathname : str) (path : Path) : Path :=
  if endsWith toPathname s!"/" && negb (endsWith (p_pathname path) s!"/")
  then MkPath (p_pathname path ++ s!"/") (p_search path) (p_hash path)
  else path.

(** The routes a chain of child indexes leads through in a route tree: the
    first index is read in [routes], each later one in the children of the
    route just found. *)
Fixpoint routes_along (routes : list RouteObject) (indexes : list nat)
  : list (option RouteObject) :=
  match indexes with
  | [] => []
  | i :: rest =>
      routes !! i ::
      routes_along (match routes !! i with Some r => r_children r | None => [] end) rest
  end.

(** The routes [matchRouteBranch] records: the first index is read in
    [routes], the later ones in an empty list. *)
Definition routes_recorded (routes : list RouteObject) (indexes : list nat)
  : list (option RouteObject) :=
  match indexes with
  | [] => []
  | i :: rest => routes !! i :: map (fun _ => None) rest
  end.

Definition chain_of (branch : RouteBranch) : list nat :=
  map childrenIndex (routesMeta branch).

(** A route that can match by itself: it has a path or is an index route. *)
Definition matchable (route : RouteObject) : bool :=
  negb (bool_decide (r_path route = None)) || r_index route.

(** The positions, counted from [index], of the matchable routes of a list. *)
Fixpoint matchable_from (index : nat) (routes : list RouteObject) : list nat :=
  match routes with
  | [] => []
  | route :: rest =>
      (if matchable route then [index] else []) ++ matchable_from (S index) rest
  end.

Definition without_children (route : RouteObject) : RouteObject :=
  MkRoute (r_path route) (r_index route) (r_caseSensitive route) [].

(** A layout route without path that groups one child, and the branch of
    that child as a flattening of the tree would build it. *)
Definition grouping_routes : list RouteObject :=
  [MkRoute None false false [MkRoute (Some s!"a") false false []]].

Definition nested_routes : list RouteObject :=
  [MkRoute (Some s!"a") false false [MkRoute (Some s!"b") false false []]].

Definition nested_branch : RouteBranch :=
  MkRouteBranch s!"/a/b" 24
    [MkRouteMeta s!"a" false 0; MkRouteMeta s!"b" false 0].

(** [x] occurs before [y] in [l]. *)
Definition before {A : Type} (x y : A) (l : list A) : Prop :=
  [x; y] `sublist_of` l.

(** Two chains of child indexes are those of siblings: they have the same
    length and agree everywhere but at the last index. *)
Definition sibling_chains (a b : list nat) : Prop :=
  length a = length b /\ slice_init a = slice_init b.

Definition siblings (a b : RouteBranch) : Prop :=
  sibling_chains (chain_of a) (chain_of b).

(** The order C3 asks of the ranked list [output] of [input]: scores go
    down; of two siblings of equal score the one with the lower last index
    comes first; two branches of equal score that are not siblings keep the
    order they have in [input]. *)
Definition ranked_as_claimed (input output : list RouteBranch) : Prop :=
  (forall x y, before x y output -> (score y <= score x)%Z)
  /\ (forall x y i j,
        x ∈ output -> y ∈ output -> score x = score y -> siblings x y ->
        last (chain_of x) = Some i -> last (chain_of y) = Some j -> (i < j)%nat ->
        before x y output)
  /\ (forall x y,
        score x = score y -> ~ siblings x y -> before x y input -> before x y output).

(** A comparator is transitive on the elements of [l]. *)
Definition cmp_trans_on {A : Type} (cmp : A -> A -> Z) (l : list A) : Prop :=
  forall a b c, a ∈ l -> b ∈ l -> c ∈ l ->
    (cmp a b <= 0)%Z -> (cmp b c <= 0)%Z -> (cmp a c <= 0)%Z.

(** Three branches of equal score: the first and the third are siblings,
    the second is a sibling of neither. *)
Definition tie_a : RouteBranch :=
  MkRouteBranch s!"/x/a" 35 [MkRouteMeta s!"x" false 0; MkRouteMeta s!"a" false 1].
Definition tie_b : RouteBranch :=
  MkRouteBranch s!"/b/y" 35 [MkRouteMeta s!"/b/y" false 1].
Definition tie_c : RouteBranch :=
  MkRouteBranch s!"/x/c" 35 [MkRouteMeta s!"x" false 0; MkRouteMeta s!"c" false 0].

(** ** The matcher in closed form *)

(** The greedy loop of a quantified single-character atom: take the
    longest run of characters that satisfy [p], then give back one at a
    time until the continuation succeeds. *)
Fixpoint greedy (p : ascii -> bool) (k : cont) (pre rest : str)
    (caps : list (nat * str)) : option mstate :=
  match rest with
  | x :: rest' =>
      if p x
      then or_else (greedy p k (x :: pre) rest' caps) (k (MState pre rest caps))
      else k (MState pre rest caps)
  | [] => k (MState pre [] caps)
  end.

(** ** The score in the words of the specification *)

(** A segment of the form [:name]: a colon and one or more word
    characters. *)
Definition is_param_form (s : str) : bool :=
  match s with
  | c :: name => Ascii.eqb c ":" && negb (str_eqb name []) && forallb is_word name
  | [] => false
  end.

Definition segment_value (s : str) : Z :=
  if is_param_form s then 3%Z
  else if str_eqb s [] then 1%Z
  else 10%Z.

Definition sumZ (l : list Z) : Z := foldr Z.add 0%Z l.

Definition score_formula (path : str) (index : bool) : Z :=
  let segments := split "/" path in
  (Z.of_nat (length segments)
   - (if existsb (fun s => str_eqb s s!"*") segments then 2 else 0)
   + (if index then 2 else 0)
   + sumZ (map segment_value
             (List.filter (fun s => negb (str_eqb s s!"*")) segments)))%Z.

(** The test a single-character atom makes. *)
Definition atom_test (ic : bool) (a : regex) : option (ascii -> bool) :=
  match a with
  | RChar c => Some (char_matches ic c)
  | RAny => Some (fun x => negb (is_line_terminator x))
  | RSet neg items => Some (set_matches ic neg items)
  | _ => None
  end.

(** The two routes of the precedence example, and their branches. *)
Definition route_user_id : RouteObject := MkRoute (Some s!"/users/:id") false false [].
Definition route_user_new : RouteObject := MkRoute (Some s!"/users/new") false false [].
Definition users_routes : list RouteObject := [route_user_id; route_user_new].

Definition branch_user_id : RouteBranch :=
  MkRouteBranch s!"/users/:id" 17 [MkRouteMeta s!"/users/:id" false 0].
Definition branch_user_new : RouteBranch :=
  MkRouteBranch s!"/users/new" 24 [MkRouteMeta s!"/users/new" false 1].

Fixpoint take_while (p : ascii -> bool) (s : str) : str :=
  match s with
  | x :: s' => if p x then x :: take_while p s' else []
  | [] => []
  end.

Fixpoint drop_while (p : ascii -> bool) (s : str) : str :=
  match s with
  | x :: s' => if p x then drop_while p s' else s
  | [] => []
  end.

Definition is_slash (x : ascii) : bool := Ascii.eqb "/" x.

Definition trailing_ok (rest : str) : bool :=
  str_eqb (drop_while is_slash rest) [] || str_eqb (drop_while is_slash rest) s!"*".

Definition match_outcome (r : outcome (option PathMatch))
  : outcome (option (Params * str * str)) :=
  match r with
  | Return (Some m) => Return (Some (pm_params m, pm_pathname m, pm_pathnameBase m))
  | Return None => Return None
  | Throw e => Throw e
  end.

(** ** The pattern language, token by token *)

(** What [compilePath] and [generatePath] see of a pattern: a character,
    or a parameter [:name]. *)
Inductive token : Type :=
| TLit (c : ascii)
| TParam (name : str).

(** The tokens of [s], the first [skip] characters left out: a colon
    followed by word characters is a parameter named by the longest run of
    them. *)
Fixpoint tokens_from (skip : nat) (s : str) : list token :=
  match skip with
  | S n =>
      match s with
      | [] => []
      | _ :: s' => tokens_from n s'
      end
  | 0 =>
      match s with
      | [] => []
      | c :: s' =>
          if Ascii.eqb c ":" && negb (str_eqb (take_while is_word s') [])
          then TParam (take_while is_word s')
               :: tokens_from (length (take_while is_word s')) s'
          else TLit c :: tokens_from 0 s'
      end
  end.

Definition tokens (s : str) : list token := tokens_from 0 s.

Definition piece_token (p : piece) : token :=
  match p with
  | Keep c => TLit c
  | Hit m => TParam (capture 1 m)
  end.

Definition token_names (toks : list token) : list str :=
  omap (fun t => match t with TParam n => Some n | TLit _ => None end) toks.

(** The characters [compilePath] escapes. *)
Definition is_special (c : ascii) : bool :=
  existsb (Ascii.eqb c) s!"\.*+^$?{}|()[]".

Definition escape_char (c : ascii) : str :=
  if is_special c then ["\"; c] else [c].

(** The source text of the pattern for a token. *)
Definition token_source (t : token) : str :=
  match t with
  | TLit c => escape_char c
  | TParam _ => s!"([^\/]+)"
  end.
(** The tokens of the escaped text of a token. *)
Definition escape_token (t : token) : list token :=
  match t with
  | TLit c => map TLit (escape_char c)
  | TParam n => [TParam n]
  end.

Definition token_text (t : token) : str :=
  match t with
  | TLit c => [c]
  | TParam _ => s!"([^\/]+)"
  end.
(** The atom of a parameter: a group of one or more characters other
    than [/]. *)
Definition group_atom (n : nat) : regex :=
  RGroup n (RSeq (RPlus (RSet true [("/", "/")])) REmpty).

(** The atoms of the tokens of a pattern, the groups numbered from [n]. *)
Fixpoint token_atoms (n : nat) (toks : list token) : list regex :=
  match toks with
  | [] => []
  | TLit c :: r => RChar c :: token_atoms n r
  | TParam _ :: r => group_atom (S n) :: token_atoms (S n) r
  end.

Definition param_count (toks : list token) : nat := length (token_names toks).
(** The pattern text [compilePath] compiles: the trailing slashes and [*]
    taken off, one slash in front. *)
Definition pattern_body (path : str) : str :=
  replace re_leading_slashes "/" (replace re_trailing "" path).

(** The atoms that end the matcher. *)
Definition tail_atoms (n : nat) (path : str) (end_ : bool) : list regex :=
  if endsWith path s!"*" then
    if str_eqb path s!"*" || str_eqb path s!"/*"
    then [RGroup (S n) (RSeq (RStar RAny) REmpty); REol]
    else [RAlt (RSeq (RChar "/")
                  (RSeq (RGroup (S n) (RSeq (RPlus RAny) REmpty)) REmpty))
               (RSeq (RStar (RChar "/")) REmpty);
          REol]
  else if end_ then [RStar (RChar "/"); REol]
  else [RAlt (RSeq (RWordB false) REmpty) (RSeq REol REmpty)].

Definition tail_groups (path : str) : nat :=
  if endsWith path s!"*" then 1 else 0.

(** The matcher of a pattern. *)
Definition pattern_regex (path : str) (end_ : bool) : regex :=
  let toks := tokens (pattern_body path) in
  foldr RSeq REmpty
    (RBol :: token_atoms 0 toks ++ tail_atoms (param_count toks) path end_).

Definition pattern_RegExp (path : str) (caseSensitive end_ : bool) : RegExp :=
  MkRegExp (pattern_regex path end_)
    (param_count (tokens (pattern_body path)) + tail_groups path)
    (negb caseSensitive) false.

(** [base_of] in closed form: the text up to and including the first
    character, not a line terminator, that only slashes follow. *)
Fixpoint base_spec (s : str) : str :=
  match s with
  | [] => []
  | x :: r =>
      if negb (is_line_terminator x) && negb (str_eqb r []) && forallb is_slash r
      then [x]
      else x :: base_spec r
  end.

Definition no_line_terminator (s : str) : bool :=
  forallb (fun c => negb (is_line_terminator c)) s.

Definition matcher_of (pattern : PatternArg) : RegExp :=
  pattern_RegExp (pat_path (pattern_of pattern))
    (default false (pat_caseSensitive (pattern_of pattern)))
    (default true (pat_end (pattern_of pattern))).

(** ** The round trip in the words of the specification *)

(** A literal segment holds no colon and no star; a segment of a simple pattern is a
    literal or has the form [:name]. *)
Definition literal_segment (s : str) : bool :=
  forallb (fun c => negb (Ascii.eqb c ":") && negb (Ascii.eqb c "*")) s.

Definition simple_segment (s : str) : bool :=
  is_param_form s || literal_segment s.

(** The names of the [:name] segments of a pattern. *)
Definition pattern_names (pattern : str) : list str :=
  omap (fun s => if is_param_form s then Some (drop 1 s) else None)
    (split "/" pattern).

(** The unreserved characters of a URL: letters, digits, [-], [_], [.]
    and [~]. *)
Definition is_unreserved (c : ascii) : bool :=
  is_lower c || is_upper c || is_digit c
  || Ascii.eqb c "-" || Ascii.eqb c "_" || Ascii.eqb c "." || Ascii.eqb c "~".

Definition url_safe (v : str) : bool := forallb is_unreserved v.

(** The pattern begins with one slash, and one only. *)
Definition one_leading_slash (pattern : str) : bool :=
  match pattern with
  | c :: rest =>
      Ascii.eqb c "/" && match rest with d :: _ => negb (Ascii.eqb d "/") | [] => true end
  | [] => false
  end.

(** The tokens of a segment of a simple pattern, and of the segments
    joined by slashes. *)
Definition segment_tokens (s : str) : list token :=
  if is_param_form s then [TParam (drop 1 s)] else map TLit s.

Fixpoint join_tokens (segments : list str) : list token :=
  match segments with
  | [] => []
  | s :: rest =>
      match rest with
      | [] => segment_tokens s
      | _ :: _ => segment_tokens s ++ TLit "/" :: join_tokens rest
      end
  end.

(** Every parameter token is the last token or stands before a slash. *)
Fixpoint delimited (toks : list token) : bool :=
  match toks with
  | [] => true
  | TLit _ :: rest => delimited rest
  | TParam _ :: rest =>
      match rest with
      | [] => true
      | TLit c :: _ => Ascii.eqb c "/"
      | TParam _ :: _ => false
      end && delimited rest
  end.

(** The text written for a token, from the own value of a parameter. *)
Definition token_value (params : Params) (t : token) : str :=
  match t with
  | TLit c => [c]
  | TParam name => default [] (params !! name)
  end.

(** The captures a match of the tokens leaves, the groups numbered from
    [n]. *)
Fixpoint token_caps (params : Params) (n : nat) (toks : list token)
    (caps : list (nat * str)) : list (nat * str) :=
  match toks with
  | [] => caps
  | TLit _ :: rest => token_caps params n rest caps
  | TParam name :: rest =>
      token_caps params (S n) rest ((S n, default [] (params !! name)) :: caps)
  end.

(** A text without its trailing slashes. *)
Definition rstrip_slashes (s : str) : str := rev (drop_while is_slash (rev s)).

(** The trailing slashes of a text. *)
Definition trailing_slashes (s : str) : str := rev (take_while is_slash (rev s)).

(** Every parameter of the tokens has a value, not empty and without
    slash. *)
Definition param_values_ok (params : Params) (toks : list token) : Prop :=
  forall name, name ∈ token_names toks ->
    exists v, params !! name = Some v /\ v <> [] /\ ("/" ∉ v).

(** The value of a parameter, empty when the mapping has none. *)
Definition param_value (params : Params) (name : str) : str :=
  default [] (params !! name).

(** ** Notions used to state further properties *)

(** A parameter name other than the splat: one word character at least,
    and word characters only. *)
Definition is_name (s : str) : bool := negb (str_eqb s []) && forallb is_word s.

(** The pattern is matched up to the end of the pathname: [end] is not
    [false], or the path ends with a star. *)
Definition to_the_end (p : PathPattern) : bool :=
  default true (pat_end p) || endsWith (pat_path p) s!"*".

(** The first of the names that has no value in the mapping, neither
    its own nor an inherited one. *)
Fixpoint first_missing (params : Params) (names : list str) : option str :=
  match names with
  | [] => None
  | name :: rest =>
      if bool_decide (is_Some (get_param params name)) then first_missing params rest
      else Some name
  end.

(** The text [generatePath] writes for a token, from the own or the
    inherited value of a parameter. *)
Definition token_written (params : Params) (t : token) : str :=
  match t with
  | TLit c => [c]
  | TParam name => default [] (get_param params name)
  end.

(** The message of the error [generatePath] throws for a name without
    value. *)
Definition missing_message (key : str) : str :=
  s!"Missing " ++ [dquote] ++ s!":" ++ key ++ [dquote] ++ s!" param".

(** What is written for the splat: nothing without a value, else the
    value with its leading slashes replaced by one. *)
Definition splat_text (params : Params) : str :=
  match params !! s!"*" with
  | None => []
  | Some v => "/" :: drop_while is_slash v
  end.

(** The text begins with a slash. *)
Definition slash_next (s : str) : bool :=
  match s with x :: _ => is_slash x | [] => false end.

(** A text with every run of slashes reduced to one slash. *)
Fixpoint squeeze (s : str) : str :=
  match s with
  | [] => []
  | c :: r => if is_slash c && slash_next r then squeeze r else c :: squeeze r
  end.

(** A segment other than [.] and [..]. *)
Definition plain_segment (segment : str) : bool :=
  negb (str_eqb segment s!".") && negb (str_eqb segment s!"..").

(** No segment of the pathname is [.] or [..]. *)
Definition no_dot_segments (pathname : str) : bool :=
  forallb plain_segment (split "/" pathname).

(** The step of the [forEach] of [resolvePathname]. *)
Definition resolve_step (segments : list str) (segment : str) : list str :=
  if str_eqb segment s!".." then
    if (1 <? length segments)%nat then slice_init segments else segments
  else if negb (str_eqb segment s!".") then segments ++ [segment]
  else segments.

(** An absolute route path that does not begin with the path of the
    parents: the route [flattenRoutes] refuses. *)
Definition misplaced (parentPath : str) (route : RouteObject) : bool :=
  startsWith (default [] (r_path route)) s!"/"
  && negb (startsWith (default [] (r_path route)) parentPath).

(** The message of the error thrown for it. *)
Definition misplaced_message (parentPath : str) (route : RouteObject) : str :=
  s!"Absolute route path " ++ [dquote] ++ default [] (r_path route) ++ [dquote]
  ++ s!" nested under path " ++ [dquote] ++ parentPath ++ [dquote]
  ++ s!" is not valid. An absolute child route path "
  ++ s!"must start with the combined path of all its parent routes.".

(** The first route of a list that satisfies a test. *)
Fixpoint first_route (test : RouteObject -> bool) (routes : list RouteObject)
  : option RouteObject :=
  match routes with
  | [] => None
  | route :: rest => if test route then Some route else first_route test rest
  end.

(** The branch [flattenRoutes] pushes for the route at position [index]. *)
Definition branch_of (parentsMeta : list RouteMeta) (parentPath : str) (index : nat)
    (route : RouteObject) : RouteBranch :=
  let relativePath :=
    if startsWith (default [] (r_path route)) s!"/"
    then slice_from (length parentPath) (default [] (r_path route))
    else default [] (r_path route) in
  let path := joinPaths [parentPath; relativePath] in
  MkRouteBranch path (computeScore path (r_index route))
    (parentsMeta ++ [MkRouteMeta relativePath (r_caseSensitive route) index]).

Fixpoint branches_from (parentsMeta : list RouteMeta) (parentPath : str) (index : nat)
    (routes : list RouteObject) : list RouteBranch :=
  match routes with
  | [] => []
  | route :: rest =>
      (if matchable route then [branch_of parentsMeta parentPath index route] else [])
      ++ branches_from parentsMeta parentPath (S index) rest
  end.

(** The pattern a top-level route is matched with. *)
Definition route_pattern (route : RouteObject) : PatternArg :=
  PatObject (MkPathPattern (default [] (r_path route)) (Some (r_caseSensitive route))
               (Some true)).

(** The match [matchRoutes] reports for a route and a match of its
    pattern. *)
Definition route_match (route : RouteObject) (pm : PathMatch) : RouteMatch :=
  MkRouteMatch (pm_params pm) (joinPaths [s!"/"; pm_pathname pm])
    (joinPaths [s!"/"; pm_pathnameBase pm]) (Some route).

(** A path without the tail [compilePath] sets aside: the star at its
    end, if any, and the slashes before it. *)
Definition strip_tail (path : str) : str :=
  rstrip_slashes (if endsWith path s!"*" then removelast path else path).

(** ** The stores of [src/index.ts]

    The reducers of [$routes] and the function that computes
    [$matchedRoutes] from the routes and a location.  A location carries
    a pathname, a search and a hash; its state and key play no part. *)

(** [(routes, route) => [...routes, route]]. *)
Definition on_routeInitialized (routes : list RouteObject) (route : RouteObject)
  : list RouteObject :=
  routes ++ [route].

(** [(routes, destroyedRoute) =>
      routes.filter((route) => route.path !== destroyedRoute.path)]. *)
Definition on_routeDestroyed (routes : list RouteObject) (destroyedPath : str)
  : list RouteObject :=
  List.filter (fun route => negb (bool_decide (r_path route = Some destroyedPath))) routes.

(** [(routes, location) => lib.matchRoutes(routes, location) || []]. *)
Definition matched_routes (routes : list RouteObject) (location : Path)
  : outcome (list RouteMatch) :=
  r ← matchRoutes routes
        (ToPath (MkPartialPath (Some (p_pathname location)) (Some (p_search location))
                   (Some (p_hash location)))) s!"/";
  Return (default [] r).

(** [(location) => location ? location.pathname : ""]. *)
Definition pathname_of (location : option Path) : str :=
  match location with
  | Some l => p_pathname l
  | None => []
  end.

(** What is left of a text after a literal at its start, compared
    character by character, without regard to case when [ic] is set;
    [None] when the text does not begin with the literal. *)
Fixpoint literal_prefix (ic : bool) (literal text : str) : option str :=
  match literal with
  | [] => Some text
  | c :: literal' =>
      match text with
      | x :: text' =>
          if char_matches ic c x then literal_prefix ic literal' text' else None
      | [] => None
      end
  end.

(** A word boundary between two texts: one of the characters on its
    sides is a word character and the other is not, or is missing. *)
Definition word_last (s : str) : bool :=
  match last s with Some x => is_word x | None => false end.

Definition word_first (s : str) : bool :=
  match s with x :: _ => is_word x | [] => false end.

Definition boundary_between (before after : str) : bool :=
  xorb (word_last before) (word_first after).

(** The splat a pattern that ends with [/*] captures from what follows
    its body: the text after one slash, when there is some and it has no
    line terminator; the empty text when nothing or one slash follows
    the body. *)
Definition splat_of (rest : str) : option str :=
  match rest with
  | c :: x :: s =>
      if is_slash c && no_line_terminator (x :: s) then Some (x :: s)
      else None
  | _ => if forallb is_slash rest then Some [] else None
  end.

(** The match of a pattern with a splat, from the raw text of the
    splat. *)
Definition splat_match (pattern : PathPattern) (pathname splat : str) : PathMatch :=
  MkPathMatch {[ s!"*" := safelyDecodeURIComponent splat s!"*" ]} pathname
    (base_of (take (length pathname - length splat) pathname)) pattern.

(** The score of the branch [flattenRoutes] builds for a top-level
    route. *)
Definition route_score (route : RouteObject) : Z :=
  computeScore (joinPaths [[]; default [] (r_path route)]) (r_index route).

(** A simple pattern with each [:name] replaced by the value the mapping
    has for it. *)
Definition filled (pattern : str) (values : Params) : str :=
  flat_map (token_value values) (tokens pattern).

(** * Properties *)

(** ** Strings *)

Lemma str_eqb_eq (a b : str) : str_eqb a b = true <-> a = b.
Proof.
  revert b. induction a as [|x a IH]; intros [|y b]; simpl; try (split; congruence).
  rewrite andb_true_iff, IH, Ascii.eqb_eq. split; [intros [-> ->]; reflexivity|].
  intros H; inversion H; auto.
Qed.

Lemma str_eqb_refl (a : str) : str_eqb a a = true.
Proof. apply str_eqb_eq; reflexivity. Qed.

Lemma str_eqb_neq (a b : str) : str_eqb a b = false <-> a <> b.
Proof.
  rewrite <- str_eqb_eq. destruct (str_eqb a b); split; congruence.
Qed.

Lemma startsWith_prefix (s p : str) : startsWith s p = true <-> p `prefix_of` s.
Proof.
  revert s. induction p as [|y p IH]; intros s; simpl.
  - split; [intros _; apply prefix_nil | reflexivity].
  - destruct s as [|x s].
    + split; [discriminate | intros H; apply prefix_nil_inv in H; discriminate].
    + rewrite andb_true_iff, IH, Ascii.eqb_eq. split.
      * intros [-> H]. apply prefix_cons, H.
      * intros H. split; [symmetry; eapply prefix_cons_inv_1, H | eapply prefix_cons_inv_2, H].
Qed.

Lemma or_str_nonempty (a b : str) : b <> [] -> or_str a b <> [].
Proof. destruct a; simpl; congruence. Qed.

Lemma charAt_lookup (n : nat) (s : str) :
  charAt n s = match s !! n with Some c => [c] | None => [] end.
Proof. reflexivity. Qed.

(** ** [parsePath] *)

Lemma cut_at_fst_prefix (c : ascii) (s : str) : (cut_at c s).1 `prefix_of` s.
Proof.
  induction s as [|x s IH]; simpl; [reflexivity|].
  destruct (Ascii.eqb x c); [apply prefix_nil|].
  destruct (cut_at c s) as [a b]; simpl in *. apply prefix_cons, IH.
Qed.

Lemma cut_at_fst_notin (c : ascii) (s : str) : c ∉ (cut_at c s).1.
Proof.
  induction s as [|x s IH]; simpl; [apply not_elem_of_nil|].
  destruct (Ascii.eqb_spec x c) as [->|Hne]; [apply not_elem_of_nil|].
  destruct (cut_at c s) as [a b]; simpl in *.
  rewrite elem_of_cons. intros [->|H]; [congruence | auto].
Qed.

Lemma cut_at_notin (c : ascii) (s : str) : c ∉ s -> cut_at c s = (s, None).
Proof.
  induction s as [|x s IH]; simpl; [reflexivity|].
  rewrite not_elem_of_cons. intros [Hne Hs].
  destruct (Ascii.eqb_spec x c) as [->|_]; [congruence|].
  rewrite (IH Hs). reflexivity.
Qed.

Lemma parsePath_plain (s : str) :
  s <> [] -> "#" ∉ s -> "?" ∉ s -> parsePath s = MkPartialPath (Some s) None None.
Proof.
  intros Hne Hh Hq. unfold parsePath.
  rewrite (cut_at_notin _ _ Hh), (cut_at_notin _ _ Hq).
  destruct s; [congruence | reflexivity].
Qed.

Lemma parsePath_pathname_plain (s p : str) :
  pp_pathname (parsePath s) = Some p -> ("#" ∉ p) /\ ("?" ∉ p).
Proof.
  unfold parsePath.
  pose proof (cut_at_fst_notin "#" s) as Hh.
  pose proof (cut_at_fst_prefix "?" (cut_at "#" s).1) as Hp.
  pose proof (cut_at_fst_notin "?" (cut_at "#" s).1) as Hq.
  destruct (cut_at "#" s) as [p1 h]; simpl in *.
  destruct (cut_at "?" p1) as [p2 q]; simpl in *.
  destruct p2 as [|x p2]; simpl; [discriminate|].
  intros [= <-]. split; [|exact Hq].
  destruct Hp as [k ->]. intros H. apply Hh. apply elem_of_app. left. exact H.
Qed.

Lemma location_pathname_plain (s : str) :
  ("#" ∉ location_pathname (ToString s)) /\ ("?" ∉ location_pathname (ToString s)).
Proof.
  unfold location_pathname; simpl.
  destruct (pp_pathname (parsePath s)) as [p|] eqn:E; simpl.
  - destruct (parsePath_pathname_plain _ _ E) as [Hh Hq].
    destruct p; simpl; [|auto].
    split; intros H; apply list_elem_of_singleton in H; discriminate.
  - split; intros H; apply list_elem_of_singleton in H; discriminate.
Qed.

(** ** [stripBasename] and the basename of [matchRoutes] *)

Lemma stripBasename_root (p : str) : stripBasename p s!"/" = Some p.
Proof. reflexivity. Qed.

Lemma stripBasename_under (p b : str) :
  b <> s!"/" -> under_basename p b ->
  stripBasename p b = Some (or_str (drop (length b) p) s!"/").
Proof.
  intros Hb [Hpre Hnext]. unfold stripBasename.
  apply str_eqb_neq in Hb. rewrite Hb.
  apply startsWith_prefix in Hpre. rewrite Hpre. simpl.
  rewrite charAt_lookup. destruct Hnext as [-> | ->]; reflexivity.
Qed.

Lemma stripBasename_not_under (p b : str) :
  b <> s!"/" -> ~ under_basename p b -> stripBasename p b = None.
Proof.
  intros Hb Hn. unfold stripBasename.
  apply str_eqb_neq in Hb. rewrite Hb.
  destruct (startsWith (toLowerCase p) (toLowerCase b)) eqn:Hs; simpl; [|reflexivity].
  apply startsWith_prefix in Hs. rewrite charAt_lookup.
  destruct (p !! length b) as [c|] eqn:Hc; simpl.
  - destruct (Ascii.eqb_spec c "/") as [->|Hne]; simpl.
    + exfalso. apply Hn. split; auto.
    + reflexivity.
  - exfalso. apply Hn. split; auto.
Qed.

Lemma matchRoutes_stripped (routes : list RouteObject) (locationArg : To) (p : str) :
  p <> [] ->
  (forall s, locationArg = ToString s -> ("#" ∉ p) /\ ("?" ∉ p)) ->
  matchRoutes routes (with_pathname locationArg p) s!"/"
  = (branches ← flattenRoutes routes [] [] [];
     first_match (rankRouteBranches branches) routes p).
Proof.
  intros Hne Hplain. unfold matchRoutes.
  assert (pp_pathname (location_of (with_pathname locationArg p)) = Some p) as ->.
  { destruct locationArg as [s|l]; simpl; [|reflexivity].
    destruct (Hplain s eq_refl) as [Hh Hq]. rewrite parsePath_plain; auto. }
  simpl. destruct p; [congruence|]. reflexivity.
Qed.

(** C7.  For a basename [b] other than ["/"]: when the pathname of the
    location does not start with [b] (case-insensitively), or the character
    after that prefix is neither absent nor [/], [stripBasename] gives
    [null] and [matchRoutes] returns [null] whatever the routes are, before
    any branch is built; otherwise [matchRoutes] with the basename returns
    what [matchRoutes] without basename returns on the pathname with the
    prefix stripped.  In particular ["/app/home"] under ["/app"] is matched
    as ["/home"], and ["/other"] under ["/app"] gives [null]. *)
Theorem matchRoutes_basename (routes : list RouteObject) (locationArg : To) (b : str) :
  b <> s!"/" ->
  let p := location_pathname locationArg in
  (~ under_basename p b ->
     stripBasename p b = None /\ matchRoutes routes locationArg b = Return None)
  /\ (under_basename p b ->
        matchRoutes routes locationArg b
        = matchRoutes routes
            (with_pathname locationArg (or_str (drop (length b) p) s!"/")) s!"/")
  /\ matchRoutes routes (ToString s!"/app/home") s!"/app"
     = matchRoutes routes (ToString s!"/home") s!"/"
  /\ matchRoutes routes (ToString s!"/other") s!"/app" = Return None.
Proof.
  intros Hb p. split; [|split; [|split]].
  - intros Hn. pose proof (stripBasename_not_under p b Hb Hn) as Hs.
    split; [exact Hs|]. unfold matchRoutes. fold (location_pathname locationArg).
    fold p. rewrite Hs. reflexivity.
  - intros Hu. rewrite matchRoutes_stripped.
    + unfold matchRoutes. fold (location_pathname locationArg). fold p.
      rewrite (stripBasename_under p b Hb Hu). reflexivity.
    + apply or_str_nonempty. discriminate.
    + intros s ->. destruct (location_pathname_plain s) as [Hh Hq]. fold p in Hh, Hq.
      assert (forall c, c ∉ p -> c <> "/" -> c ∉ or_str (drop (length b) p) s!"/") as Hin.
      { intros c Hc Hc'. destruct (drop (length b) p) as [|x r] eqn:E; simpl.
        - intros H. apply list_elem_of_singleton in H. congruence.
        - rewrite <- E. intros H. apply Hc.
          rewrite <- (take_drop (length b) p). apply elem_of_app. right. exact H. }
      split; apply Hin; auto; discriminate.
  - reflexivity.
  - reflexivity.
Qed.

Lemma matchRoutes_basename_witness :
  s!"/app" <> s!"/"
  /\ matchRoutes [MkRoute (Some s!"/home") false false []] (ToString s!"/app/home") s!"/app"
     = matchRoutes [MkRoute (Some s!"/home") false false []] (ToString s!"/home") s!"/".
Proof.
  split; [discriminate|].
  apply (matchRoutes_basename [MkRoute (Some s!"/home") false false []]
           (ToString s!"/app/home") s!"/app").
  discriminate.
Defined.

(** ** [resolveTo] *)

Lemma drop_dotdots_spec (segments : list str) (i : Z) :
  drop_dotdots segments i
  = (drop (count_dotdots segments) segments, (i - Z.of_nat (count_dotdots segments))%Z).
Proof.
  revert i. induction segments as [|seg rest IH]; intros i;
    cbn [drop_dotdots count_dotdots].
  - cbn. f_equal. lia.
  - destruct (str_eqb seg s!"..").
    + rewrite IH. cbn [drop]. f_equal. lia.
    + cbn. f_equal. lia.
Qed.

Lemma route_ancestor_lookup (routePathnames : list str) (n : nat) :
  (n < length routePathnames)%nat ->
  routePathnames !! (length routePathnames - 1 - n)%nat
  = Some (route_ancestor routePathnames n).
Proof.
  intros Hn. unfold route_ancestor.
  destruct (Nat.ltb_spec n (length routePathnames)) as [_|]; [|lia].
  destruct (routePathnames !! (length routePathnames - 1 - n)%nat) eqn:E;
    [reflexivity|].
  apply lookup_ge_None in E. lia.
Qed.

(** C9.  For a target whose pathname starts with [..]: with [n] the number
    of leading [..] segments of the pathname, [resolveTo] resolves the
    remaining segments from the route pathname [n] levels above the last
    one of [routePathnames], and from ["/"] when [n] is at least the length
    of that list; a trailing slash of the target is kept.  In particular
    ["../sibling"] under [["/a"; "/a/b"]] resolves to ["/a/sibling"]. *)
Theorem resolveTo_dotdot (toArg : To) (routePathnames : list str)
    (locationPathname toPathname : str) :
  pp_pathname (location_of toArg) = Some toPathname ->
  startsWith toPathname s!".." = true ->
  let segments := split "/" toPathname in
  let n := count_dotdots segments in
  let remainder :=
    MkPartialPath (Some (join s!"/" (drop n segments)))
      (pp_search (location_of toArg)) (pp_hash (location_of toArg)) in
  resolveTo toArg routePathnames locationPathname
  = keep_trailing_slash toPathname
      (resolvePath (ToPath remainder) (route_ancestor routePathnames n))
  /\ ((n < length routePathnames)%nat ->
      routePathnames !! (length routePathnames - 1 - n)%nat
      = Some (route_ancestor routePathnames n))
  /\ ((length routePathnames <= n)%nat -> route_ancestor routePathnames n = s!"/")
  /\ p_pathname (resolveTo (ToString s!"../sibling") [s!"/a"; s!"/a/b"] s!"/a/b/current")
     = s!"/a/sibling".
Proof.
  intros Hp Hdots segments n remainder.
  split; [|split; [apply route_ancestor_lookup|split; [|reflexivity]]].
  - assert (toPathname <> []) as Hne by (intros ->; discriminate).
    assert (is_empty_string toArg = false) as He.
    { destruct toArg as [[|c s]|l]; try reflexivity. discriminate. }
    unfold resolveTo. rewrite He, Hp. simpl orb.
    rewrite bool_decide_eq_false_2 by congruence.
    rewrite Hdots, drop_dotdots_spec. fold segments. fold n. fold remainder.
    assert ((if (0 <=? Z.of_nat (length routePathnames) - 1 - Z.of_nat n)%Z
             then default [] (routePathnames !! Z.to_nat
                    (Z.of_nat (length routePathnames) - 1 - Z.of_nat n))
             else s!"/") = route_ancestor routePathnames n) as ->.
    { unfold route_ancestor.
      destruct (Z.leb_spec 0 (Z.of_nat (length routePathnames) - 1 - Z.of_nat n));
        destruct (Nat.ltb_spec n (length routePathnames)); try lia; [|reflexivity].
      replace (Z.to_nat (Z.of_nat (length routePathnames) - 1 - Z.of_nat n))
        with (length routePathnames - 1 - n)%nat by lia.
      reflexivity. }
    unfold keep_trailing_slash.
    apply str_eqb_neq in Hne. rewrite Hne.
    assert (str_eqb toPathname s!"/" = false) as ->.
    { apply str_eqb_neq. intros ->. discriminate. }
    reflexivity.
  - intros Hn. unfold route_ancestor.
    destruct (Nat.ltb_spec n (length routePathnames)); [lia | reflexivity].
Qed.

Lemma resolveTo_dotdot_witness :
  p_pathname (resolveTo (ToString s!"../../x/") [s!"/a"; s!"/a/b"] s!"/a/b/c") = s!"/x/".
Proof.
  pose proof (resolveTo_dotdot (ToString s!"../../x/") [s!"/a"; s!"/a/b"] s!"/a/b/c"
                s!"../../x/" eq_refl eq_refl) as [H _].
  rewrite H. reflexivity.
Defined.

(** ** [flattenRoutes] *)

Lemma startsWith_nil (s : str) : startsWith s [] = true.
Proof. reflexivity. Qed.

Lemma flatten_from_chains (routes : list RouteObject) :
  forall index branches parentsMeta parentPath bs,
  flatten_from index routes branches parentsMeta parentPath = Return bs ->
  map chain_of bs
  = map chain_of branches
    ++ map (fun i => map childrenIndex parentsMeta ++ [i]) (matchable_from index routes).
Proof.
  induction routes as [|route rest IH]; intros index branches parentsMeta parentPath bs;
    cbn [flatten_from matchable_from].
  - intros [= <-]. rewrite app_nil_r. reflexivity.
  - set (rp := default [] (r_path route)).
    destruct (startsWith rp s!"/").
    + destruct (startsWith rp parentPath); cbn; [|discriminate].
      unfold matchable. destruct (bool_decide (r_path route = None)), (r_index route);
        cbn; intros H; apply IH in H; rewrite H; try reflexivity;
        rewrite map_app, <- app_assoc; cbn; unfold chain_of at 2; cbn;
        rewrite map_app; reflexivity.
    + cbn. unfold matchable.
      destruct (bool_decide (r_path route = None)), (r_index route);
        cbn; intros H; apply IH in H; rewrite H; try reflexivity;
        rewrite map_app, <- app_assoc; cbn; unfold chain_of at 2; cbn;
        rewrite map_app; reflexivity.
Qed.

Lemma flatten_from_total (routes : list RouteObject) :
  forall index branches parentsMeta,
  exists bs, flatten_from index routes branches parentsMeta [] = Return bs.
Proof.
  induction routes as [|route rest IH]; intros index branches parentsMeta;
    cbn [flatten_from].
  - eexists; reflexivity.
  - rewrite startsWith_nil.
    destruct (startsWith (default [] (r_path route)) s!"/"); cbn;
      destruct (bool_decide (r_path route = None) && negb (r_index route)); apply IH.
Qed.

Lemma flatten_from_children (routes : list RouteObject) :
  forall index branches parentsMeta parentPath,
  flatten_from index (map without_children routes) branches parentsMeta parentPath
  = flatten_from index routes branches parentsMeta parentPath.
Proof.
  induction routes as [|route rest IH]; intros index branches parentsMeta parentPath;
    cbn [flatten_from map]; [reflexivity|].
  cbn [without_children r_path r_index r_caseSensitive].
  destruct (startsWith (default [] (r_path route)) s!"/"); cbn;
    [destruct (startsWith (default [] (r_path route)) parentPath); cbn; [|reflexivity]|];
    destruct (bool_decide (r_path route = None) && negb (r_index route)); apply IH.
Qed.

Lemma matchable_from_spec (routes : list RouteObject) (index i : nat) :
  i ∈ matchable_from index routes
  <-> exists route, routes !! (i - index)%nat = Some route
                    /\ (index <= i)%nat /\ matchable route = true.
Proof.
  revert index. induction routes as [|route rest IH]; intros index; cbn [matchable_from].
  - split; [intros H; inversion H | intros (r & Hr & _); discriminate].
  - rewrite elem_of_app, IH. split.
    + intros [H | (r & Hr & Hle & Hm)].
      * destruct (matchable route) eqn:Hm; [|inversion H].
        apply list_elem_of_singleton in H as ->.
        exists route. rewrite Nat.sub_diag. auto.
      * exists r. replace (i - index)%nat with (S (i - S index)) by lia.
        split; [exact Hr|]. split; [lia | exact Hm].
    + intros (r & Hr & Hle & Hm).
      destruct (decide (i = index)) as [->|Hne].
      * rewrite Nat.sub_diag in Hr. injection Hr as ->. rewrite Hm.
        left. apply list_elem_of_singleton. reflexivity.
      * right. exists r. replace (i - index)%nat with (S (i - S index)) in Hr by lia.
        split; [exact Hr|]. split; [lia | exact Hm].
Qed.

(** C4 as stated fails: the child of a pathless grouping route has no
    branch in the flattened list, which is empty. *)
Lemma flattenRoutes_grouping_counterexample :
  flattenRoutes grouping_routes [] [] [] = Return []
  /\ ~ (forall i route j child bs,
          grouping_routes !! i = Some route ->
          r_path route = None -> r_index route = false ->
          r_children route !! j = Some child -> matchable child = true ->
          flattenRoutes grouping_routes [] [] [] = Return bs ->
          exists b, b ∈ bs /\ chain_of b = [i; j]).
Proof.
  split; [reflexivity|].
  intros H.
  destruct (H 0%nat (MkRoute None false false [MkRoute (Some s!"a") false false []])
              0%nat (MkRoute (Some s!"a") false false []) []
              eq_refl eq_refl eq_refl eq_refl eq_refl eq_refl) as (b & Hb & _).
  inversion Hb.
Qed.

(** C4, amended.  [flattenRoutes] visits the routes of the list it is
    given and never their children: it returns one branch for every route
    of the list that has a path or an index flag, in order, whose chain is
    the position of that route alone; a route that has no path and no index
    flag contributes no branch; and the result is the same when every
    route is stripped of its children. *)
Theorem flattenRoutes_flat (routes : list RouteObject) :
  exists bs,
    flattenRoutes routes [] [] [] = Return bs
    /\ map chain_of bs = map (fun i => [i]) (matchable_from 0 routes)
    /\ (forall b, b ∈ bs ->
          exists i route, chain_of b = [i] /\ routes !! i = Some route
                          /\ matchable route = true)
    /\ (forall i route, routes !! i = Some route ->
          r_path route = None -> r_index route = false ->
          forall b, b ∈ bs -> chain_of b <> [i])
    /\ flattenRoutes (map without_children routes) [] [] [] = Return bs.
Proof.
  destruct (flatten_from_total routes 0 [] []) as [bs Hbs].
  pose proof (flatten_from_chains _ _ _ _ _ _ Hbs) as Hc. cbn in Hc.
  assert (forall b, b ∈ bs ->
            exists i route, chain_of b = [i] /\ routes !! i = Some route
                            /\ matchable route = true) as Hall.
  { intros b Hb. apply list_elem_of_In, (in_map chain_of) in Hb. rewrite Hc in Hb.
    apply in_map_iff in Hb as (i & Hi & Hin).
    apply list_elem_of_In, matchable_from_spec in Hin as (r & Hr & _ & Hm).
    rewrite Nat.sub_0_r in Hr. eauto. }
  exists bs. split; [exact Hbs|]. split; [exact Hc|]. split; [exact Hall|].
  split.
  - intros i route Hr Hp Hi b Hb Hchain.
    destruct (Hall b Hb) as (i' & r' & Hc' & Hr' & Hm).
    rewrite Hchain in Hc'. injection Hc' as <-.
    rewrite Hr in Hr'. injection Hr' as <-.
    unfold matchable in Hm. rewrite Hi, bool_decide_eq_true_2 in Hm by exact Hp.
    discriminate.
  - unfold flattenRoutes. rewrite flatten_from_children. exact Hbs.
Qed.

(** ** [matchRouteBranch] *)

Lemma lookup_map {A B : Type} (f : A -> B) (l : list A) (i : nat) :
  map f l !! i = f <$> l !! i.
Proof. apply (list_lookup_fmap f l i). Qed.

Lemma match_chain_orphans (metas : list RouteMeta) :
  forall pathname matchedParams matchedPathname matches params steps,
  match_chain metas [] pathname matchedParams matchedPathname matches
  = Return (Some (params, steps)) ->
  map st_route steps = map st_route matches ++ map (fun _ => None) metas.
Proof.
  induction metas as [|meta metas IH];
    intros pathname matchedParams matchedPathname matches params steps;
    cbn [match_chain].
  - intros [= _ <-]. rewrite app_nil_r. reflexivity.
  - destruct (matchPath _ _) as [[pm|]|e]; cbn; try discriminate.
    intros H. apply IH in H. rewrite H, map_app, <- app_assoc. reflexivity.
Qed.

Lemma match_chain_routes (metas : list RouteMeta) (routes : list RouteObject) :
  forall pathname matchedParams matchedPathname matches params steps,
  match_chain metas routes pathname matchedParams matchedPathname matches
  = Return (Some (params, steps)) ->
  map st_route steps
  = map st_route matches ++ routes_recorded routes (map childrenIndex metas).
Proof.
  destruct metas as [|meta metas];
    intros pathname matchedParams matchedPathname matches params steps;
    cbn [match_chain].
  - intros [= _ <-]. rewrite app_nil_r. reflexivity.
  - destruct (matchPath _ _) as [[pm|]|e]; cbn; try discriminate.
    intros H. apply match_chain_orphans in H.
    rewrite H, map_app, <- app_assoc, map_map. reflexivity.
Qed.

Lemma match_chain_length (metas : list RouteMeta) :
  forall routes pathname matchedParams matchedPathname matches params steps,
  match_chain metas routes pathname matchedParams matchedPathname matches
  = Return (Some (params, steps)) ->
  length steps = (length matches + length metas)%nat.
Proof.
  induction metas as [|meta metas IH];
    intros routes pathname matchedParams matchedPathname matches params steps;
    cbn [match_chain].
  - intros [= _ <-]. cbn. lia.
  - destruct (matchPath _ _) as [[pm|]|e]; cbn; try discriminate.
    intros H. apply IH in H. rewrite H, length_app. cbn. lia.
Qed.

(** C5 as stated fails: on the branch of the child [b] of the route [a],
    matched against ["/a/b"], the second match records no route, where the
    tree has the child. *)
Lemma matchRouteBranch_nested_counterexample :
  exists matches,
    matchRouteBranch nested_branch nested_routes s!"/a/b" = Return (Some matches)
    /\ map rm_route matches
       = [Some (MkRoute (Some s!"a") false false [MkRoute (Some s!"b") false false []]);
          None]
    /\ routes_along nested_routes (chain_of nested_branch)
       = [Some (MkRoute (Some s!"a") false false [MkRoute (Some s!"b") false false []]);
          Some (MkRoute (Some s!"b") false false [])]
    /\ map rm_route matches <> routes_along nested_routes (chain_of nested_branch).
Proof.
  eexists. split; [vm_compute; reflexivity|].
  split; [reflexivity|]. split; [reflexivity|]. discriminate.
Qed.

(** C5, amended.  When [matchRouteBranch] succeeds it returns one match for
    every element of the chain; the route of the first match is the entry
    of the top-level route list at the first element's [childrenIndex], and
    the route of every later match is undefined, the list being emptied
    after the first step. *)
Theorem matchRouteBranch_routes (branch : RouteBranch) (routesArg : list RouteObject)
    (pathname : str) (matches : list RouteMatch) :
  matchRouteBranch branch routesArg pathname = Return (Some matches) ->
  length matches = length (routesMeta branch)
  /\ map rm_route matches = routes_recorded routesArg (chain_of branch)
  /\ (forall meta, routesMeta branch !! 0%nat = Some meta ->
        rm_route <$> matches !! 0%nat = Some (routesArg !! childrenIndex meta))
  /\ (forall i m, (0 < i)%nat -> matches !! i = Some m -> rm_route m = None).
Proof.
  unfold matchRouteBranch.
  destruct (match_chain _ _ _ _ _ _) as [[[params steps]|]|e] eqn:E; cbn;
    try discriminate.
  intros [= <-].
  pose proof (match_chain_routes _ _ _ _ _ _ _ _ E) as Hr.
  pose proof (match_chain_length _ _ _ _ _ _ _ _ E) as Hl.
  cbn in Hr, Hl. fold (chain_of branch) in Hr.
  assert (map rm_route
            (map (fun s => MkRouteMatch params (st_pathname s) (st_pathnameBase s)
                             (st_route s)) steps)
          = routes_recorded routesArg (chain_of branch)) as Hm.
  { rewrite map_map. cbn. exact Hr. }
  split; [rewrite length_map; exact Hl|]. split; [exact Hm|]. split.
  - intros meta Hmeta. rewrite <- lookup_map, Hm.
    unfold chain_of. destruct (routesMeta branch) as [|m0 ms]; [discriminate|].
    injection Hmeta as ->. reflexivity.
  - intros i m Hi Hm'.
    pose proof (lookup_map rm_route
                  (map (fun s => MkRouteMatch params (st_pathname s) (st_pathnameBase s)
                                   (st_route s)) steps) i) as Hl'.
    rewrite Hm' in Hl'. rewrite Hm in Hl'. unfold routes_recorded in Hl'.
    destruct (chain_of branch) as [|i0 rest]; [discriminate|].
    destruct i as [|i]; [lia|].
    change (map (fun _ : nat => @None RouteObject) rest !! i = Some (rm_route m)) in Hl'.
    rewrite lookup_map in Hl'.
    destruct (rest !! i); cbn in Hl'; congruence.
Qed.

Lemma matchRouteBranch_routes_witness :
  exists matches,
    matchRouteBranch nested_branch nested_routes s!"/a/b" = Return (Some matches)
    /\ map rm_route matches = routes_recorded nested_routes (chain_of nested_branch).
Proof.
  eexists. split; [vm_compute; reflexivity|].
  eapply (matchRouteBranch_routes nested_branch nested_routes s!"/a/b").
  vm_compute. reflexivity.
Defined.

(** ** Sorting with a comparator *)

Section Sorting.
Context {A : Type} (cmp : A -> A -> Z).
Hypothesis cmp_anti : forall a b, cmp b a = (- cmp a b)%Z.

Let le (a b : A) : Prop := (cmp a b <= 0)%Z.

Lemma sort_insert_perm (x : A) (l : list A) : sort_insert cmp x l ≡ₚ x :: l.
Proof.
  induction l as [|y l IH]; cbn [sort_insert]; [reflexivity|].
  destruct (0 <? cmp x y)%Z; [|reflexivity].
  rewrite IH. apply Permutation_swap.
Qed.

Lemma Array_sort_perm (l : list A) : Array_sort cmp l ≡ₚ l.
Proof.
  induction l as [|x l IH]; cbn; [reflexivity|].
  fold (Array_sort cmp l). rewrite sort_insert_perm, IH. reflexivity.
Qed.

Lemma sort_insert_sorted (x : A) (l : list A) :
  cmp_trans_on cmp (x :: l) -> StronglySorted le l ->
  StronglySorted le (sort_insert cmp x l).
Proof.
  intros Htr. induction l as [|y l IH]; cbn [sort_insert]; intros Hs.
  - repeat constructor.
  - apply StronglySorted_cons in Hs as [Hy Hs].
    destruct (Z.ltb_spec 0 (cmp x y)) as [Hlt|Hle].
    + apply StronglySorted_cons. split.
      * rewrite sort_insert_perm. constructor; [|exact Hy].
        unfold le. rewrite cmp_anti. lia.
      * apply IH; [|exact Hs].
        intros a b c Ha Hb Hc. apply Htr;
          rewrite !elem_of_cons in *; tauto.
    + apply StronglySorted_cons. split; [|apply StronglySorted_cons; auto].
      constructor; [exact Hle|].
      rewrite Forall_forall in Hy |- *. intros z Hz.
      apply (Htr x y z); rewrite ?elem_of_cons; auto.
      apply Hy, Hz.
Qed.

Lemma Array_sort_sorted (l : list A) :
  cmp_trans_on cmp l -> StronglySorted le (Array_sort cmp l).
Proof.
  induction l as [|x l IH]; intros Htr; cbn; [constructor|].
  fold (Array_sort cmp l). apply sort_insert_sorted.
  - intros a b c Ha Hb Hc. apply Htr;
      rewrite elem_of_cons in *; rewrite ?Array_sort_perm in *; tauto.
  - apply IH. intros a b c Ha Hb Hc. apply Htr; rewrite elem_of_cons; auto.
Qed.

Lemma sort_insert_filter (z x : A) (l : list A) :
  cmp_trans_on cmp (z :: x :: l) ->
  filter (fun y => cmp z y = 0%Z) (sort_insert cmp x l)
  = filter (fun y => cmp z y = 0%Z) (x :: l).
Proof.
  intros Htr. induction l as [|y l IH]; cbn [sort_insert]; [reflexivity|].
  destruct (Z.ltb_spec 0 (cmp x y)) as [Hlt|Hle]; [|reflexivity].
  rewrite filter_cons, IH.
  2:{ intros a b c Ha Hb Hc. apply Htr; rewrite !elem_of_cons in *; tauto. }
  rewrite !filter_cons.
  destruct (decide (cmp z y = 0%Z)) as [Hzy|]; [|reflexivity].
  destruct (decide (cmp z x = 0%Z)) as [Hzx|]; [|reflexivity].
  exfalso.
  assert (cmp x y <= 0)%Z; [|lia].
  apply (Htr x z y); rewrite ?elem_of_cons; auto; [|lia].
  rewrite cmp_anti. lia.
Qed.

Lemma Array_sort_stable (z : A) (l : list A) :
  cmp_trans_on cmp (z :: l) ->
  filter (fun y => cmp z y = 0%Z) (Array_sort cmp l)
  = filter (fun y => cmp z y = 0%Z) l.
Proof.
  induction l as [|x l IH]; intros Htr; cbn; [reflexivity|].
  fold (Array_sort cmp l). rewrite sort_insert_filter.
  - rewrite !filter_cons, IH; [reflexivity|].
    intros a b c Ha Hb Hc. apply Htr; rewrite !elem_of_cons in *; tauto.
  - intros a b c Ha Hb Hc. apply Htr;
      rewrite !elem_of_cons in *; rewrite ?Array_sort_perm in *; tauto.
Qed.
End Sorting.

Lemma before_sorted {A : Type} (R : relation A) (x y : A) (l : list A) :
  StronglySorted R l -> before x y l -> R x y.
Proof.
  unfold before. induction l as [|z l IH]; intros Hs Hb.
  - apply sublist_nil_r in Hb. discriminate.
  - apply StronglySorted_cons in Hs as [Hz Hs].
    apply sublist_cons_r in Hb as [Hb | (k & Hk & Hb)]; [auto|].
    injection Hk as <- <-.
    rewrite Forall_forall in Hz. apply Hz.
    eapply elem_of_sublist; [|exact Hb]. apply list_elem_of_singleton. reflexivity.
Qed.

Lemma before_total {A : Type} (x y : A) (l : list A) :
  x ∈ l -> y ∈ l -> x <> y -> before x y l \/ before y x l.
Proof.
  unfold before. induction l as [|z l IH]; intros Hx Hy Hne.
  - inversion Hx.
  - apply elem_of_cons in Hx as [->|Hx]; apply elem_of_cons in Hy as [->|Hy].
    + congruence.
    + left. apply sublist_skip. apply singleton_sublist_l. exact Hy.
    + right. apply sublist_skip. apply singleton_sublist_l. exact Hx.
    + destruct (IH Hx Hy Hne); [left | right]; apply sublist_cons; assumption.
Qed.

Lemma before_filter {A : Type} (P : A -> Prop) `{!forall x, Decision (P x)}
    (x y : A) (l : list A) :
  P x -> P y -> before x y l -> before x y (filter P l).
Proof.
  unfold before. intros Hx Hy. induction l as [|z l IH]; intros Hb.
  - apply sublist_nil_r in Hb. discriminate.
  - rewrite filter_cons.
    apply sublist_cons_r in Hb as [Hb | (k & Hk & Hb)].
    + destruct (decide (P z)); [apply sublist_cons|]; auto.
    + injection Hk as <- <-. rewrite decide_True by exact Hx.
      apply sublist_skip. apply singleton_sublist_l.
      apply list_elem_of_filter. split; [exact Hy|].
      eapply elem_of_sublist; [|exact Hb]. apply list_elem_of_singleton. reflexivity.
Qed.

Lemma before_elem {A : Type} (x y : A) (l : list A) :
  before x y l -> x ∈ l /\ y ∈ l.
Proof.
  intros Hb. split; eapply elem_of_sublist; try exact Hb;
    rewrite !elem_of_cons; auto.
Qed.

(** ** [compareIndexes] and [rankRouteBranches] *)

Lemma every_equal_prefix (a b : list nat) :
  every_equal a b = true <-> a `prefix_of` b.
Proof.
  revert b. induction a as [|n a IH]; intros b; cbn.
  - split; [intros _; apply prefix_nil | reflexivity].
  - destruct b as [|m b].
    + split; [discriminate | intros H; apply prefix_nil_inv in H; discriminate].
    + rewrite andb_true_iff, IH, Nat.eqb_eq. split.
      * intros [-> H]. apply prefix_cons, H.
      * intros H. split; [eapply prefix_cons_inv_1, H | eapply prefix_cons_inv_2, H].
Qed.

Lemma sibling_test (a b : list nat) :
  Nat.eqb (length a) (length b) && every_equal (slice_init a) b = true
  <-> sibling_chains a b.
Proof.
  unfold sibling_chains, slice_init.
  rewrite andb_true_iff, Nat.eqb_eq, every_equal_prefix. split.
  - intros [Hl [k Hk]]. split; [exact Hl|].
    rewrite <- Hl. rewrite Hk.
    rewrite take_app_le by (rewrite length_take; lia).
    rewrite (take_ge (take _ _)) by (rewrite length_take; lia). reflexivity.
  - intros [Hl Ht]. split; [exact Hl|]. rewrite Ht, <- Hl.
    apply prefix_take.
Qed.

Lemma sibling_chains_sym (a b : list nat) : sibling_chains a b -> sibling_chains b a.
Proof. intros [? ?]. split; congruence. Qed.

Lemma compareIndexes_siblings (a b : list nat) :
  sibling_chains a b ->
  compareIndexes a b
  = match last a, last b with
    | Some x, Some y => (Z.of_nat x - Z.of_nat y)%Z
    | _, _ => 0%Z
    end.
Proof.
  intros H. apply sibling_test in H. unfold compareIndexes. rewrite H. reflexivity.
Qed.

Lemma compareIndexes_strangers (a b : list nat) :
  ~ sibling_chains a b -> compareIndexes a b = 0%Z.
Proof.
  intros H. unfold compareIndexes.
  destruct (Nat.eqb (length a) (length b) && every_equal (slice_init a) b) eqn:E;
    [|reflexivity].
  apply sibling_test in E. contradiction.
Qed.

Lemma compareIndexes_anti (a b : list nat) :
  compareIndexes b a = (- compareIndexes a b)%Z.
Proof.
  assert (sibling_chains a b \/ ~ sibling_chains a b) as [H|H].
  { destruct (Nat.eqb (length a) (length b) && every_equal (slice_init a) b) eqn:E.
    - left. apply sibling_test, E.
    - right. intros H. apply sibling_test in H. congruence. }
  - rewrite (compareIndexes_siblings a b H),
      (compareIndexes_siblings b a (sibling_chains_sym _ _ H)).
    destruct (last a), (last b); lia.
  - rewrite (compareIndexes_strangers a b H), compareIndexes_strangers; [lia|].
    intros H'. apply H, sibling_chains_sym, H'.
Qed.

Lemma compareBranches_anti (a b : RouteBranch) :
  compareBranches b a = (- compareBranches a b)%Z.
Proof.
  unfold compareBranches.
  destruct (Z.eqb_spec (score a) (score b)) as [He|Hne].
  - rewrite He, Z.eqb_refl. cbn. apply compareIndexes_anti.
  - destruct (Z.eqb_spec (score b) (score a)); [congruence|]. cbn. lia.
Qed.

Lemma compareBranches_scores (a b : RouteBranch) :
  (compareBranches a b <= 0)%Z -> (score b <= score a)%Z.
Proof.
  unfold compareBranches.
  destruct (Z.eqb_spec (score a) (score b)) as [He|Hne]; cbn; lia.
Qed.

Lemma compareBranches_tie (a b : RouteBranch) :
  score a = score b -> compareBranches a b = compareIndexes (chain_of a) (chain_of b).
Proof.
  intros He. unfold compareBranches. rewrite He, Z.eqb_refl. reflexivity.
Qed.

(** Whatever the list, the ranked list is a rearrangement of it with the
    scores going down. *)
Lemma rankRouteBranches_scores (branches : list RouteBranch) :
  rankRouteBranches branches ≡ₚ branches
  /\ StronglySorted (fun a b => (score b <= score a)%Z) (rankRouteBranches branches).
Proof.
  split; [apply Array_sort_perm|].
  unfold rankRouteBranches.
  induction branches as [|x l IH]; cbn; [constructor|].
  fold (Array_sort compareBranches l).
  revert IH. generalize (Array_sort compareBranches l) as s.
  induction s as [|y s IHs]; cbn [sort_insert]; intros Hs.
  - repeat constructor.
  - apply StronglySorted_cons in Hs as [Hy Hs].
    destruct (Z.ltb_spec 0 (compareBranches x y)) as [Hlt|Hle].
    + apply StronglySorted_cons. split; [|auto].
      rewrite sort_insert_perm. constructor; [|exact Hy].
      apply compareBranches_scores. rewrite compareBranches_anti. lia.
    + apply compareBranches_scores in Hle.
      apply StronglySorted_cons. split; [|apply StronglySorted_cons; auto].
      constructor; [exact Hle|].
      rewrite Forall_forall in Hy |- *. intros z Hz. specialize (Hy z Hz). lia.
Qed.

(** The lists [flattenRoutes] builds have chains of one index; on them the
    comparison is transitive. *)
Lemma single_chains_consistent (branches : list RouteBranch) :
  (forall b, b ∈ branches -> length (routesMeta b) = 1%nat) ->
  cmp_trans_on compareBranches branches.
Proof.
  intros Hone.
  assert (forall a b, a ∈ branches -> b ∈ branches -> score a = score b ->
            exists i j, chain_of a = [i] /\ chain_of b = [j]
                        /\ compareBranches a b = (Z.of_nat i - Z.of_nat j)%Z) as Hcmp.
  { intros a b Ha Hb He. pose proof (Hone a Ha) as Hla. pose proof (Hone b Hb) as Hlb.
    rewrite (compareBranches_tie a b He). unfold chain_of.
    destruct (routesMeta a) as [|ma [|]]; try discriminate.
    destruct (routesMeta b) as [|mb [|]]; try discriminate.
    exists (childrenIndex ma), (childrenIndex mb). repeat split. }
  intros a b c Ha Hb Hc Hab Hbc.
  pose proof (compareBranches_scores _ _ Hab) as Sab.
  pose proof (compareBranches_scores _ _ Hbc) as Sbc.
  destruct (Z.eq_dec (score a) (score c)) as [Hac|Hac].
  - assert (score a = score b) as Eab by lia. assert (score b = score c) as Ebc by lia.
    destruct (Hcmp a b Ha Hb Eab) as (i & j & Hi & Hj & H1).
    destruct (Hcmp b c Hb Hc Ebc) as (j' & k & Hj' & Hk & H2).
    destruct (Hcmp a c Ha Hc Hac) as (i' & k' & Hi' & Hk' & H3).
    rewrite Hj in Hj'. rewrite Hi in Hi'. rewrite Hk in Hk'.
    injection Hj' as <-. injection Hi' as <-. injection Hk' as <-. lia.
  - unfold compareBranches. destruct (Z.eqb_spec (score a) (score c)); [congruence|].
    cbn. lia.
Qed.

Ltac refute_sublist :=
  repeat first
    [ progress simplify_eq
    | match goal with
      | H : _ `sublist_of` [] |- _ => apply sublist_nil_r in H
      | H : _ `sublist_of` (_ :: _) |- _ =>
          apply sublist_cons_r in H as [H | (? & ? & H)]
      end ].

(** C3 as stated fails: no order of these three branches of equal score
    meets the three conditions at once, so the ranked list does not. *)
Lemma rank_ties_counterexample :
  rankRouteBranches [tie_a; tie_b; tie_c] = [tie_a; tie_b; tie_c]
  /\ ~ ranked_as_claimed [tie_a; tie_b; tie_c] (rankRouteBranches [tie_a; tie_b; tie_c])
  /\ (forall output, output ≡ₚ [tie_a; tie_b; tie_c] ->
        ~ ranked_as_claimed [tie_a; tie_b; tie_c] output).
Proof.
  assert (forall output, output ≡ₚ [tie_a; tie_b; tie_c] ->
            ~ ranked_as_claimed [tie_a; tie_b; tie_c] output) as Hall.
  { intros output Hp (_ & Hsib & Hstable).
    assert (before tie_a tie_b output) as Hab.
    { apply Hstable; [reflexivity| |].
      - intros [Hl _]. discriminate.
      - unfold before. apply sublist_skip, sublist_skip, sublist_nil_l. }
    assert (before tie_b tie_c output) as Hbc.
    { apply Hstable; [reflexivity| |].
      - intros [Hl _]. discriminate.
      - unfold before. apply sublist_cons, sublist_skip, sublist_skip, sublist_nil_l. }
    assert (before tie_c tie_a output) as Hca.
    { apply (Hsib tie_c tie_a 0%nat 1%nat); try reflexivity; try lia.
      - rewrite Hp, !elem_of_cons. auto.
      - rewrite Hp, !elem_of_cons. auto.
      - split; reflexivity. }
    symmetry in Hp. apply permutations_Permutation in Hp.
    unfold before in *. vm_compute in Hp.
    repeat (apply elem_of_cons in Hp as [-> | Hp]); [..|inversion Hp];
      unfold tie_a, tie_b, tie_c in *; refute_sublist. }
  split; [reflexivity|]. split; [|exact Hall].
  apply Hall. apply Array_sort_perm.
Qed.

(** C3, amended.  On a branch list on which the comparison of
    [rankRouteBranches] is transitive -- every list whose chains have one
    index, as [flattenRoutes] builds them, is such a list -- the ranked list
    is a rearrangement of the input in which scores go down, siblings of
    equal score stand in the order of their last index, branches of equal
    score that are not siblings keep their input order, and so do any two
    branches the comparison holds equal. *)
Theorem rankRouteBranches_ranked (branches : list RouteBranch) :
  cmp_trans_on compareBranches branches ->
  rankRouteBranches branches ≡ₚ branches
  /\ ranked_as_claimed branches (rankRouteBranches branches)
  /\ (forall x y, compareBranches x y = 0%Z ->
        before x y branches -> before x y (rankRouteBranches branches)).
Proof.
  intros Htr.
  pose proof (Array_sort_perm compareBranches branches) as Hp.
  pose proof (Array_sort_sorted compareBranches compareBranches_anti branches Htr) as Hs.
  fold (rankRouteBranches branches) in Hp, Hs.
  assert (forall x y, compareBranches x y = 0%Z ->
            before x y branches -> before x y (rankRouteBranches branches)) as Hst.
  { intros x y Hxy Hb. destruct (before_elem _ _ _ Hb) as [Hx Hy].
    assert (compareBranches x x = 0%Z) as Hxx.
    { pose proof (compareBranches_anti x x). lia. }
    assert (cmp_trans_on compareBranches (x :: branches)) as Htr'.
    { intros a b c Ha Hb' Hc. apply Htr;
        rewrite elem_of_cons in *; intuition congruence. }
    pose proof (Array_sort_stable compareBranches compareBranches_anti x branches Htr')
      as Hf.
    fold (rankRouteBranches branches) in Hf.
    apply (before_filter (fun y => compareBranches x y = 0%Z)) in Hb; auto.
    rewrite <- Hf in Hb. unfold before in *.
    etransitivity; [exact Hb | apply sublist_filter]. }
  split; [exact Hp|]. split; [|exact Hst].
  split; [|split].
  - intros x y Hb. apply compareBranches_scores.
    apply (before_sorted _ _ _ _ Hs Hb).
  - intros x y i j Hx Hy He Hsib Hi Hj Hij.
    assert (x <> y) as Hne by (intros ->; rewrite Hi in Hj; injection Hj; lia).
    destruct (before_total x y _ Hx Hy Hne) as [H|H]; [exact H|].
    apply (before_sorted _ _ _ _ Hs) in H.
    rewrite (compareBranches_tie y x) in H by congruence.
    rewrite (compareIndexes_siblings _ _ (sibling_chains_sym _ _ Hsib)) in H.
    rewrite Hi, Hj in H. lia.
  - intros x y He Hn Hb. apply Hst; [|exact Hb].
    rewrite (compareBranches_tie x y He). apply compareIndexes_strangers, Hn.
Qed.

Lemma rankRouteBranches_ranked_witness :
  ranked_as_claimed
    [MkRouteBranch s!"/users/:id" 17 [MkRouteMeta s!"/users/:id" false 0];
     MkRouteBranch s!"/users/new" 24 [MkRouteMeta s!"/users/new" false 1]]
    (rankRouteBranches
       [MkRouteBranch s!"/users/:id" 17 [MkRouteMeta s!"/users/:id" false 0];
        MkRouteBranch s!"/users/new" 24 [MkRouteMeta s!"/users/new" false 1]]).
Proof.
  apply rankRouteBranches_ranked.
  intros a b c Ha Hb Hc;
    repeat (apply elem_of_cons in Ha as [-> | Ha]); try (inversion Ha; fail);
    repeat (apply elem_of_cons in Hb as [-> | Hb]); try (inversion Hb; fail);
    repeat (apply elem_of_cons in Hc as [-> | Hc]); try (inversion Hc; fail);
    vm_compute; congruence.
Defined.

(** ** The matcher on quantified characters *)

Lemma or_else_none (a : option mstate) : or_else a None = a.
Proof. destruct a; reflexivity. Qed.

Lemma star_loop_greedy (p : ascii -> bool) (k : cont) (rest : str) :
  forall fuel pre caps,
  (length rest < fuel)%nat ->
  star_loop (step_char p) k fuel (MState pre rest caps) = greedy p k pre rest caps.
Proof.
  induction rest as [|x rest IH]; intros fuel pre caps Hf;
    (destruct fuel as [|fuel]; [cbn in Hf; lia|]); cbn [star_loop greedy].
  - reflexivity.
  - unfold step_char at 1. cbn [m_rest m_pre m_caps].
    destruct (p x); [|reflexivity].
    unfold progress. cbn [m_rest length].
    destruct (Nat.ltb_spec (length rest) (S (length rest))); [|lia].
    rewrite IH by (cbn in Hf; lia). reflexivity.
Qed.

(** Before the end of the text the loop has to take everything. *)
Lemma greedy_eol (p : ascii -> bool) (k : cont) (rest : str) :
  forall pre caps,
  greedy p (fun st => match m_rest st with [] => k st | _ :: _ => None end)
    pre rest caps
  = if forallb p rest then k (MState (rev rest ++ pre) [] caps) else None.
Proof.
  induction rest as [|x rest IH]; intros pre caps; cbn [greedy forallb].
  - reflexivity.
  - destruct (p x); cbn [andb m_rest]; [|reflexivity].
    rewrite or_else_none, IH. cbn [rev]. rewrite <- app_assoc. reflexivity.
Qed.

(** If the continuation succeeds after the longest run, that is the
    result. *)
Lemma greedy_longest (p : ascii -> bool) (k : cont) (run rest : str) :
  forall pre caps r,
  forallb p run = true ->
  match rest with x :: _ => p x = false | [] => True end ->
  k (MState (rev run ++ pre) rest caps) = Some r ->
  greedy p k pre (run ++ rest) caps = Some r.
Proof.
  induction run as [|x run IH]; intros pre caps r Hrun Hstop Hk.
  - cbn in *. destruct rest as [|y rest]; cbn [greedy]; [exact Hk|].
    rewrite Hstop. exact Hk.
  - cbn in Hrun. apply andb_true_iff in Hrun as [Hx Hrun].
    cbn [app greedy]. rewrite Hx.
    rewrite (IH (x :: pre) caps r Hrun Hstop); [reflexivity|].
    cbn [rev] in Hk. rewrite <- app_assoc in Hk. exact Hk.
Qed.

Lemma set_matches_word (x : ascii) :
  set_matches false false word_items x = is_word x.
Proof. destruct x as [[] [] [] [] [] [] [] []]; reflexivity. Qed.

Lemma char_matches_exact (c x : ascii) : char_matches false c x = Ascii.eqb c x.
Proof. reflexivity. Qed.

(** A pattern that starts with [^] matches at the start of the text only. *)
Lemma match_from_bol (re : RegExp) (r : regex) (s : str) :
  re_ast re = RSeq RBol r ->
  match_from re [] s = match_here re [] s.
Proof.
  intros Hre.
  assert (forall rest pre, pre <> [] -> match_from re pre rest = None) as Hnone.
  { induction rest as [|c rest IH]; intros pre Hpre; cbn [match_from];
      unfold match_here; rewrite Hre; cbn [rmatch m_pre];
      (destruct pre; [congruence|]); [reflexivity|].
    apply IH. discriminate. }
  destruct s as [|c s]; cbn [match_from];
    destruct (match_here re [] _); try reflexivity.
  apply Hnone. discriminate.
Qed.

Lemma greedy_ext (p : ascii -> bool) (k1 k2 : cont) (rest : str) :
  (forall st, k1 st = k2 st) ->
  forall pre caps, greedy p k1 pre rest caps = greedy p k2 pre rest caps.
Proof.
  intros Hk. induction rest as [|x rest IH]; intros pre caps; cbn [greedy].
  - apply Hk.
  - rewrite IH, Hk. reflexivity.
Qed.

Lemma rmatch_seq (ic : bool) (a b : regex) (k : cont) (st : mstate) :
  rmatch ic (RSeq a b) k st = rmatch ic a (rmatch ic b k) st.
Proof. reflexivity. Qed.

Lemma rmatch_empty (ic : bool) (k : cont) (st : mstate) : rmatch ic REmpty k st = k st.
Proof. reflexivity. Qed.

Lemma rmatch_bol (ic : bool) (k : cont) (st : mstate) :
  rmatch ic RBol k st = match m_pre st with [] => k st | _ :: _ => None end.
Proof. reflexivity. Qed.

Lemma rmatch_eol (ic : bool) (k : cont) (st : mstate) :
  rmatch ic REol k st = match m_rest st with [] => k st | _ :: _ => None end.
Proof. reflexivity. Qed.

Lemma rmatch_alt (ic : bool) (a b : regex) (k : cont) (st : mstate) :
  rmatch ic (RAlt a b) k st = or_else (rmatch ic a k st) (rmatch ic b k st).
Proof. reflexivity. Qed.

Lemma rmatch_group (ic : bool) (n : nat) (a : regex) (k : cont) (st : mstate) :
  rmatch ic (RGroup n a) k st = rmatch ic a (fun st' => k (set_cap n st st')) st.
Proof. reflexivity. Qed.

Lemma rmatch_atom (ic : bool) (a : regex) (p : ascii -> bool) (k : cont) (st : mstate) :
  atom_test ic a = Some p -> rmatch ic a k st = step_char p k st.
Proof. destruct a; intros [= <-]; reflexivity. Qed.

Lemma rmatch_star_atom (ic : bool) (a : regex) (p : ascii -> bool) (k : cont)
    (st : mstate) :
  atom_test ic a = Some p ->
  rmatch ic (RStar a) k st = greedy p k (m_pre st) (m_rest st) (m_caps st).
Proof.
  intros Ha.
  change (rmatch ic (RStar a) k st)
    with (star_loop (rmatch ic a) k (S (length (m_rest st))) st).
  destruct st as [pre rest caps].
  replace (rmatch ic a) with (step_char p)
    by (destruct a; try discriminate Ha; injection Ha as <-; reflexivity).
  apply star_loop_greedy. cbn. lia.
Qed.

Lemma rmatch_plus_atom (ic : bool) (a : regex) (p : ascii -> bool) (k : cont)
    (st : mstate) :
  atom_test ic a = Some p ->
  rmatch ic (RPlus a) k st
  = step_char p (fun st' => greedy p k (m_pre st') (m_rest st') (m_caps st')) st.
Proof.
  intros Ha.
  change (rmatch ic (RPlus a) k st)
    with (rmatch ic a
            (fun st' => star_loop (rmatch ic a) k (S (length (m_rest st'))) st') st).
  rewrite (rmatch_atom ic a p _ st Ha).
  unfold step_char. destruct (m_rest st) as [|x rest]; [reflexivity|].
  destruct (p x); [|reflexivity].
  replace (rmatch ic a) with (step_char p)
    by (destruct a; try discriminate Ha; injection Ha as <-; reflexivity).
  apply star_loop_greedy. cbn. lia.
Qed.

Lemma greedy_eol_re (ic : bool) (p : ascii -> bool) (k : cont) (rest : str) :
  forall pre caps,
  greedy p (rmatch ic (RSeq REol REmpty) k) pre rest caps
  = if forallb p rest then k (MState (rev rest ++ pre) [] caps) else None.
Proof.
  intros pre caps.
  rewrite (greedy_ext p _
             (fun st => match m_rest st with [] => k st | _ :: _ => None end))
    by reflexivity.
  apply greedy_eol.
Qed.

Lemma forallb_set_word (w : str) :
  forallb (set_matches false false word_items) w = forallb is_word w.
Proof. induction w; cbn [forallb]; [|rewrite set_matches_word, IHw]; reflexivity. Qed.

Lemma paramRe_test (s : str) : RegExp_test paramRe s = is_param_form s.
Proof.
  unfold RegExp_test, RegExp_exec.
  rewrite (match_from_bol paramRe _ s eq_refl).
  unfold match_here.
  change (re_ast paramRe)
    with (RSeq RBol (RSeq (RChar ":") (RSeq (RPlus (RSet false word_items))
                                          (RSeq REol REmpty)))).
  change (re_ignoreCase paramRe) with false.
  rewrite rmatch_seq, rmatch_bol. cbn [m_pre].
  rewrite rmatch_seq. erewrite rmatch_atom by reflexivity.
  destruct s as [|c w]; [reflexivity|].
  unfold step_char at 1. cbn [m_rest m_pre m_caps is_param_form].
  rewrite char_matches_exact, (Ascii.eqb_sym c).
  destruct (Ascii.eqb ":" c); [|reflexivity].
  rewrite rmatch_seq. erewrite rmatch_plus_atom by reflexivity.
  destruct w as [|x w]; [reflexivity|].
  unfold step_char at 1. cbn [m_rest m_pre m_caps forallb str_eqb negb andb].
  rewrite set_matches_word. destruct (is_word x); [|reflexivity].
  rewrite greedy_eol_re, forallb_set_word.
  destruct (forallb is_word w); reflexivity.
Qed.

(** ** [computeScore] *)

Lemma isSplat_eq (s : str) : isSplat s = str_eqb s s!"*".
Proof. reflexivity. Qed.

Lemma fold_left_sum (f : Z -> str -> Z) (v : str -> Z) (l : list str) (init : Z) :
  (forall score segment, f score segment = (score + v segment)%Z) ->
  fold_left f l init = (init + sumZ (map v l))%Z.
Proof.
  intros Hf. revert init.
  induction l as [|s l IH]; intros init; cbn [fold_left map sumZ foldr].
  - lia.
  - rewrite IH, Hf. fold (sumZ (map v l)). lia.
Qed.

Lemma segment_value_test (s : str) :
  (if RegExp_test paramRe s then dynamicSegmentValue
   else if str_eqb s [] then emptySegmentValue else staticSegmentValue)
  = segment_value s.
Proof. rewrite paramRe_test. reflexivity. Qed.

Lemma computeScore_formula (path : str) (index : bool) :
  computeScore path index = score_formula path index.
Proof.
  unfold computeScore, score_formula.
  rewrite (fold_left_sum _ segment_value)
    by (intros; rewrite segment_value_test; reflexivity).
  change (existsb isSplat) with (existsb (fun s => str_eqb s s!"*")).
  change (fun s => negb (isSplat s)) with (fun s => negb (str_eqb s s!"*")).
  unfold splatPenalty, indexRouteValue.
  destruct (existsb _ _), index; lia.
Qed.

Lemma split_nonempty (sep : ascii) (s : str) : split sep s <> [].
Proof.
  destruct s as [|c s]; cbn; [discriminate|].
  destruct (Ascii.eqb c sep); [discriminate|]. destruct (split sep s); discriminate.
Qed.

Lemma split_no_sep (sep : ascii) (s : str) : sep ∉ s -> split sep s = [s].
Proof.
  induction s as [|c s IH]; cbn; [reflexivity|].
  rewrite not_elem_of_cons. intros [Hne Hs].
  destruct (Ascii.eqb_spec c sep); [congruence|]. rewrite (IH Hs). reflexivity.
Qed.

Lemma split_app_sep (sep : ascii) (p s : str) :
  split sep (p ++ sep :: s) = split sep p ++ split sep s.
Proof.
  induction p as [|c p IH]; cbn [app split].
  - rewrite Ascii.eqb_refl. reflexivity.
  - destruct (Ascii.eqb c sep); [rewrite IH; reflexivity|].
    rewrite IH. pose proof (split_nonempty sep p) as Hne.
    destruct (split sep p); [congruence | reflexivity].
Qed.

Lemma sumZ_app (a b : list Z) : sumZ (a ++ b) = (sumZ a + sumZ b)%Z.
Proof. induction a as [|x a IH]; cbn; [reflexivity|]. fold (sumZ (a ++ b)) (sumZ a). lia. Qed.

Lemma is_param_form_plain (s : str) :
  is_param_form s = true -> ("/" ∉ s) /\ s <> s!"*".
Proof.
  destruct s as [|c name]; cbn; [discriminate|].
  rewrite !andb_true_iff. intros [[Hc _] Hw]. apply Ascii.eqb_eq in Hc as ->.
  split; [|discriminate].
  rewrite not_elem_of_cons. split; [discriminate|].
  intros Hin. rewrite forallb_forall in Hw.
  apply list_elem_of_In, Hw in Hin. discriminate.
Qed.

(** The score after one more segment: one for the segment and its value. *)
Lemma computeScore_append (path segment : str) (index : bool) :
  "/" ∉ segment -> segment <> s!"*" ->
  computeScore (path ++ s!"/" ++ segment) index
  = (computeScore path index + 1 + segment_value segment)%Z.
Proof.
  intros Hsep Hstar. rewrite !computeScore_formula. unfold score_formula.
  change (path ++ s!"/" ++ segment) with (path ++ "/" :: segment).
  rewrite split_app_sep, (split_no_sep _ _ Hsep).
  rewrite length_app, existsb_app, List.filter_app, map_app, sumZ_app.
  apply str_eqb_neq in Hstar. cbn [existsb List.filter length]. rewrite Hstar.
  cbn [negb map sumZ foldr]. rewrite orb_false_r.
  destruct (existsb _ _), index; lia.
Qed.

(** C1 as stated fails in its consequence: one more static segment raises
    the score by 11, not 10, and one more dynamic segment by 4, not 3. *)
Lemma computeScore_append_counterexample :
  computeScore (s!"/a" ++ s!"/" ++ s!"b") false
  <> (computeScore s!"/a" false + 10)%Z
  /\ computeScore (s!"/a" ++ s!"/" ++ s!":id") false
     <> (computeScore s!"/a" false + 3)%Z.
Proof. split; vm_compute; discriminate. Qed.

(** C1, amended.  [computeScore] is the number of segments, minus 2 if a
    segment is [*], plus 2 for an index route, plus for every other segment
    3 if it has the form [:name], 1 if it is empty and 10 otherwise.
    Appending a static segment raises the score by 11 (its value and one
    for the segment), appending a dynamic segment by 4, and the index flag
    by 2. *)
Theorem computeScore_spec :
  (forall path index, computeScore path index = score_formula path index)
  /\ (forall path index segment,
        "/" ∉ segment -> segment <> [] -> segment <> s!"*" ->
        is_param_form segment = false ->
        computeScore (path ++ s!"/" ++ segment) index
        = (computeScore path index + 11)%Z)
  /\ (forall path index segment,
        is_param_form segment = true ->
        computeScore (path ++ s!"/" ++ segment) index
        = (computeScore path index + 4)%Z)
  /\ (forall path, computeScore path true = (computeScore path false + 2)%Z).
Proof.
  split; [apply computeScore_formula|]. split; [|split].
  - intros path index segment Hsep Hne Hstar Hform.
    rewrite (computeScore_append _ _ _ Hsep Hstar). unfold segment_value.
    rewrite Hform. apply str_eqb_neq in Hne. rewrite Hne. lia.
  - intros path index segment Hform.
    destruct (is_param_form_plain _ Hform) as [Hsep Hstar].
    rewrite (computeScore_append _ _ _ Hsep Hstar). unfold segment_value.
    rewrite Hform. lia.
  - intros path. rewrite !computeScore_formula. unfold score_formula. lia.
Qed.

Lemma computeScore_spec_witness :
  computeScore (s!"/users" ++ s!"/" ++ s!"new") false
  = (computeScore s!"/users" false + 11)%Z
  /\ computeScore (s!"/users" ++ s!"/" ++ s!":id") false
     = (computeScore s!"/users" false + 4)%Z.
Proof.
  destruct computeScore_spec as (_ & Hstatic & Hdynamic & _). split.
  - apply Hstatic; [|discriminate|discriminate|reflexivity].
    intros H. repeat (apply elem_of_cons in H as [H|H]; [discriminate|]). inversion H.
  - apply Hdynamic. reflexivity.
Defined.

(** ** The precedence example *)

(** C2 as stated fails in the scores it gives: the static branch scores 24
    and the dynamic branch 17. *)
Lemma users_scores_counterexample :
  flattenRoutes users_routes [] [] [] = Return [branch_user_id; branch_user_new]
  /\ score branch_user_new <> 20%Z
  /\ score branch_user_id <> 13%Z.
Proof. split; [vm_compute; reflexivity|]. split; discriminate. Qed.

(** C2, amended.  On the routes [/users/:id] and [/users/new] and the
    pathname ["/users/new"], [matchRoutes] returns the match of the static
    route, declared second: its branch scores 24 and the dynamic branch 17,
    so the static branch is ranked and tried first, although the dynamic
    branch matches the pathname as well. *)
Theorem matchRoutes_static_first :
  matchRoutes users_routes (ToString s!"/users/new") s!"/"
  = Return (Some [MkRouteMatch ∅ s!"/users/new" s!"/users/new" (Some route_user_new)])
  /\ flattenRoutes users_routes [] [] [] = Return [branch_user_id; branch_user_new]
  /\ score branch_user_new = 24%Z /\ score branch_user_id = 17%Z
  /\ rankRouteBranches [branch_user_id; branch_user_new]
     = [branch_user_new; branch_user_id]
  /\ matchRouteBranch branch_user_id users_routes s!"/users/new"
     = Return (Some [MkRouteMatch {[ s!"id" := s!"new" ]} s!"/users/new" s!"/users/new"
                       (Some route_user_id)]).
Proof. repeat split; vm_compute; reflexivity. Qed.

Lemma take_drop_while (p : ascii -> bool) (s : str) :
  take_while p s ++ drop_while p s = s.
Proof.
  induction s as [|x s IH]; cbn; [reflexivity|].
  destruct (p x); cbn; [rewrite IH|]; reflexivity.
Qed.

Lemma drop_while_head (p : ascii -> bool) (s : str) (x : ascii) (r : str) :
  drop_while p s = x :: r -> p x = false.
Proof.
  induction s as [|y s IH]; cbn; [discriminate|].
  destruct (p y) eqn:E; [exact IH|]. intros [= <- _]. exact E.
Qed.

(** When the continuation refuses every position where one more character
    could be taken, the loop takes the longest run. *)
Lemma greedy_commit (p : ascii -> bool) (k : cont) (rest : str) :
  (forall pre' x r caps', p x = true -> k (MState pre' (x :: r) caps') = None) ->
  forall pre caps,
  greedy p k pre rest caps
  = k (MState (rev (take_while p rest) ++ pre) (drop_while p rest) caps).
Proof.
  intros Hk. induction rest as [|x rest IH]; intros pre caps;
    cbn [greedy take_while drop_while]; [reflexivity|].
  destruct (p x) eqn:E; [|reflexivity].
  rewrite (Hk pre x rest caps E), or_else_none, IH.
  cbn [rev]. rewrite <- app_assoc. reflexivity.
Qed.

Lemma rmatch_opt (ic : bool) (a : regex) (k : cont) (st : mstate) :
  rmatch ic (ROpt a) k st
  = or_else (rmatch ic a (fun st' => if progress st st' then k st' else None) st) (k st).
Proof. reflexivity. Qed.

(** *** Replacing the first match *)

Lemma match_here_index (re : RegExp) (pre rest : str) (m : match_result) :
  match_here re pre rest = Some m -> mr_index m = length pre.
Proof.
  unfold match_here. destruct (rmatch _ _ _ _); [|discriminate].
  intros [= <-]. reflexivity.
Qed.

Lemma match_from_index (re : RegExp) (rest : str) :
  forall pre m, match_from re pre rest = Some m -> (length pre <= mr_index m)%nat.
Proof.
  induction rest as [|c rest IH]; intros pre m; cbn [match_from];
    destruct (match_here re pre _) eqn:E; try discriminate.
  - intros [= <-]. rewrite (match_here_index _ _ _ _ E). lia.
  - intros [= <-]. rewrite (match_here_index _ _ _ _ E). lia.
  - intros H. apply IH in H. cbn in H. lia.
Qed.

Lemma flat_map_keep (f : match_result -> str) (s : str) :
  flat_map (fun p => match p with Keep c => [c] | Hit m => f m end) (map Keep s) = s.
Proof. induction s as [|c s IH]; cbn; [|rewrite IH]; reflexivity. Qed.

Lemma replace_first_from (re : RegExp) (f : match_result -> str) (rest : str) :
  re_global re = false ->
  forall pre,
  flat_map (fun p => match p with Keep c => [c] | Hit m => f m end)
    (pieces_from re 0 pre rest)
  = match match_from re pre rest with
    | Some m =>
        take (mr_index m - length pre) rest ++ f m
        ++ drop (mr_index m - length pre + length (mr_text m)) rest
    | None => rest
    end.
Proof.
  intros Hg. induction rest as [|c rest IH]; intros pre;
    cbn [pieces_from match_from]; destruct (match_here re pre _) as [m|] eqn:E.
  - cbn [flat_map]. rewrite take_nil, drop_nil, !app_nil_r. reflexivity.
  - reflexivity.
  - rewrite Hg, (match_here_index _ _ _ _ E), Nat.sub_diag.
    cbn [flat_map take app Nat.add]. rewrite flat_map_keep. reflexivity.
  - cbn [flat_map app]. rewrite IH.
    destruct (match_from re (c :: pre) rest) as [m|] eqn:E'; [|reflexivity].
    apply match_from_index in E'. cbn [length] in E'.
    replace (mr_index m - length pre)%nat with (S (mr_index m - S (length pre))) by lia.
    reflexivity.
Qed.

Lemma replace_with_first (re : RegExp) (f : match_result -> str) (s : str) :
  re_global re = false ->
  replace_with re f s
  = match RegExp_exec re s with
    | Some m => take (mr_index m) s ++ f m ++ drop (mr_index m + length (mr_text m)) s
    | None => s
    end.
Proof.
  intros Hg. unfold replace_with, pieces, RegExp_exec.
  rewrite (replace_first_from re f s Hg []).
  destruct (match_from re [] s); [|reflexivity].
  cbn [length]. rewrite Nat.sub_0_r. reflexivity.
Qed.

(** *** The trailing [/] and [*] of a pattern *)

Lemma trailing_cont (st : mstate) :
  rmatch false (RSeq (ROpt (RChar "*")) (RSeq REol REmpty)) Some st
  = if str_eqb (m_rest st) [] then Some st
    else if str_eqb (m_rest st) s!"*"
         then Some (MState ("*" :: m_pre st) [] (m_caps st))
         else None.
Proof.
  rewrite rmatch_seq, rmatch_opt. erewrite rmatch_atom by reflexivity.
  unfold step_char. destruct st as [pre [|x r] caps]; cbn [m_rest m_pre m_caps].
  - reflexivity.
  - rewrite char_matches_exact. cbn [str_eqb list_ascii_of_string].
    rewrite (Ascii.eqb_sym x).
    destruct (Ascii.eqb_spec "*" x) as [<-|]; [|reflexivity].
    unfold progress. cbn [m_rest length].
    destruct (Nat.ltb_spec (length r) (S (length r))); [|lia].
    destruct r; reflexivity.
Qed.

Lemma match_here_trailing (pre rest : str) :
  match_here re_trailing pre rest
  = if trailing_ok rest then Some (MatchResult (length pre) rest []) else None.
Proof.
  unfold match_here.
  change (re_ast re_trailing)
    with (RSeq (RStar (RChar "/")) (RSeq (ROpt (RChar "*")) (RSeq REol REmpty))).
  change (re_ignoreCase re_trailing) with false.
  rewrite rmatch_seq. erewrite rmatch_star_atom by reflexivity.
  cbn [m_pre m_rest m_caps].
  rewrite greedy_commit.
  2:{ intros pre' x r caps' Hx. rewrite trailing_cont.
      cbn [m_rest str_eqb list_ascii_of_string].
      rewrite char_matches_exact in Hx. apply Ascii.eqb_eq in Hx as <-.
      reflexivity. }
  rewrite trailing_cont. cbn [m_rest m_pre m_caps]. unfold trailing_ok.
  change (char_matches false "/") with is_slash.
  destruct (str_eqb (drop_while is_slash rest) []) eqn:E1; cbn [orb].
  - apply str_eqb_eq in E1. rewrite E1. cbn [length].
    rewrite Nat.sub_0_r, firstn_all. reflexivity.
  - destruct (str_eqb (drop_while is_slash rest) s!"*"); [|reflexivity].
    cbn [length m_rest]. rewrite Nat.sub_0_r, firstn_all. reflexivity.
Qed.

Lemma drop_while_all (p : ascii -> bool) (u : str) :
  drop_while p u = [] -> forallb p u = true.
Proof.
  induction u as [|x u IH]; cbn; [reflexivity|].
  destruct (p x); [exact IH | discriminate].
Qed.

Lemma drop_while_app_stop (p : ascii -> bool) (u t : str) :
  drop_while p u <> [] -> drop_while p (u ++ t) = drop_while p u ++ t.
Proof.
  induction u as [|x u IH]; cbn; [congruence|].
  destruct (p x); [exact IH | reflexivity].
Qed.

Lemma last_forallb (p : ascii -> bool) (u : str) (x : ascii) :
  forallb p u = true -> last u = Some x -> p x = true.
Proof.
  intros Hall Hlast. rewrite forallb_forall in Hall. apply Hall.
  apply list_elem_of_In. rewrite last_Some in Hlast. destruct Hlast as [l' ->].
  apply elem_of_app. right. apply list_elem_of_singleton. reflexivity.
Qed.

Lemma trailing_ok_inside (u t : str) :
  u <> [] -> last u <> Some "/" -> t <> [] -> trailing_ok (u ++ t) = false.
Proof.
  intros Hu Hlast Ht. unfold trailing_ok.
  assert (drop_while is_slash u <> []) as Hd.
  { intros Hd. apply drop_while_all in Hd.
    destruct (last u) as [x|] eqn:E.
    - pose proof (last_forallb _ _ _ Hd E) as Hx. unfold is_slash in Hx.
      apply Ascii.eqb_eq in Hx as <-. congruence.
    - apply last_None in E. congruence. }
  rewrite (drop_while_app_stop _ _ _ Hd).
  destruct (drop_while is_slash u) as [|x d]; [congruence|].
  destruct t as [|y t]; [congruence|].
  cbn [app str_eqb list_ascii_of_string]. destruct d; cbn; rewrite ?andb_false_r; reflexivity.
Qed.

Lemma match_from_trailing (q t : str) :
  last q <> Some "/" -> t <> [] -> trailing_ok t = true ->
  forall pre,
  match_from re_trailing pre (q ++ t)
  = Some (MatchResult (length pre + length q) t []).
Proof.
  intros Hlast Ht Hok. induction q as [|c q IH]; intros pre.
  - cbn [app]. destruct t as [|y t]; [congruence|]. cbn [match_from].
    rewrite match_here_trailing, Hok. cbn [length]. rewrite Nat.add_0_r. reflexivity.
  - cbn [app match_from]. change (c :: q ++ t) with ((c :: q) ++ t).
    rewrite match_here_trailing, trailing_ok_inside by (auto; discriminate).
    cbn [app]. rewrite IH.
    + cbn [length]. do 2 f_equal. lia.
    + destruct q as [|d q]; [discriminate|]. exact Hlast.
Qed.

Lemma replace_trailing (q t : str) :
  last q <> Some "/" -> t <> [] -> trailing_ok t = true ->
  replace re_trailing "" (q ++ t) = q.
Proof.
  intros Hlast Ht Hok. unfold replace.
  rewrite replace_with_first by reflexivity. unfold RegExp_exec.
  rewrite (match_from_trailing q t Hlast Ht Hok []).
  cbn [mr_index mr_text length Nat.add expand list_ascii_of_string app].
  rewrite take_app_length, <- length_app, drop_all. apply app_nil_r.
Qed.

Lemma endsWith_app (q t : str) : endsWith (q ++ t) t = true.
Proof.
  unfold endsWith. apply startsWith_prefix. rewrite rev_app_distr.
  apply prefix_app_r. reflexivity.
Qed.

Lemma endsWith_app2 (q t1 t2 : str) : endsWith (q ++ t1 ++ t2) t2 = true.
Proof. rewrite app_assoc. apply endsWith_app. Qed.

Lemma endsWith_last (s : str) (c : ascii) :
  endsWith s [c] = true <-> last s = Some c.
Proof.
  unfold endsWith. rewrite startsWith_prefix. cbn [rev app].
  destruct s as [|x s] using rev_ind.
  - cbn. split; [intros H; apply prefix_nil_inv in H; discriminate | discriminate].
  - rewrite rev_app_distr, last_snoc. cbn [rev app]. split.
    + intros H. apply prefix_cons_inv_1 in H. congruence.
    + intros [= ->]. apply prefix_cons, prefix_nil.
Qed.

Lemma endsWith_slash_star (q : str) :
  last q <> Some "/" -> endsWith (q ++ s!"*") s!"/*" = false.
Proof.
  intros Hlast. destruct (endsWith (q ++ s!"*") s!"/*") eqn:E; [|reflexivity].
  exfalso. apply Hlast. unfold endsWith in E. apply startsWith_prefix in E.
  rewrite rev_app_distr in E. cbn [list_ascii_of_string rev app] in E.
  apply prefix_cons_inv_2 in E.
  apply endsWith_last. unfold endsWith. apply startsWith_prefix. exact E.
Qed.

Lemma star_pattern_shape (q : str) :
  q <> [] -> last q <> Some "/" ->
  str_eqb (q ++ s!"*") s!"*" = false /\ str_eqb (q ++ s!"*") s!"/*" = false
  /\ str_eqb (q ++ s!"/*") s!"*" = false /\ str_eqb (q ++ s!"/*") s!"/*" = false.
Proof.
  intros Hq Hlast.
  assert (forall t u : str, q ++ t = u -> (length q + length t = length u)%nat) as Hlen.
  { intros t u <-. rewrite length_app. reflexivity. }
  repeat split; apply str_eqb_neq; intros H; pose proof (Hlen _ _ H) as Hl;
    cbn in Hl; destruct q as [|x [|y q]]; cbn in Hl; try congruence; try lia.
  injection H as ->. apply Hlast. reflexivity.
Qed.

Lemma regexpSource_star (q : str) (end_ : bool) :
  q <> [] -> last q <> Some "/" ->
  regexpSource (q ++ s!"*") end_ = regexpSource (q ++ s!"/*") end_.
Proof.
  intros Hq Hlast. unfold regexpSource.
  destruct (star_pattern_shape q Hq Hlast) as (-> & -> & -> & ->).
  rewrite (replace_trailing q s!"*") by (auto; discriminate).
  rewrite (replace_trailing q s!"/*") by (auto; discriminate).
  rewrite (endsWith_app q s!"*").
  change (q ++ s!"/*") with (q ++ s!"/" ++ s!"*").
  rewrite (endsWith_app2 q s!"/" s!"*"). reflexivity.
Qed.

Lemma paramNames_of_star (q : str) :
  q <> [] -> last q <> Some "/" ->
  paramNames_of (q ++ s!"*") = paramNames_of (q ++ s!"/*").
Proof.
  intros Hq Hlast. unfold paramNames_of.
  rewrite (replace_trailing q s!"*") by (auto; discriminate).
  rewrite (replace_trailing q s!"/*") by (auto; discriminate).
  rewrite (endsWith_app q s!"*").
  change (q ++ s!"/*") with (q ++ s!"/" ++ s!"*").
  rewrite (endsWith_app2 q s!"/" s!"*"). reflexivity.
Qed.

Lemma matchPath_same_compile (p1 p2 : str) (cs e : option bool) (pathname : str) :
  snd (compilePath p1 cs e) = snd (compilePath p2 cs e) ->
  match_outcome (matchPath (PatObject (MkPathPattern p1 cs e)) pathname)
  = match_outcome (matchPath (PatObject (MkPathPattern p2 cs e)) pathname).
Proof.
  intros H. unfold matchPath. cbn [pattern_of pat_path pat_caseSensitive pat_end].
  rewrite H. destruct (snd (compilePath p2 cs e)) as [[matcher names]|msg]; [|reflexivity].
  cbn. destruct (RegExp_exec matcher pathname); [|reflexivity].
  destruct (fold_left _ _ _). reflexivity.
Qed.

(** C8.  For a pattern that ends in [*] after a character other than [/]
    (so not the pattern [*] itself), [compilePath] builds the same matcher
    and the same list of parameter names as for the pattern with a [/]
    inserted before the final [*]: [foo*] compiles as [foo/*].  The one
    difference is the warning, written for the first spelling and not for
    the second; [matchPath] gives the same parameters, pathname and
    pathnameBase for both, on every pathname. *)
Theorem compilePath_star_slash (q : str) (caseSensitive end_ : option bool) :
  q <> [] -> last q <> Some "/" ->
  snd (compilePath (q ++ s!"*") caseSensitive end_)
  = snd (compilePath (q ++ s!"/*") caseSensitive end_)
  /\ (exists message, fst (compilePath (q ++ s!"*") caseSensitive end_) = [message])
  /\ fst (compilePath (q ++ s!"/*") caseSensitive end_) = []
  /\ (forall pathname,
        match_outcome
          (matchPath (PatObject (MkPathPattern (q ++ s!"*") caseSensitive end_)) pathname)
        = match_outcome
            (matchPath (PatObject (MkPathPattern (q ++ s!"/*") caseSensitive end_))
               pathname))
  /\ (forall pathname,
        match_outcome (matchPath (PatString (q ++ s!"*")) pathname)
        = match_outcome (matchPath (PatString (q ++ s!"/*")) pathname))
  /\ compilePath s!"foo*" caseSensitive end_
     = (fst (compilePath s!"foo*" caseSensitive end_),
        snd (compilePath s!"foo/*" caseSensitive end_)).
Proof.
  intros Hq Hlast.
  assert (forall cs e, snd (compilePath (q ++ s!"*") cs e)
                       = snd (compilePath (q ++ s!"/*") cs e)) as Hsame.
  { intros cs e. unfold compilePath. cbn [snd].
    rewrite (regexpSource_star q _ Hq Hlast), (paramNames_of_star q Hq Hlast).
    reflexivity. }
  destruct (star_pattern_shape q Hq Hlast) as (E1 & E2 & E3 & E4).
  split; [apply Hsame|]. split; [|split; [|split; [|split]]].
  - unfold compilePath, compilePath_warning. cbn [fst].
    rewrite E1, (endsWith_app q s!"*"), (endsWith_slash_star q Hlast).
    cbn [negb orb warning]. eexists. reflexivity.
  - unfold compilePath, compilePath_warning. cbn [fst].
    rewrite E3, (endsWith_app q s!"/*"). rewrite !orb_true_r. reflexivity.
  - intros pathname. apply matchPath_same_compile, Hsame.
  - intros pathname.
    apply (matchPath_same_compile _ _ (Some false) (Some true)), Hsame.
  - unfold compilePath. cbn [fst snd].
    change s!"foo*" with (s!"foo" ++ s!"*").
    change s!"foo/*" with (s!"foo" ++ s!"/*").
    rewrite (regexpSource_star s!"foo" _), (paramNames_of_star s!"foo");
      try discriminate. reflexivity.
Qed.

Lemma compilePath_star_slash_witness :
  snd (compilePath s!"files*" None None) = snd (compilePath s!"files/*" None None).
Proof.
  apply (compilePath_star_slash s!"files" None None); discriminate.
Defined.

(** ** Patterns as tokens *)

Lemma take_while_length_le (p : ascii -> bool) (s : str) :
  (length (drop_while p s) <= length s)%nat.
Proof.
  induction s as [|x s IH]; cbn; [lia|]. destruct (p x); cbn; lia.
Qed.

Lemma take_while_length (p : ascii -> bool) (s : str) :
  (length s - length (drop_while p s))%nat = length (take_while p s).
Proof.
  rewrite <- (take_drop_while p s) at 1. rewrite length_app. lia.
Qed.

Lemma take_take_while (p : ascii -> bool) (s : str) :
  take (length s - length (drop_while p s)) s = take_while p s.
Proof.
  rewrite take_while_length. rewrite <- (take_drop_while p s) at 2.
  apply take_app_length.
Qed.

Lemma take_while_all (p : ascii -> bool) (s : str) : forallb p (take_while p s) = true.
Proof.
  induction s as [|x s IH]; cbn; [reflexivity|].
  destruct (p x) eqn:E; cbn; [rewrite E, IH|]; reflexivity.
Qed.

Lemma drop_while_stop (p : ascii -> bool) (s : str) :
  match drop_while p s with x :: _ => p x = false | [] => True end.
Proof.
  induction s as [|x s IH]; cbn; [exact I|].
  destruct (p x) eqn:E; [exact IH | exact E].
Qed.

Lemma take_while_ext (p q : ascii -> bool) (Hpq : forall x, p x = q x) (s : str) :
  take_while p s = take_while q s.
Proof. induction s as [|x s IH]; cbn; [|rewrite Hpq, IH]; reflexivity. Qed.

Lemma drop_while_ext (p q : ascii -> bool) (Hpq : forall x, p x = q x) (s : str) :
  drop_while p s = drop_while q s.
Proof. induction s as [|x s IH]; cbn; [|rewrite Hpq, IH]; reflexivity. Qed.

(** With a continuation that always succeeds the loop takes the longest
    run. *)
Lemma greedy_all (p : ascii -> bool) (f : mstate -> mstate) (rest pre : str)
    (caps : list (nat * str)) :
  greedy p (fun st => Some (f st)) pre rest caps
  = Some (f (MState (rev (take_while p rest) ++ pre) (drop_while p rest) caps)).
Proof.
  rewrite <- (take_drop_while p rest) at 1.
  apply greedy_longest; [apply take_while_all | apply drop_while_stop | reflexivity].
Qed.

Lemma match_here_param (pre rest : str) :
  match_here re_param pre rest
  = match rest with
    | c :: w =>
        if Ascii.eqb c ":" && negb (str_eqb (take_while is_word w) [])
        then Some (MatchResult (length pre) (":" :: take_while is_word w)
                     [Some (take_while is_word w)])
        else None
    | [] => None
    end.
Proof.
  unfold match_here.
  change (re_ast re_param)
    with (RSeq (RChar ":")
            (RSeq (RGroup 1 (RSeq (RPlus (RSet false word_items)) REmpty)) REmpty)).
  change (re_ignoreCase re_param) with false.
  rewrite rmatch_seq. erewrite rmatch_atom by reflexivity.
  destruct rest as [|c w]; [reflexivity|].
  unfold step_char at 1. cbn [m_rest m_pre m_caps].
  rewrite char_matches_exact, (Ascii.eqb_sym c).
  destruct (Ascii.eqb_spec ":" c) as [<-|]; [|reflexivity]. cbn [andb].
  rewrite rmatch_seq, rmatch_group, rmatch_seq.
  erewrite rmatch_plus_atom by reflexivity.
  destruct w as [|x w]; [reflexivity|].
  unfold step_char at 1. cbn [m_rest m_pre m_caps take_while].
  rewrite set_matches_word. destruct (is_word x) eqn:Ex; [|reflexivity].
  cbn [str_eqb negb].
  rewrite (greedy_ext _ _
             (fun st' => Some (set_cap 1 (MState [":"] (x :: w) []) st')))
    by reflexivity.
  rewrite greedy_all. unfold set_cap, consumed.
  cbn [m_rest m_pre m_caps length].
  rewrite (drop_while_ext _ is_word set_matches_word).
  pose proof (take_while_length_le is_word w) as Hle.
  replace (S (S (length w)) - length (drop_while is_word w))%nat
    with (S (S (length w - length (drop_while is_word w)))) by lia.
  replace (S (length w) - length (drop_while is_word w))%nat
    with (S (length w - length (drop_while is_word w))) by lia.
  cbn [take]. rewrite take_take_while. reflexivity.
Qed.

Lemma pieces_param_tokens (s : str) :
  forall skip pre, map piece_token (pieces_from re_param skip pre s) = tokens_from skip s.
Proof.
  induction s as [|c s IH]; intros skip pre; destruct skip as [|skip];
    cbn [pieces_from tokens_from]; rewrite ?match_here_param; try reflexivity.
  - destruct (Ascii.eqb c ":" && negb (str_eqb (take_while is_word s) [])).
    + cbn [map piece_token mr_text length].
      change (re_global re_param) with true. cbn iota.
      rewrite IH. reflexivity.
    + cbn [map piece_token]. rewrite IH. reflexivity.
  - apply IH.
Qed.

Lemma replace_with_tokens (f : match_result -> str) (g : token -> str) (s : str) :
  (forall c, g (TLit c) = [c]) ->
  (forall m, f m = g (TParam (capture 1 m))) ->
  replace_with re_param f s = flat_map g (tokens s).
Proof.
  intros Hlit Hpar. unfold replace_with, tokens, pieces.
  rewrite <- (pieces_param_tokens s 0 []).
  induction (pieces_from re_param 0 [] s) as [|[c|m] ps IH]; cbn [flat_map map];
    [reflexivity| |]; rewrite IH; cbn [piece_token]; [rewrite Hlit | rewrite Hpar];
    reflexivity.
Qed.

Lemma hits_names (s : str) :
  map (capture 1) (hits (pieces re_param s)) = token_names (tokens s).
Proof.
  unfold tokens, pieces, hits, token_names. rewrite <- (pieces_param_tokens s 0 []).
  induction (pieces_from re_param 0 [] s) as [|[c|m] ps IH]; cbn; [reflexivity| |];
    rewrite <- IH; reflexivity.
Qed.

(** *** Escaping *)

Lemma match_here_special (pre rest : str) :
  match_here re_special pre rest
  = match rest with
    | c :: _ =>
        if is_special c then Some (MatchResult (length pre) [c] []) else None
    | [] => None
    end.
Proof.
  unfold match_here. destruct rest as [|c rest]; [reflexivity|].
  cbn [re_special re_ast re_ignoreCase rmatch].
  unfold step_char. cbn [m_rest m_pre m_caps].
  replace (set_matches false false _ c) with (is_special c)
    by (destruct c as [[] [] [] [] [] [] [] []]; reflexivity).
  destruct (is_special c); [|reflexivity].
  cbn [length m_rest]. replace (S (length rest) - length rest)%nat with 1%nat by lia.
  reflexivity.
Qed.

Lemma replace_special (s : str) :
  replace re_special "\$&" s = flat_map escape_char s.
Proof.
  unfold replace, replace_with, pieces.
  assert (forall pre,
            flat_map (fun p => match p with
                               | Keep c => [c]
                               | Hit m => expand s!"\$&" m
                               end) (pieces_from re_special 0 pre s)
            = flat_map escape_char s) as H; [|apply H].
  induction s as [|c s IH]; intros pre; cbn [pieces_from flat_map];
    rewrite match_here_special; [reflexivity|].
  unfold escape_char. destruct (is_special c); cbn [flat_map].
  - change (re_global re_special) with true. cbn [mr_text length].
    rewrite IH. reflexivity.
  - rewrite IH. reflexivity.
Qed.

Lemma word_not_special (c : ascii) : is_word c = true -> is_special c = false.
Proof. destruct c as [[] [] [] [] [] [] [] []]; vm_compute; congruence. Qed.

Lemma escape_char_word (c : ascii) : is_word c = true -> escape_char c = [c].
Proof. intros H. unfold escape_char. rewrite (word_not_special c H). reflexivity. Qed.

Lemma escape_char_other (c : ascii) :
  is_word c = false -> take_while is_word (escape_char c) = [].
Proof.
  intros H. unfold escape_char. destruct (is_special c); cbn; [reflexivity|].
  rewrite H. reflexivity.
Qed.

Lemma take_while_app_stop (p : ascii -> bool) (a b : str) :
  a <> [] -> take_while p a = [] -> take_while p (a ++ b) = [].
Proof.
  destruct a as [|x a]; [congruence|]. cbn. destruct (p x); [discriminate | reflexivity].
Qed.

Lemma escape_char_nonempty (c : ascii) : escape_char c <> [].
Proof. unfold escape_char. destruct (is_special c); discriminate. Qed.

Lemma take_while_word_escape (s : str) :
  take_while is_word (flat_map escape_char s) = take_while is_word s.
Proof.
  induction s as [|c s IH]; cbn [flat_map take_while]; [reflexivity|].
  destruct (is_word c) eqn:Ew.
  - rewrite (escape_char_word c Ew). cbn [app take_while]. rewrite Ew, IH. reflexivity.
  - apply take_while_app_stop; [apply escape_char_nonempty | apply escape_char_other, Ew].
Qed.

Lemma escape_char_special (c : ascii) : is_special c = true -> escape_char c = ["\"; c].
Proof. intros H. unfold escape_char. rewrite H. reflexivity. Qed.

Lemma escape_char_plain (c : ascii) : is_special c = false -> escape_char c = [c].
Proof. intros H. unfold escape_char. rewrite H. reflexivity. Qed.

Lemma tokens_escape (s : str) :
  forall skip,
  forallb (fun c => negb (is_special c)) (take skip s) = true ->
  tokens_from skip (flat_map escape_char s)
  = flat_map escape_token (tokens_from skip s).
Proof.
  induction s as [|c s IH]; intros skip Hskip.
  - destruct skip; reflexivity.
  - destruct skip as [|skip].
    + cbn [flat_map tokens_from].
      destruct (is_special c) eqn:Es.
      * assert (Ascii.eqb c ":" = false) as Hc.
        { destruct (Ascii.eqb_spec c ":") as [->|]; [discriminate Es | reflexivity]. }
        rewrite (escape_char_special c Es).
        cbn [app tokens_from andb]. rewrite Hc. cbn [andb flat_map escape_token].
        rewrite (escape_char_special c Es). cbn [map app].
        rewrite (IH 0%nat) by reflexivity. reflexivity.
      * rewrite (escape_char_plain c Es).
        cbn [app tokens_from]. rewrite take_while_word_escape.
        destruct (Ascii.eqb c ":" && negb (str_eqb (take_while is_word s) [])).
        -- cbn [flat_map escape_token app]. rewrite IH; [reflexivity|].
           rewrite <- (take_drop_while is_word s) at 2.
           rewrite take_app_length. rewrite forallb_forall. intros x Hx.
           pose proof (take_while_all is_word s) as Hall.
           rewrite forallb_forall in Hall. rewrite (word_not_special x); auto.
        -- cbn [flat_map escape_token]. rewrite (escape_char_plain c Es).
           cbn [map app]. rewrite (IH 0%nat) by reflexivity. reflexivity.
    + cbn [take forallb] in Hskip. apply andb_true_iff in Hskip as [Hc Hskip].
      apply negb_true_iff in Hc. cbn [flat_map]. rewrite (escape_char_plain c Hc).
      cbn [app tokens_from]. apply IH, Hskip.
Qed.

Lemma flat_map_flat_map {A B C : Type} (f : A -> list B) (g : B -> list C) (l : list A) :
  flat_map g (flat_map f l) = flat_map (fun x => flat_map g (f x)) l.
Proof.
  induction l as [|x l IH]; cbn [flat_map]; [reflexivity|].
  rewrite flat_map_app, IH. reflexivity.
Qed.

(** The body of the pattern source, token by token. *)
Lemma body_source (s : str) :
  replace re_param "([^\/]+)" (replace re_special "\$&" s)
  = flat_map token_source (tokens s).
Proof.
  unfold replace at 1.
  rewrite (replace_with_tokens _ token_text) by reflexivity.
  rewrite replace_special. unfold tokens.
  rewrite (tokens_escape s 0) by reflexivity.
  rewrite flat_map_flat_map. apply flat_map_ext. intros [c|n]; cbn.
  - unfold escape_char. destruct (is_special c); reflexivity.
  - reflexivity.
Qed.

Lemma token_names_escape (toks : list token) :
  token_names (flat_map escape_token toks) = token_names toks.
Proof.
  unfold token_names. induction toks as [|[c|n] toks IH]; cbn [flat_map]; [reflexivity| |].
  - rewrite omap_app, IH. unfold escape_token, escape_char.
    destruct (is_special c); reflexivity.
  - cbn. rewrite IH. reflexivity.
Qed.

Lemma names_source (s : str) :
  map (capture 1) (hits (pieces re_param (replace re_special "\$&" s)))
  = token_names (tokens s).
Proof.
  rewrite hits_names, replace_special. unfold tokens.
  rewrite (tokens_escape s 0) by reflexivity. apply token_names_escape.
Qed.

(** *** Reading the source of a pattern *)

Lemma escape_atom_special (c : ascii) :
  is_special c = true -> escape_atom c = Some (RChar c).
Proof. destruct c as [[] [] [] [] [] [] [] []]; vm_compute; congruence. Qed.

Lemma parse_plain (c : ascii) (rest : str) (stack : list frame) (cur : frame) (n : nat) :
  is_special c = false ->
  parse_re (c :: rest) PNormal stack cur n
  = parse_re rest PNormal stack (push_atom (RChar c) cur) n.
Proof.
  destruct c as [[] [] [] [] [] [] [] []]; intros H;
    first [discriminate H | reflexivity].
Qed.

Lemma parse_escaped (c : ascii) (rest : str) (stack : list frame) (cur : frame) (n : nat) :
  is_special c = true ->
  parse_re ("\" :: c :: rest) PNormal stack cur n
  = parse_re rest PNormal stack (push_atom (RChar c) cur) n.
Proof.
  intros H. cbn [parse_re]. rewrite (escape_atom_special c H). reflexivity.
Qed.

Lemma parse_group (rest : str) (stack : list frame) (cur : frame) (n : nat) :
  parse_re (s!"([^\/]+)" ++ rest) PNormal stack cur n
  = parse_re rest PNormal stack (push_atom (group_atom (S n)) cur) (S n).
Proof. reflexivity. Qed.

Lemma parse_tokens (toks : list token) :
  forall rest stack cur n,
  parse_re (flat_map token_source toks ++ rest) PNormal stack cur n
  = parse_re rest PNormal stack
      (Frame (fr_group cur) (fr_alts cur) (rev (token_atoms n toks) ++ fr_seq cur))
      (n + param_count toks).
Proof.
  induction toks as [|[c|name] toks IH]; intros rest stack cur n;
    cbn [flat_map token_atoms app rev].
  - destruct cur as [g alts sq]. cbn [fr_group fr_alts fr_seq].
    rewrite Nat.add_0_r. reflexivity.
  - rewrite <- app_assoc. cbn [token_source]. unfold escape_char.
    destruct (is_special c) eqn:Es; cbn [app].
    + rewrite (parse_escaped c _ _ _ _ Es), IH. cbn [push_atom fr_group fr_alts fr_seq].
      rewrite <- app_assoc. reflexivity.
    + rewrite (parse_plain c _ _ _ _ Es), IH. cbn [push_atom fr_group fr_alts fr_seq].
      rewrite <- app_assoc. reflexivity.
  - rewrite <- app_assoc. cbn [token_source]. rewrite parse_group, IH.
    cbn [push_atom fr_group fr_alts fr_seq]. rewrite <- app_assoc.
    unfold param_count.
    change (token_names (TParam name :: toks)) with (name :: token_names toks).
    cbn [length app]. rewrite Nat.add_succ_r. reflexivity.
Qed.

Lemma seq_of_rev (l : list regex) : seq_of (rev l) = foldr RSeq REmpty l.
Proof.
  unfold seq_of. rewrite <- (rev_involutive l) at 2.
  symmetry. apply (fold_left_rev_right RSeq).
Qed.

Lemma seq_of_spec (l : list regex) : seq_of l = foldr RSeq REmpty (rev l).
Proof. rewrite <- seq_of_rev, rev_involutive. reflexivity. Qed.

Lemma parse_tail (path : str) (end_ : bool) (sq : list regex) (n : nat) :
  parse_re
    (if endsWith path s!"*" then
       if str_eqb path s!"*" || str_eqb path s!"/*" then s!"(.*)$"
       else s!"(?:\/(.+)|\/*)$"
     else if end_ then s!"\/*$" else s!"(?:\b|$)")
    PNormal [] (Frame None [] sq) n
  = Some (seq_of (rev (tail_atoms n path end_) ++ sq), (n + tail_groups path)%nat).
Proof.
  unfold tail_atoms, tail_groups.
  destruct (endsWith path s!"*");
    [destruct (str_eqb path s!"*" || str_eqb path s!"/*") | destruct end_];
    rewrite ?Nat.add_0_r, ?Nat.add_1_r; reflexivity.
Qed.

(** The source [compilePath] writes is read as the matcher of the
    pattern: [new RegExp] does not throw. *)
Lemma new_RegExp_pattern (path : str) (caseSensitive end_ : bool) :
  new_RegExp (regexpSource path end_) (negb caseSensitive) false
  = Some (pattern_RegExp path caseSensitive end_).
Proof.
  unfold new_RegExp, regexpSource, pattern_RegExp, pattern_regex.
  fold (pattern_body path). rewrite body_source.
  set (toks := tokens (pattern_body path)).
  change (s!"^" ++ ?x) with ("^" :: x).
  change (parse_re ("^" :: ?x) PNormal [] (Frame None [] []) 0)
    with (parse_re x PNormal [] (Frame None [] [RBol]) 0).
  rewrite parse_tokens. cbn [fr_group fr_alts fr_seq Nat.add].
  rewrite parse_tail, seq_of_spec.
  rewrite !rev_app_distr, !rev_involutive. reflexivity.
Qed.

(** ** [matchPath] *)

Lemma compilePath_pattern (path : str) (caseSensitive end_ : option bool) :
  snd (compilePath path caseSensitive end_)
  = Return (pattern_RegExp path (default false caseSensitive) (default true end_),
            paramNames_of path).
Proof. unfold compilePath. cbn [snd]. rewrite new_RegExp_pattern. reflexivity. Qed.

Lemma matchPath_unfold (pattern : PatternArg) (pathname : str) :
  matchPath pattern pathname
  = match match_here (matcher_of pattern) [] pathname with
    | None => Return None
    | Some m =>
        let '(params, pathnameBase) :=
          fold_left (param_step (mr_text m) (mr_groups m))
            (zip (seq 0 (length (paramNames_of (pat_path (pattern_of pattern)))))
               (paramNames_of (pat_path (pattern_of pattern))))
            (∅, base_of (mr_text m)) in
        Return (Some (MkPathMatch params (mr_text m) pathnameBase (pattern_of pattern)))
    end.
Proof.
  unfold matchPath. fold (pattern_of pattern). rewrite compilePath_pattern.
  cbn [mbind outcome_bind]. fold (matcher_of pattern).
  unfold RegExp_exec. rewrite (match_from_bol (matcher_of pattern) _ pathname eq_refl).
  destruct (match_here (matcher_of pattern) [] pathname) as [m|]; [|reflexivity].
  reflexivity.
Qed.

(** [matchPath] never throws. *)
Lemma matchPath_returns (pattern : PatternArg) (pathname : str) :
  exists r, matchPath pattern pathname = Return r.
Proof.
  rewrite matchPath_unfold. destruct (match_here _ _ _); [|eexists; reflexivity].
  destruct (fold_left _ _ _). eexists; reflexivity.
Qed.

(** *** [pathnameBase] *)

Lemma forallb_slash (r : str) :
  forallb (char_matches false "/") r = forallb is_slash r.
Proof. reflexivity. Qed.

Lemma match_here_base (pre rest : str) :
  match_here re_base pre rest
  = match rest with
    | x :: r =>
        if negb (is_line_terminator x) && negb (str_eqb r []) && forallb is_slash r
        then Some (MatchResult (length pre) rest [Some [x]])
        else None
    | [] => None
    end.
Proof.
  unfold match_here.
  change (re_ast re_base)
    with (RSeq (RGroup 1 (RSeq RAny REmpty))
            (RSeq (RPlus (RChar "/")) (RSeq REol REmpty))).
  change (re_ignoreCase re_base) with false.
  rewrite rmatch_seq, rmatch_group, rmatch_seq. erewrite rmatch_atom by reflexivity.
  destruct rest as [|x r]; [reflexivity|].
  unfold step_char at 1. cbn [m_rest m_pre m_caps].
  destruct (is_line_terminator x); [reflexivity|]. cbn [negb andb].
  rewrite rmatch_empty, rmatch_seq. erewrite rmatch_plus_atom by reflexivity.
  unfold set_cap, consumed. cbn [m_rest m_pre m_caps length].
  replace (S (length r) - length r)%nat with 1%nat by lia. cbn [take].
  destruct r as [|y r]; [reflexivity|].
  unfold step_char. cbn [m_rest m_pre m_caps str_eqb negb andb forallb].
  rewrite char_matches_exact. fold (is_slash y).
  destruct (is_slash y); [|reflexivity]. cbn [andb].
  rewrite greedy_eol_re, forallb_slash.
  destruct (forallb is_slash r); [|reflexivity].
  cbn [m_rest]. rewrite (take_ge (x :: y :: r)) by (cbn [length]; lia). reflexivity.
Qed.

Lemma base_of_spec (s : str) : base_of s = base_spec s.
Proof.
  unfold base_of, replace, replace_with, pieces.
  assert (forall pre,
            flat_map (fun p => match p with
                               | Keep c => [c]
                               | Hit m => expand s!"$1" m
                               end) (pieces_from re_base 0 pre s)
            = base_spec s) as H; [|apply H].
  induction s as [|x r IH]; intros pre; cbn [pieces_from base_spec];
    rewrite match_here_base; [reflexivity|].
  destruct (negb (is_line_terminator x) && negb (str_eqb r []) && forallb is_slash r).
  - change (re_global re_base) with false. cbn [flat_map mr_text].
    rewrite drop_all. cbn. reflexivity.
  - cbn [flat_map app]. rewrite IH. reflexivity.
Qed.

Lemma base_spec_prefix (s : str) : base_spec s `prefix_of` s.
Proof.
  induction s as [|x r IH]; cbn [base_spec]; [reflexivity|].
  destruct (_ && _); [apply prefix_cons, prefix_nil | apply prefix_cons, IH].
Qed.

Lemma base_spec_nonempty (s : str) : s <> [] -> base_spec s <> [].
Proof. destruct s as [|x r]; [congruence|]. cbn. destruct (_ && _); discriminate. Qed.

Lemma base_spec_end (s : str) :
  no_line_terminator s = true ->
  last (base_spec s) <> Some "/"
  \/ (forallb is_slash s = true /\ (s = [] \/ base_spec s = s!"/")).
Proof.
  unfold no_line_terminator.
  induction s as [|x r IH]; cbn [forallb base_spec]; [left; discriminate|].
  intros H. apply andb_true_iff in H as [Hx Hr]. rewrite Hx. cbn [andb].
  destruct (negb (str_eqb r []) && forallb is_slash r) eqn:E.
  - apply andb_true_iff in E as [_ Hall]. rewrite Hall, andb_true_r.
    destruct (Ascii.eqb_spec "/" x) as [<-|Hne].
    + right. split; [reflexivity|]. right. reflexivity.
    + left. cbn. congruence.
  - destruct r as [|y r].
    + cbn [base_spec forallb]. rewrite andb_true_r.
      destruct (Ascii.eqb_spec "/" x) as [<-|Hne].
      * right. split; [reflexivity|]. right. reflexivity.
      * left. cbn. congruence.
    + cbn [str_eqb negb andb] in E.
      destruct (IH Hr) as [Hl | [Hall _]]; [|congruence].
      left. pose proof (base_spec_nonempty (y :: r)) as Hne.
      destruct (base_spec (y :: r)) as [|z t]; [exfalso; apply Hne; congruence|].
      exact Hl.
Qed.

Lemma no_line_terminator_take (k : nat) (s : str) :
  no_line_terminator s = true -> no_line_terminator (take k s) = true.
Proof.
  unfold no_line_terminator. rewrite !forallb_forall. intros H x Hx. apply H.
  apply list_elem_of_In. apply list_elem_of_In in Hx.
  eapply elem_of_sublist; [exact Hx | apply sublist_take].
Qed.

Lemma param_fold_base (matched : str) (groups : list (option str))
    (entries : list (nat * str)) :
  forall memo base,
  (exists k, base = base_of (take k matched)) ->
  exists k,
    snd (fold_left (param_step matched groups) entries (memo, base))
    = base_of (take k matched).
Proof.
  induction entries as [|[index name] entries IH]; intros memo base Hbase;
    cbn [fold_left]; [exact Hbase|].
  unfold param_step at 2. apply IH.
  destruct (str_eqb name s!"*"); [eexists; reflexivity | exact Hbase].
Qed.

(** C10 as stated fails: on the pathname made of a slash, a line feed and
    a slash, the pattern [/:id] matches with a [pathnameBase] that ends
    with a slash and is not ["/"]. *)
Lemma matchPath_linefeed_counterexample :
  exists pm,
    matchPath (PatString s!"/:id") ["/"; "010"; "/"] = Return (Some pm)
    /\ pm_pathnameBase pm = ["/"; "010"; "/"]
    /\ ~ (pm_pathnameBase pm = s!"/" \/ last (pm_pathnameBase pm) <> Some "/").
Proof.
  eexists. split; [vm_compute; reflexivity|]. split; [reflexivity|].
  cbn. intros [H|H]; [discriminate | congruence].
Qed.

(** C10, amended.  Whenever [matchPath] returns a match, its
    [pathnameBase] is a prefix of its [pathname], which is a prefix of the
    pathname given; and when the pathname given holds no line terminator
    the [pathnameBase] is ["/"] or does not end with a slash. *)
Theorem matchPath_anchored (pattern : PatternArg) (pathname : str) (pm : PathMatch) :
  matchPath pattern pathname = Return (Some pm) ->
  pm_pathnameBase pm `prefix_of` pm_pathname pm
  /\ pm_pathname pm `prefix_of` pathname
  /\ (no_line_terminator pathname = true ->
      pm_pathnameBase pm = s!"/" \/ last (pm_pathnameBase pm) <> Some "/").
Proof.
  rewrite matchPath_unfold.
  destruct (match_here (matcher_of pattern) [] pathname) as [m|] eqn:Em; [|discriminate].
  assert (exists n, mr_text m = take n pathname) as [n Hn].
  { unfold match_here in Em. destruct (rmatch _ _ _ _); [|discriminate].
    injection Em as <-. eexists; reflexivity. }
  pose proof (param_fold_base (mr_text m) (mr_groups m)
                (zip (seq 0 (length (paramNames_of (pat_path (pattern_of pattern)))))
                   (paramNames_of (pat_path (pattern_of pattern))))
                ∅ (base_of (mr_text m))) as [k Hk].
  { exists (length (mr_text m)). rewrite firstn_all. reflexivity. }
  destruct (fold_left _ _ _) as [params base]. cbn [snd] in Hk.
  intros [= <-]. cbn [pm_pathname pm_pathnameBase]. subst base.
  rewrite base_of_spec. split; [|split].
  - etransitivity; [apply base_spec_prefix | apply prefix_take].
  - rewrite Hn. apply prefix_take.
  - intros Hlt.
    assert (no_line_terminator (take k (mr_text m)) = true) as Hlt'.
    { rewrite Hn. do 2 apply no_line_terminator_take. exact Hlt. }
    destruct (base_spec_end _ Hlt') as [H | [_ [H | H]]]; auto.
    rewrite H. right. discriminate.
Qed.

Lemma matchPath_anchored_witness :
  exists pm,
    matchPath (PatString s!"/files/*") s!"/files/a/b.txt" = Return (Some pm)
    /\ pm_pathnameBase pm `prefix_of` pm_pathname pm.
Proof.
  eexists. split; [vm_compute; reflexivity|].
  eapply (matchPath_anchored (PatString s!"/files/*") s!"/files/a/b.txt").
  vm_compute. reflexivity.
Defined.

(** ** Simple patterns as tokens *)

Lemma join_cons (sep x : str) (y : str) (l : list str) :
  join sep (x :: y :: l) = x ++ sep ++ join sep (y :: l).
Proof. reflexivity. Qed.

Lemma join_split (sep : ascii) (s : str) : join [sep] (split sep s) = s.
Proof.
  induction s as [|c s IH]; cbn [split]; [reflexivity|].
  destruct (Ascii.eqb_spec c sep) as [->|Hne].
  - pose proof (split_nonempty sep s) as Hn.
    destruct (split sep s) as [|x l] eqn:E; [congruence|].
    rewrite join_cons, IH. reflexivity.
  - pose proof (split_nonempty sep s) as Hn.
    destruct (split sep s) as [|x l] eqn:E; [congruence|].
    destruct l as [|y l].
    + cbn in IH |- *. rewrite IH. reflexivity.
    + rewrite join_cons in IH |- *. cbn [app] in IH |- *. rewrite IH. reflexivity.
Qed.

Lemma split_no_sep_in (sep : ascii) (s : str) :
  Forall (fun seg => sep ∉ seg) (split sep s).
Proof.
  induction s as [|c s IH]; cbn [split].
  - repeat constructor. apply not_elem_of_nil.
  - destruct (Ascii.eqb_spec c sep) as [->|Hne].
    + constructor; [apply not_elem_of_nil | exact IH].
    + destruct (split sep s) as [|x l]; [repeat constructor|].
      * rewrite not_elem_of_cons. split; [congruence | apply not_elem_of_nil].
      * inversion IH; subst. constructor; [|assumption].
        rewrite not_elem_of_cons. split; [congruence | assumption].
Qed.

Lemma take_while_app_end (p : ascii -> bool) (a t : str) :
  match t with x :: _ => p x = false | [] => True end ->
  take_while p (a ++ t) = take_while p a.
Proof.
  intros Ht. induction a as [|x a IH]; cbn [app take_while].
  - destruct t as [|y t]; [reflexivity|]. cbn. rewrite Ht. reflexivity.
  - rewrite IH. reflexivity.
Qed.

Lemma take_while_id (p : ascii -> bool) (a : str) :
  forallb p a = true -> take_while p a = a.
Proof.
  induction a as [|x a IH]; cbn; [reflexivity|].
  intros H. apply andb_true_iff in H as [-> H]. rewrite IH; auto.
Qed.

Lemma tokens_from_skip (a t : str) :
  tokens_from (length a) (a ++ t) = tokens_from 0 t.
Proof.
  induction a as [|x a IH]; cbn [length app tokens_from]; [|exact IH].
  destruct t; reflexivity.
Qed.

Lemma tokens_literal (s t : str) :
  literal_segment s = true ->
  tokens_from 0 (s ++ t) = map TLit s ++ tokens_from 0 t.
Proof.
  induction s as [|c s IH]; cbn [literal_segment forallb app map]; [reflexivity|].
  intros H. apply andb_true_iff in H as [Hc Hs].
  apply andb_true_iff in Hc as [Hc _]. apply negb_true_iff in Hc.
  cbn [tokens_from]. rewrite Hc. cbn [andb]. rewrite (IH Hs). reflexivity.
Qed.

Lemma tokens_param (s t : str) :
  is_param_form s = true ->
  match t with x :: _ => is_word x = false | [] => True end ->
  tokens_from 0 (s ++ t) = TParam (drop 1 s) :: tokens_from 0 t.
Proof.
  destruct s as [|c w]; [discriminate|]. cbn [is_param_form].
  intros H Ht. apply andb_true_iff in H as [H Hw]. apply andb_true_iff in H as [Hc Hne].
  cbn [app tokens_from drop]. rewrite Hc.
  rewrite (take_while_app_end _ _ _ Ht), (take_while_id _ _ Hw), Hne.
  cbn [andb]. rewrite tokens_from_skip. reflexivity.
Qed.

Lemma tokens_segment (s t : str) :
  simple_segment s = true ->
  match t with x :: _ => is_word x = false | [] => True end ->
  tokens_from 0 (s ++ t) = segment_tokens s ++ tokens_from 0 t.
Proof.
  unfold simple_segment, segment_tokens. intros Hs Ht.
  destruct (is_param_form s) eqn:E.
  - apply tokens_param; assumption.
  - apply tokens_literal. exact Hs.
Qed.

Lemma tokens_join (segments : list str) :
  forallb simple_segment segments = true ->
  tokens (join s!"/" segments) = join_tokens segments.
Proof.
  unfold tokens. induction segments as [|s rest IH]; [reflexivity|].
  cbn [forallb]. intros H. apply andb_true_iff in H as [Hs Hrest].
  destruct rest as [|s2 rest].
  - cbn [join join_tokens]. rewrite <- (app_nil_r s) at 1.
    rewrite tokens_segment by auto. cbn [tokens_from]. apply app_nil_r.
  - rewrite join_cons. cbn [join_tokens].
    rewrite tokens_segment by (auto; reflexivity).
    f_equal. change (s!"/" ++ ?x) with ("/" :: x).
    change (tokens_from 0 ("/" :: ?x)) with (TLit "/" :: tokens_from 0 x).
    rewrite (IH Hrest). reflexivity.
Qed.

Lemma tokens_simple (pattern : str) :
  forallb simple_segment (split "/" pattern) = true ->
  tokens pattern = join_tokens (split "/" pattern).
Proof.
  intros H. rewrite <- (join_split "/" pattern) at 1. apply tokens_join, H.
Qed.

Lemma segment_tokens_names (s : str) :
  token_names (segment_tokens s) = if is_param_form s then [drop 1 s] else [].
Proof.
  unfold segment_tokens. destruct (is_param_form s); [reflexivity|].
  unfold token_names. induction s as [|c s IH]; cbn; auto.
Qed.

Lemma token_names_app (a b : list token) :
  token_names (a ++ b) = token_names a ++ token_names b.
Proof. apply omap_app. Qed.

Lemma join_tokens_cons (s s2 : str) (rest : list str) :
  join_tokens (s :: s2 :: rest)
  = segment_tokens s ++ TLit "/" :: join_tokens (s2 :: rest).
Proof. reflexivity. Qed.

Lemma join_tokens_names (segments : list str) :
  token_names (join_tokens segments)
  = omap (fun s => if is_param_form s then Some (drop 1 s) else None) segments.
Proof.
  induction segments as [|s rest IH]; [reflexivity|].
  destruct rest as [|s2 rest].
  - cbn [join_tokens]. rewrite segment_tokens_names.
    cbn. destruct (is_param_form s); reflexivity.
  - rewrite join_tokens_cons, token_names_app, segment_tokens_names.
    change (token_names (TLit "/" :: ?x)) with (token_names x). rewrite IH.
    change (omap ?f (s :: ?l)) with (match f s with Some y => y :: omap f l
                                                  | None => omap f l end).
    cbn beta. destruct (is_param_form s); reflexivity.
Qed.

Lemma delimited_literal (s : str) (toks : list token) :
  delimited (map TLit s ++ toks) = delimited toks.
Proof. induction s as [|c s IH]; cbn; auto. Qed.

Lemma join_tokens_delimited (segments : list str) :
  delimited (join_tokens segments) = true.
Proof.
  induction segments as [|s rest IH]; [reflexivity|].
  destruct rest as [|s2 rest].
  - cbn [join_tokens]. unfold segment_tokens. destruct (is_param_form s);
      [reflexivity|]. rewrite <- (app_nil_r (map TLit s)). apply delimited_literal.
  - rewrite join_tokens_cons. unfold segment_tokens. destruct (is_param_form s).
    + cbn [app delimited]. rewrite Ascii.eqb_refl. exact IH.
    + rewrite delimited_literal. exact IH.
Qed.

Lemma delimited_app_l (a b : list token) :
  delimited (a ++ b) = true -> delimited a = true.
Proof.
  induction a as [|[c|n] a IH]; cbn [app delimited]; [reflexivity|exact IH|].
  intros H. apply andb_true_iff in H as [H1 H2]. rewrite (IH H2), andb_true_r.
  destruct a as [|[c|m] a]; auto.
Qed.

(** ** Matching the text of the tokens *)

Lemma group_set_matches (ic : bool) (x : ascii) :
  set_matches ic true [("/", "/")] x = negb (Ascii.eqb x "/").
Proof. destruct ic; destruct x as [[] [] [] [] [] [] [] []]; reflexivity. Qed.

Lemma char_matches_refl (ic : bool) (c : ascii) : char_matches ic c c = true.
Proof. apply Ascii.eqb_refl. Qed.

Lemma forallb_not_slash (ic : bool) (v : str) :
  "/" ∉ v -> forallb (set_matches ic true [("/", "/")]) v = true.
Proof.
  intros H. apply forallb_forall. intros x Hx. rewrite group_set_matches.
  apply negb_true_iff. destruct (Ascii.eqb_spec x "/") as [->|]; [|reflexivity].
  exfalso. apply H, list_elem_of_In, Hx.
Qed.

Lemma slashes_stop (ic : bool) (t : str) :
  forallb is_slash t = true ->
  match t with x :: _ => set_matches ic true [("/", "/")] x = false | [] => True end.
Proof.
  destruct t as [|x t]; [intros; exact I|]. cbn [forallb]. intros H.
  apply andb_true_iff in H as [H _]. unfold is_slash in H.
  apply Ascii.eqb_eq in H as <-. rewrite group_set_matches. reflexivity.
Qed.

Lemma param_values_ok_cons (params : Params) (t : token) (toks : list token) :
  param_values_ok params (t :: toks) -> param_values_ok params toks.
Proof.
  intros H name Hn. apply H. destruct t as [c|n]; [exact Hn|].
  change (token_names (TParam n :: toks)) with (n :: token_names toks).
  apply elem_of_cons. right. exact Hn.
Qed.

Lemma match_tokens (ic : bool) (params : Params) (R : regex) (k : cont)
    (trailing : str) (r : mstate) (toks : list token) :
  forallb is_slash trailing = true ->
  forall n pre caps,
  delimited toks = true ->
  param_values_ok params toks ->
  rmatch ic R k
    (MState (rev (flat_map (token_value params) toks) ++ pre) trailing
       (token_caps params n toks caps)) = Some r ->
  rmatch ic (foldr RSeq R (token_atoms n toks)) k
    (MState pre (flat_map (token_value params) toks ++ trailing) caps) = Some r.
Proof.
  intros Htr. induction toks as [|[c|name] toks IH]; intros n pre caps Hd Hv Hk.
  - exact Hk.
  - cbn [token_atoms foldr flat_map token_value app].
    rewrite rmatch_seq. erewrite rmatch_atom by reflexivity.
    unfold step_char. cbn [m_rest m_pre m_caps]. rewrite char_matches_refl.
    apply IH; [exact Hd | eapply param_values_ok_cons, Hv|].
    cbn [flat_map token_value app rev token_caps] in Hk.
    rewrite <- app_assoc in Hk. exact Hk.
  - destruct (Hv name) as (v & Hlook & Hne & Hslash).
    { change (token_names (TParam name :: toks)) with (name :: token_names toks).
      apply elem_of_cons. left. reflexivity. }
    cbn [token_atoms foldr flat_map token_value token_caps] in Hk |- *.
    rewrite Hlook in Hk |- *. cbn [default from_option id] in Hk |- *.
    unfold group_atom. rewrite rmatch_seq, rmatch_group, rmatch_seq.
    erewrite rmatch_plus_atom by reflexivity.
    destruct v as [|x v]; [congruence|].
    apply not_elem_of_cons in Hslash as [Hx Hslash].
    unfold step_char. cbn [app m_rest m_pre m_caps].
    rewrite group_set_matches.
    destruct (Ascii.eqb_spec x "/") as [->|_]; [congruence|]. cbn [negb].
    rewrite <- app_assoc.
    apply greedy_longest.
    + apply forallb_not_slash, Hslash.
    + cbn [delimited] in Hd. apply andb_true_iff in Hd as [Hnext _].
      destruct toks as [|[c|m] toks]; [apply slashes_stop, Htr| |discriminate].
      cbn [flat_map token_value app]. apply Ascii.eqb_eq in Hnext as ->.
      rewrite group_set_matches. reflexivity.
    + rewrite rmatch_empty. unfold set_cap, consumed. cbn [m_rest m_pre m_caps].
      apply IH.
      * cbn [delimited] in Hd. apply andb_true_iff in Hd as [_ Hd]. exact Hd.
      * eapply param_values_ok_cons, Hv.
      * replace (take _ _) with (x :: v).
        2:{ cbn [length]. rewrite !length_app.
            replace (S (length v + (length (flat_map (token_value params) toks)
                                    + length trailing))
                     - (length (flat_map (token_value params) toks) + length trailing))%nat
              with (S (length v)) by lia.
            cbn [take]. rewrite take_app_length. reflexivity. }
        rewrite rev_app_distr in Hk. cbn [rev] in Hk.
        rewrite <- !app_assoc in Hk. exact Hk.
Qed.

Lemma cap_lookup_tokens (params : Params) (toks : list token) :
  forall n caps j,
  cap_lookup j (token_caps params n toks caps)
  = match (if (n <? j)%nat
           then map (param_value params) (token_names toks) !! (j - S n)%nat
           else None) with
    | Some v => Some v
    | None => cap_lookup j caps
    end.
Proof.
  induction toks as [|[c|name] toks IH]; intros n caps j; cbn [token_caps].
  - change (token_names []) with (@nil str). cbn [map].
    destruct (n <? j)%nat; [rewrite lookup_nil|]; reflexivity.
  - rewrite IH. reflexivity.
  - rewrite IH.
    change (token_names (TParam name :: toks)) with (name :: token_names toks).
    cbn [map cap_lookup].
    destruct (Nat.ltb_spec (S n) j) as [H1|H1]; destruct (Nat.ltb_spec n j) as [H2|H2];
      try lia.
    + replace (j - S n)%nat with (S (j - S (S n))) by lia. cbn [lookup list_lookup].
      destruct (_ !! _) eqn:E; [reflexivity|].
      destruct (Nat.eqb_spec (S n) j); [lia | reflexivity].
    + assert (j = S n) as -> by lia. rewrite Nat.sub_diag, Nat.eqb_refl. reflexivity.
    + destruct (Nat.eqb_spec (S n) j); [lia | reflexivity].
Qed.

Lemma groups_of_tokens (re : RegExp) (params : Params) (toks : list token) :
  re_groups re = param_count toks ->
  groups_of re (token_caps params 0 toks [])
  = map Some (map (param_value params) (token_names toks)).
Proof.
  intros Hg. unfold groups_of. rewrite Hg. unfold param_count.
  apply list_eq. intros i. rewrite !lookup_map.
  destruct (decide (i < length (token_names toks))%nat) as [Hi|Hi].
  - rewrite lookup_seq_lt by exact Hi. cbn [fmap option_fmap option_map Nat.add].
    rewrite cap_lookup_tokens. change (0 <? S i)%nat with true. cbn iota.
    replace (S i - 1)%nat with i by lia. rewrite lookup_map.
    destruct (token_names toks !! i) eqn:E; [reflexivity|].
    apply lookup_ge_None in E. lia.
  - rewrite lookup_seq_ge by lia.
    rewrite (proj2 (lookup_ge_None (token_names toks) i)) by lia. reflexivity.
Qed.

(** *** Decoding *)

Lemma decode_plain_char (c : ascii) (s : str) :
  c <> "%" -> decode_from 0 128 191 (c :: s) = cons c <$> decode_from 0 128 191 s.
Proof.
  intros Hc. destruct c as [[] [] [] [] [] [] [] []];
    first [congruence | reflexivity].
Qed.

Lemma decodeURIComponent_plain (v : str) : "%" ∉ v -> decodeURIComponent v = Some v.
Proof.
  unfold decodeURIComponent. induction v as [|c v IH]; [reflexivity|].
  rewrite not_elem_of_cons. intros [Hc Hv].
  rewrite decode_plain_char by congruence. rewrite (IH Hv). reflexivity.
Qed.

(** *** The parameters [matchPath] collects *)

Lemma set_param_other (memo : Params) (key value : str) :
  key <> s!"__proto__" -> set_param memo key value = <[key := value]> memo.
Proof.
  intros Hne. unfold set_param. apply str_eqb_neq in Hne. rewrite Hne. reflexivity.
Qed.

Lemma set_param_proto (memo : Params) (value : str) :
  memo !! s!"__proto__" = None -> set_param memo s!"__proto__" value = memo.
Proof.
  intros Hm. unfold set_param. rewrite str_eqb_refl, bool_decide_eq_true_2 by exact Hm.
  reflexivity.
Qed.

Lemma param_step_value (matched : str) (groups : list (option str)) (memo : Params)
    (base : str) (i : nat) (name v : str) :
  name <> s!"__proto__" ->
  groups !! i = Some (Some v) -> "%" ∉ v ->
  fst (param_step matched groups (memo, base) (i, name)) = <[name := v]> memo.
Proof.
  intros Hn Hg Hp. unfold param_step. cbv beta iota zeta. rewrite Hg.
  cbn [mjoin option_join default from_option id fst].
  unfold safelyDecodeURIComponent. rewrite (decodeURIComponent_plain _ Hp).
  apply set_param_other, Hn.
Qed.

Lemma param_fold_values (params : Params) (matched : str)
    (groups : list (option str)) (names : list str) :
  s!"__proto__" ∉ names ->
  forall i0 memo base,
  (forall j name, names !! j = Some name ->
     groups !! (i0 + j)%nat = Some (Some (param_value params name))
     /\ ("%" ∉ param_value params name)) ->
  fst (fold_left (param_step matched groups) (zip (seq i0 (length names)) names)
         (memo, base))
  = fold_left (fun m name => <[name := param_value params name]> m) names memo.
Proof.
  induction names as [|name names IH]; intros Hproto i0 memo base H; [reflexivity|].
  apply not_elem_of_cons in Hproto as [Hn Hproto].
  change (zip (seq i0 (length (name :: names))) (name :: names))
    with ((i0, name) :: zip (seq (S i0) (length names)) names).
  cbn [fold_left].
  destruct (H 0%nat name eq_refl) as [Hg Hp]. rewrite Nat.add_0_r in Hg.
  assert (name <> s!"__proto__") as Hn' by congruence.
  pose proof (param_step_value matched groups memo base i0 name _ Hn' Hg Hp) as Hs.
  destruct (param_step matched groups (memo, base) (i0, name)) as [memo' base'].
  cbn [fst] in Hs. subst memo'.
  apply IH; [exact Hproto|]. intros j nm Hj.
  replace (S i0 + j)%nat with (i0 + S j)%nat by lia.
  apply (H (S j)). exact Hj.
Qed.

Lemma fold_insert_lookup (f : str -> str) (names : list str) :
  forall (memo : Params) k,
  fold_left (fun m name => <[name := f name]> m) names memo !! k
  = if decide (k ∈ names) then Some (f k) else memo !! k.
Proof.
  induction names as [|name names IH]; intros memo k; cbn [fold_left].
  - rewrite decide_False by apply not_elem_of_nil. reflexivity.
  - rewrite IH. destruct (decide (k ∈ names)) as [Hin|Hin].
    + rewrite decide_True by (apply elem_of_cons; auto). reflexivity.
    + destruct (decide (k = name)) as [->|Hne].
      * rewrite decide_True by (apply elem_of_cons; auto).
        apply lookup_insert_eq.
      * rewrite decide_False by (rewrite elem_of_cons; tauto).
        apply lookup_insert_ne. congruence.
Qed.

(** ** The body of a simple pattern *)

Lemma last_rev_head (l : str) : last (rev l) = head l.
Proof. destruct l as [|x l]; [reflexivity|]. cbn [rev]. apply last_snoc. Qed.

Lemma rstrip_split (s : str) : s = rstrip_slashes s ++ trailing_slashes s.
Proof.
  unfold rstrip_slashes, trailing_slashes.
  rewrite <- rev_app_distr, take_drop_while, rev_involutive. reflexivity.
Qed.

Lemma trailing_all_slashes (s : str) : forallb is_slash (trailing_slashes s) = true.
Proof.
  unfold trailing_slashes. apply forallb_forall. intros x Hx. apply in_rev in Hx.
  pose proof (take_while_all is_slash (rev s)) as H. rewrite forallb_forall in H. auto.
Qed.

Lemma rstrip_last (s : str) : last (rstrip_slashes s) <> Some "/".
Proof.
  unfold rstrip_slashes. rewrite last_rev_head.
  pose proof (drop_while_stop is_slash (rev s)) as H.
  destruct (drop_while is_slash (rev s)) as [|x l]; [discriminate|].
  cbn. intros [= ->]. discriminate H.
Qed.

Lemma last_drop_while (p : ascii -> bool) (u : str) :
  drop_while p u <> [] -> last (drop_while p u) = last u.
Proof.
  induction u as [|x u IH]; cbn [drop_while]; [congruence|].
  destruct (p x); [|reflexivity]. intros H. rewrite (IH H).
  destruct u as [|y u]; [cbn in H; congruence | reflexivity].
Qed.

Lemma trailing_ok_core (u t : str) :
  u <> [] -> last u <> Some "/" -> (t = [] -> last u <> Some "*") ->
  trailing_ok (u ++ t) = false.
Proof.
  intros Hu Hlast Hstar. unfold trailing_ok.
  assert (drop_while is_slash u <> []) as Hd.
  { intros Hd. apply drop_while_all in Hd.
    destruct (last u) as [x|] eqn:E.
    - pose proof (last_forallb _ _ _ Hd E) as Hx. unfold is_slash in Hx.
      apply Ascii.eqb_eq in Hx as <-. congruence.
    - apply last_None in E. congruence. }
  rewrite (drop_while_app_stop _ _ _ Hd).
  pose proof (last_drop_while _ _ Hd) as Hl.
  destruct (drop_while is_slash u) as [|x d]; [congruence|].
  cbn [app str_eqb orb list_ascii_of_string].
  destruct (Ascii.eqb_spec x "*") as [->|]; [|reflexivity]. cbn [andb].
  apply str_eqb_neq. intros H. apply app_eq_nil in H as [-> ->].
  apply Hstar; [reflexivity|]. rewrite <- Hl. reflexivity.
Qed.

Lemma match_from_core (q t : str) :
  last q <> Some "/" -> forallb is_slash t = true ->
  (t = [] -> last q <> Some "*") ->
  forall pre,
  match_from re_trailing pre (q ++ t)
  = Some (MatchResult (length pre + length q) t []).
Proof.
  intros Hlast Ht Hstar. induction q as [|c q IH]; intros pre.
  - cbn [app length]. rewrite Nat.add_0_r.
    assert (match_here re_trailing pre t = Some (MatchResult (length pre) t [])) as H.
    { rewrite match_here_trailing. unfold trailing_ok.
      assert (drop_while is_slash t = []) as ->; [|reflexivity].
      clear Hstar. induction t as [|x t IHt]; [reflexivity|].
      cbn in Ht |- *. apply andb_true_iff in Ht as [-> Ht]. auto. }
    destruct t; cbn [match_from]; rewrite H; reflexivity.
  - cbn [app match_from]. change (c :: q ++ t) with ((c :: q) ++ t).
    rewrite match_here_trailing, trailing_ok_core by (auto; discriminate).
    cbn [app]. rewrite IH.
    + cbn [length]. do 2 f_equal. lia.
    + destruct q as [|d q]; [discriminate|]. exact Hlast.
    + intros Ht'. specialize (Hstar Ht'). destruct q as [|d q]; [discriminate|].
      exact Hstar.
Qed.

Lemma replace_trailing_core (q t : str) :
  last q <> Some "/" -> forallb is_slash t = true ->
  (t = [] -> last q <> Some "*") ->
  replace re_trailing "" (q ++ t) = q.
Proof.
  intros Hlast Ht Hstar. unfold replace.
  rewrite replace_with_first by reflexivity. unfold RegExp_exec.
  rewrite (match_from_core q t Hlast Ht Hstar []).
  cbn [mr_index mr_text length Nat.add expand list_ascii_of_string app].
  rewrite take_app_length, <- length_app, drop_all. apply app_nil_r.
Qed.

Lemma replace_leading (s : str) :
  replace re_leading_slashes "/" s = "/" :: drop_while is_slash s.
Proof.
  unfold replace. rewrite replace_with_first by reflexivity. unfold RegExp_exec.
  rewrite (match_from_bol re_leading_slashes _ s eq_refl).
  unfold match_here.
  change (re_ast re_leading_slashes) with (RSeq RBol (RSeq (RStar (RChar "/")) REmpty)).
  change (re_ignoreCase re_leading_slashes) with false.
  rewrite rmatch_seq, rmatch_bol. cbn [m_pre].
  rewrite rmatch_seq. erewrite rmatch_star_atom by reflexivity. cbn [m_pre m_rest m_caps].
  rewrite (greedy_ext _ _ (fun st => Some (id st))) by reflexivity.
  rewrite greedy_all. unfold id. cbn [m_rest mr_index mr_text length Nat.add take app].
  change (char_matches false "/") with is_slash.
  rewrite take_take_while. cbn [expand list_ascii_of_string app].
  rewrite take_0. cbn [app]. f_equal.
  rewrite <- (take_drop_while is_slash s) at 2. apply drop_app_length.
Qed.

Lemma pattern_body_simple (pattern : str) :
  one_leading_slash pattern = true -> ("*" ∉ pattern) ->
  exists ts, pattern = pattern_body pattern ++ ts /\ forallb is_slash ts = true.
Proof.
  intros Hone Hstar. unfold pattern_body.
  pose proof (rstrip_split pattern) as Hsplit.
  pose proof (rstrip_last pattern) as Hlast.
  pose proof (trailing_all_slashes pattern) as Hts.
  set (core := rstrip_slashes pattern) in *. set (ts := trailing_slashes pattern) in *.
  assert (replace re_trailing "" pattern = core) as ->.
  { rewrite Hsplit. apply replace_trailing_core; auto.
    intros _ H. apply Hstar. rewrite Hsplit. apply elem_of_app. left.
    apply last_Some in H as [l' ->]. apply elem_of_app. right.
    apply list_elem_of_singleton. reflexivity. }
  rewrite replace_leading.
  destruct pattern as [|c rest]; [discriminate|]. cbn [one_leading_slash] in Hone.
  apply andb_true_iff in Hone as [Hc Hrest]. apply Ascii.eqb_eq in Hc as ->.
  destruct core as [|c0 core'].
  - exists []. split; [|reflexivity]. cbn [drop_while app].
    cbn [app] in Hsplit. rewrite <- Hsplit in Hts. cbn [forallb] in Hts.
    apply andb_true_iff in Hts as [_ Hts].
    destruct rest as [|d rest]; [reflexivity|].
    cbn [forallb] in Hts. apply andb_true_iff in Hts as [Hd _].
    unfold is_slash in Hd. apply Ascii.eqb_eq in Hd as <-. discriminate Hrest.
  - exists ts. split; [|exact Hts].
    cbn [app] in Hsplit. injection Hsplit as <- Hsplit.
    cbn [drop_while]. unfold is_slash at 1. rewrite Ascii.eqb_refl.
    destruct core' as [|d core'']; [exfalso; apply Hlast; reflexivity|].
    cbn [app] in Hsplit. rewrite Hsplit in Hrest. apply negb_true_iff in Hrest.
    cbn [drop_while]. unfold is_slash at 1. rewrite Ascii.eqb_sym, Hrest.
    rewrite Hsplit. reflexivity.
Qed.

Lemma tokens_slashes (ts : str) :
  forallb is_slash ts = true -> tokens_from 0 ts = map TLit ts.
Proof.
  induction ts as [|x ts IH]; [reflexivity|]. cbn [forallb].
  intros H. apply andb_true_iff in H as [Hx Hts].
  unfold is_slash in Hx. apply Ascii.eqb_eq in Hx as <-.
  cbn [tokens_from map]. change (Ascii.eqb "/" ":") with false. cbn [andb].
  rewrite (IH Hts). reflexivity.
Qed.

Lemma slash_not_word (ts : str) :
  forallb is_slash ts = true ->
  match ts with x :: _ => is_word x = false | [] => True end.
Proof.
  destruct ts as [|x ts]; [trivial|]. cbn [forallb]. intros H.
  apply andb_true_iff in H as [Hx _]. unfold is_slash in Hx.
  apply Ascii.eqb_eq in Hx as <-. reflexivity.
Qed.

Lemma tokens_app_slashes (ts : str) :
  forallb is_slash ts = true ->
  forall body skip, (skip <= length body)%nat ->
  tokens_from skip (body ++ ts) = tokens_from skip body ++ map TLit ts.
Proof.
  intros Hts body.
  induction body as [body IH] using (induction_ltof1 _ (@length ascii)).
  unfold ltof in IH. intros skip Hskip.
  destruct body as [|c body].
  - assert (skip = 0%nat) as -> by (cbn in Hskip; lia).
    cbn [app]. apply tokens_slashes, Hts.
  - destruct skip as [|n].
    + cbn [app tokens_from].
      rewrite (take_while_app_end is_word body ts (slash_not_word ts Hts)).
      destruct (Ascii.eqb c ":" && negb (str_eqb (take_while is_word body) [])).
      * cbn [app]. f_equal. apply IH; [cbn; lia|].
        rewrite <- (take_drop_while is_word body) at 2. rewrite length_app. lia.
      * cbn [app]. f_equal. apply IH; cbn; lia.
    + cbn [app tokens_from]. apply IH; cbn in Hskip |- *; lia.
Qed.

(** ** What [generatePath] writes *)

Lemma subst_hits_tokens (params : Params) (f : match_result -> outcome str)
    (ps : list piece) :
  (forall m, is_Some (params !! capture 1 m) ->
     f m = Return (default [] (params !! capture 1 m))) ->
  (forall name, name ∈ token_names (map piece_token ps) -> is_Some (params !! name)) ->
  subst_hits f ps = Return (flat_map (token_value params) (map piece_token ps)).
Proof.
  intros Hf. induction ps as [|p ps IH]; intros Hnames; [reflexivity|].
  destruct p as [c|m]; cbn [subst_hits map flat_map piece_token token_value].
  - rewrite IH; [reflexivity|]. exact Hnames.
  - rewrite Hf.
    2:{ apply Hnames. cbn. apply list_elem_of_here. }
    cbn [mbind outcome_bind]. rewrite IH; [reflexivity|].
    intros name Hin. apply Hnames. cbn. apply list_elem_of_further, Hin.
Qed.

Lemma char_matches_star_slash (x : ascii) :
  char_matches false "/" x = true -> char_matches false "*" x = false.
Proof.
  rewrite char_matches_exact. intros H. apply Ascii.eqb_eq in H as <-. reflexivity.
Qed.

Lemma match_here_trailing_splat (pre rest : str) :
  ("*" ∉ rest) -> match_here re_trailing_splat pre rest = None.
Proof.
  intros Hstar. unfold match_here.
  change (re_ast re_trailing_splat)
    with (RSeq (RStar (RChar "/")) (RSeq (RChar "*") (RSeq REol REmpty))).
  change (re_ignoreCase re_trailing_splat) with false.
  rewrite rmatch_seq. erewrite rmatch_star_atom by reflexivity.
  cbn [m_pre m_rest m_caps].
  rewrite greedy_commit.
  2:{ intros pre' x r caps' Hx. rewrite rmatch_seq.
      erewrite rmatch_atom by reflexivity. unfold step_char. cbn [m_rest].
      rewrite (char_matches_star_slash x Hx). reflexivity. }
  rewrite rmatch_seq. erewrite rmatch_atom by reflexivity. unfold step_char.
  cbn [m_rest].
  assert ("*" ∉ drop_while is_slash rest) as Hd.
  { intros H. apply Hstar. rewrite <- (take_drop_while is_slash rest).
    apply elem_of_app. right. exact H. }
  change (char_matches false "/") with is_slash.
  destruct (drop_while is_slash rest) as [|x r]; [reflexivity|].
  rewrite char_matches_exact.
  destruct (Ascii.eqb_spec "*" x) as [<-|]; [|reflexivity].
  exfalso. apply Hd. apply list_elem_of_here.
Qed.

Lemma match_from_trailing_splat (rest : str) :
  ("*" ∉ rest) -> forall pre, match_from re_trailing_splat pre rest = None.
Proof.
  induction rest as [|c rest IH]; intros Hstar pre; cbn [match_from];
    rewrite match_here_trailing_splat by exact Hstar; [reflexivity|].
  apply IH. intros H. apply Hstar. apply list_elem_of_further, H.
Qed.

Lemma replace_trailing_splat (f : match_result -> str) (s : str) :
  ("*" ∉ s) -> replace_with re_trailing_splat f s = s.
Proof.
  intros Hstar. rewrite replace_with_first by reflexivity. unfold RegExp_exec.
  rewrite (match_from_trailing_splat s Hstar []). reflexivity.
Qed.

Lemma generatePath_tokens (pattern : str) (params : Params) :
  (forall name, name ∈ token_names (tokens pattern) -> is_Some (params !! name)) ->
  ("*" ∉ flat_map (token_value params) (tokens pattern)) ->
  generatePath pattern params
  = Return (flat_map (token_value params) (tokens pattern)).
Proof.
  intros Hnames Hstar. unfold generatePath.
  pose proof (pieces_param_tokens pattern 0 []) as Hp. fold (pieces re_param pattern) in Hp.
  change (tokens_from 0 pattern) with (tokens pattern) in Hp.
  erewrite (subst_hits_tokens params).
  2:{ intros m Hm. cbv zeta. unfold get_param. destruct Hm as [v ->].
      rewrite bool_decide_eq_true_2 by (eexists; reflexivity). reflexivity. }
  2:{ rewrite Hp. exact Hnames. }
  rewrite Hp. cbn [mbind outcome_bind].
  rewrite replace_trailing_splat by exact Hstar. reflexivity.
Qed.

(** ** No star in a simple pattern, nor in the text written for it *)

Lemma word_not_star (c : ascii) : is_word c = true -> c <> "*".
Proof. intros H ->. discriminate H. Qed.

Lemma unreserved_plain (c : ascii) :
  is_unreserved c = true -> c <> "/" /\ c <> "%" /\ c <> "*".
Proof. intros H. repeat split; intros ->; discriminate H. Qed.

Lemma url_safe_plain (v : str) :
  url_safe v = true -> ("/" ∉ v) /\ ("%" ∉ v) /\ ("*" ∉ v).
Proof.
  unfold url_safe. rewrite forallb_forall. intros H.
  repeat split; intros Hin; apply list_elem_of_In, H, unreserved_plain in Hin;
    destruct Hin as (? & ? & ?); congruence.
Qed.

Lemma segment_no_star (s : str) : simple_segment s = true -> "*" ∉ s.
Proof.
  unfold simple_segment. intros H Hin. apply orb_true_iff in H as [H|H].
  - destruct s as [|c name]; [discriminate|]. cbn [is_param_form] in H.
    apply andb_true_iff in H as [H Hw]. apply andb_true_iff in H as [Hc _].
    apply Ascii.eqb_eq in Hc as ->.
    apply elem_of_cons in Hin as [Hin|Hin]; [discriminate|].
    rewrite forallb_forall in Hw. apply list_elem_of_In, Hw in Hin. discriminate Hin.
  - unfold literal_segment in H. rewrite forallb_forall in H.
    apply list_elem_of_In, H in Hin. discriminate Hin.
Qed.

Lemma join_no_star (segments : list str) :
  forallb simple_segment segments = true -> "*" ∉ join s!"/" segments.
Proof.
  induction segments as [|s rest IH]; [intros _ H; inversion H|].
  cbn [forallb]. intros H. apply andb_true_iff in H as [Hs Hrest].
  destruct rest as [|s2 rest]; [apply segment_no_star, Hs|].
  rewrite join_cons. intros Hin.
  apply elem_of_app in Hin as [Hin|Hin]; [exact (segment_no_star s Hs Hin)|].
  cbn [list_ascii_of_string app] in Hin.
  apply elem_of_cons in Hin as [Hin|Hin]; [discriminate|]. exact (IH Hrest Hin).
Qed.

Lemma flat_map_literals (params : Params) (s : str) :
  flat_map (token_value params) (map TLit s) = s.
Proof. induction s as [|c s IH]; [reflexivity|]. cbn. rewrite IH. reflexivity. Qed.

Lemma segment_value_no_star (params : Params) (s : str) :
  simple_segment s = true ->
  (forall name, "*" ∉ param_value params name) ->
  "*" ∉ flat_map (token_value params) (segment_tokens s).
Proof.
  intros Hs Hval. unfold segment_tokens.
  destruct (is_param_form s) eqn:E.
  - cbn [flat_map token_value]. rewrite app_nil_r. apply Hval.
  - rewrite flat_map_literals. apply segment_no_star, Hs.
Qed.

Lemma generated_no_star (params : Params) (segments : list str) :
  forallb simple_segment segments = true ->
  (forall name, "*" ∉ param_value params name) ->
  "*" ∉ flat_map (token_value params) (join_tokens segments).
Proof.
  intros Hsegs Hval. induction segments as [|s rest IH]; [intros H; inversion H|].
  cbn [forallb] in Hsegs. apply andb_true_iff in Hsegs as [Hs Hrest].
  destruct rest as [|s2 rest]; [apply segment_value_no_star; assumption|].
  rewrite join_tokens_cons, flat_map_app. intros Hin.
  apply elem_of_app in Hin as [Hin|Hin];
    [exact (segment_value_no_star params s Hs Hval Hin)|].
  cbn [flat_map token_value app] in Hin.
  apply elem_of_cons in Hin as [Hin|Hin]; [discriminate|]. exact (IH Hrest Hin).
Qed.

Lemma no_star_endsWith (s : str) : ("*" ∉ s) -> endsWith s s!"*" = false.
Proof.
  intros Hstar. destruct (endsWith s s!"*") eqn:E; [|reflexivity].
  apply endsWith_last, last_Some in E as [l' ->].
  exfalso. apply Hstar, elem_of_app. right. apply list_elem_of_here.
Qed.

(** ** The matcher of a simple pattern on the text written for it *)

Lemma slashes_char_matches (ic : bool) (ts : str) :
  forallb is_slash ts = true -> forallb (char_matches ic "/") ts = true.
Proof.
  rewrite !forallb_forall. intros H x Hx. specialize (H x Hx).
  unfold is_slash in H. apply Ascii.eqb_eq in H as <-. apply char_matches_refl.
Qed.

Lemma match_here_generated (pattern : str) (params : Params) (ts : str) :
  endsWith pattern s!"*" = false ->
  forallb is_slash ts = true ->
  delimited (tokens (pattern_body pattern)) = true ->
  param_values_ok params (tokens (pattern_body pattern)) ->
  match_here (pattern_RegExp pattern false true) []
    (flat_map (token_value params) (tokens (pattern_body pattern)) ++ ts)
  = Some (MatchResult 0
            (flat_map (token_value params) (tokens (pattern_body pattern)) ++ ts)
            (map Some (map (param_value params)
                         (token_names (tokens (pattern_body pattern)))))).
Proof.
  intros Hends Hts Hdel Hok.
  set (toks := tokens (pattern_body pattern)) in *.
  set (generated := flat_map (token_value params) toks).
  assert (rmatch true (re_ast (pattern_RegExp pattern false true)) Some
            (MState [] (generated ++ ts) [])
          = Some (MState (rev ts ++ rev generated ++ []) []
                    (token_caps params 0 toks []))) as Hrun.
  { cbn [re_ast pattern_RegExp]. unfold pattern_regex, tail_atoms. rewrite Hends.
    fold toks. cbn [foldr]. rewrite foldr_app. rewrite rmatch_seq, rmatch_bol.
    cbn [m_pre]. apply match_tokens; auto.
    cbn [foldr]. rewrite rmatch_seq. erewrite rmatch_star_atom by reflexivity.
    cbn [m_pre m_rest m_caps]. rewrite greedy_eol_re.
    rewrite slashes_char_matches by exact Hts. reflexivity. }
  unfold match_here. change (re_ignoreCase (pattern_RegExp pattern false true)) with true.
  rewrite Hrun. cbn [m_rest m_caps length]. rewrite Nat.sub_0_r, firstn_all.
  rewrite (groups_of_tokens _ params toks); [reflexivity|].
  cbn [re_groups pattern_RegExp]. unfold tail_groups. rewrite Hends. fold toks. lia.
Qed.

(** ** The round trip *)

Lemma token_names_literals (s : str) : token_names (map TLit s) = [].
Proof. induction s as [|c s IH]; [reflexivity|]. exact IH. Qed.

Lemma paramNames_of_simple (pattern : str) :
  endsWith pattern s!"*" = false ->
  paramNames_of pattern = token_names (tokens (pattern_body pattern)).
Proof.
  intros Hends. unfold paramNames_of. rewrite Hends, app_nil_r.
  apply (names_source (pattern_body pattern)).
Qed.

(** C6, first failing input: a pattern without a leading slash.  The text
    written for ["users/:id"] and [id = "1"] is ["users/1"], and the
    matcher of the pattern, which always starts with [^/], does not match
    it. *)
Lemma generatePath_relative_counterexample :
  forallb simple_segment (split "/" s!"users/:id") = true
  /\ pattern_names s!"users/:id" = [s!"id"]
  /\ url_safe s!"1" = true
  /\ generatePath s!"users/:id" {[ s!"id" := s!"1" ]} = Return s!"users/1"
  /\ matchPath (PatString s!"users/:id") s!"users/1" = Return None.
Proof. repeat split; vm_compute; reflexivity. Qed.

(** The same happens with two leading slashes, of which the matcher
    keeps one. *)
Lemma generatePath_slashes_counterexample :
  forallb simple_segment (split "/" s!"//a") = true
  /\ pattern_names s!"//a" = []
  /\ generatePath s!"//a" ∅ = Return s!"//a"
  /\ matchPath (PatString s!"//a") s!"//a" = Return None.
Proof. repeat split; vm_compute; reflexivity. Qed.

(** An empty value is written as nothing, and a [:name] group needs one
    character at least. *)
Lemma generatePath_empty_counterexample :
  url_safe [] = true
  /\ generatePath s!"/users/:id" {[ s!"id" := [] ]} = Return s!"/users/"
  /\ matchPath (PatString s!"/users/:id") s!"/users/" = Return None.
Proof. repeat split; vm_compute; reflexivity. Qed.

(** A key of the mapping that the pattern does not name is not among the
    parameters of the match. *)
Lemma generatePath_extra_counterexample :
  exists pm,
    generatePath s!"/users/:id" {[ s!"id" := s!"1"; s!"tab" := s!"x" ]}
    = Return s!"/users/1"
    /\ matchPath (PatString s!"/users/:id") s!"/users/1" = Return (Some pm)
    /\ pm_params pm = {[ s!"id" := s!"1" ]}
    /\ pm_params pm <> {[ s!"id" := s!"1"; s!"tab" := s!"x" ]}.
Proof.
  eexists. split; [vm_compute; reflexivity|]. split; [vm_compute; reflexivity|].
  split; [vm_compute; reflexivity|].
  intros H. apply (f_equal (fun m : Params => m !! s!"tab")) in H.
  vm_compute in H. discriminate H.
Qed.

(** A parameter named [__proto__] is never among the parameters of a
    match: the assignment [memo['__proto__'] = value] reaches the setter
    of [Object.prototype], which ignores a string.  So a mapping with an
    own property of that name is not given back. *)
Lemma generatePath_proto_counterexample :
  exists pm,
    one_leading_slash s!"/:__proto__" = true
    /\ forallb simple_segment (split "/" s!"/:__proto__") = true
    /\ pattern_names s!"/:__proto__" = [s!"__proto__"]
    /\ url_safe s!"x" = true
    /\ generatePath s!"/:__proto__" {[ s!"__proto__" := s!"x" ]} = Return s!"/x"
    /\ matchPath (PatString s!"/:__proto__") s!"/x" = Return (Some pm)
    /\ pm_params pm = ∅
    /\ pm_params pm <> {[ s!"__proto__" := s!"x" ]}.
Proof.
  eexists. do 6 (split; [vm_compute; reflexivity|]).
  split; [vm_compute; reflexivity|].
  intros H. apply (f_equal (fun m : Params => m !! s!"__proto__")) in H.
  vm_compute in H. discriminate H.
Qed.

(** C6, amended: for a pattern that begins with exactly one slash and
    whose segments are literals (without colon or star) or of the form
    [:name], with no name [__proto__], and a mapping whose keys are
    exactly the names of the pattern and whose values are non-empty
    texts of unreserved characters, [generatePath] returns a text,
    [matchPath] of the pattern on that text returns a match, and the
    parameters of the match are the mapping. *)
Theorem generatePath_matchPath (pattern : str) (params : Params) :
  one_leading_slash pattern = true ->
  forallb simple_segment (split "/" pattern) = true ->
  s!"__proto__" ∉ pattern_names pattern ->
  (forall name, name ∈ pattern_names pattern ->
     exists v, params !! name = Some v /\ v <> [] /\ url_safe v = true) ->
  (forall name, is_Some (params !! name) -> name ∈ pattern_names pattern) ->
  exists generated pm,
    generatePath pattern params = Return generated
    /\ matchPath (PatString pattern) generated = Return (Some pm)
    /\ pm_params pm = params.
Proof.
  intros Hone Hsimple Hproto Hvals Hkeys.
  assert ("*" ∉ pattern) as Hstar.
  { rewrite <- (join_split "/" pattern). apply (join_no_star _ Hsimple). }
  pose proof (no_star_endsWith pattern Hstar) as Hends.
  pose proof (tokens_simple pattern Hsimple) as Htoks.
  assert (token_names (tokens pattern) = pattern_names pattern) as Hnames.
  { rewrite Htoks. apply join_tokens_names. }
  assert (forall name, url_safe (param_value params name) = true) as Hsafe.
  { intros name. unfold param_value. destruct (params !! name) as [v|] eqn:E;
      [|reflexivity].
    destruct (Hvals name (Hkeys name (mk_is_Some _ _ E))) as (v' & Hv' & _ & Hs).
    rewrite E in Hv'. injection Hv' as <-. exact Hs. }
  destruct (pattern_body_simple pattern Hone Hstar) as (ts & Hpat & Hts).
  set (body := pattern_body pattern) in *.
  assert (tokens pattern = tokens body ++ map TLit ts) as Hsplit.
  { unfold tokens. rewrite Hpat at 1. apply tokens_app_slashes; [exact Hts | lia]. }
  assert (token_names (tokens body) = pattern_names pattern) as Hbody.
  { rewrite <- Hnames, Hsplit, token_names_app, token_names_literals, app_nil_r.
    reflexivity. }
  assert (delimited (tokens body) = true) as Hdel.
  { apply (delimited_app_l _ (map TLit ts)). rewrite <- Hsplit, Htoks.
    apply join_tokens_delimited. }
  assert (param_values_ok params (tokens body)) as Hok.
  { intros name Hin. rewrite Hbody in Hin.
    destruct (Hvals name Hin) as (v & Hv & Hne & Hs).
    exists v. split; [exact Hv|]. split; [exact Hne|]. apply url_safe_plain, Hs. }
  assert (generatePath pattern params
          = Return (flat_map (token_value params) (tokens pattern))) as Hgen.
  { apply generatePath_tokens.
    - intros name Hin. rewrite Hnames in Hin.
      destruct (Hvals name Hin) as (v & -> & _). eexists. reflexivity.
    - rewrite Htoks. apply generated_no_star; [exact Hsimple|].
      intros name. apply url_safe_plain, Hsafe. }
  pose proof (matchPath_unfold (PatString pattern)
                (flat_map (token_value params) (tokens pattern))) as Hm.
  change (matcher_of (PatString pattern)) with (pattern_RegExp pattern false true) in Hm.
  change (pat_path (pattern_of (PatString pattern))) with pattern in Hm.
  rewrite Hsplit in Hm at 2. rewrite flat_map_app, flat_map_literals in Hm.
  pose proof (match_here_generated pattern params ts Hends Hts Hdel Hok) as Hhere.
  pose proof (paramNames_of_simple pattern Hends) as Hpn.
  fold body in Hhere, Hpn. rewrite Hhere, Hpn in Hm. cbn [mr_text mr_groups] in Hm.
  destruct (fold_left _ _ _) as [memo base] eqn:Efold in Hm.
  eexists _, _. split; [exact Hgen|]. split; [exact Hm|]. cbn [pm_params].
  apply (f_equal fst) in Efold. cbn [fst] in Efold. rewrite <- Efold.
  rewrite (param_fold_values params) by (rewrite ?Hbody; first
    [ exact Hproto
    | intros j name Hj; cbn [Nat.add]; split;
      [ rewrite !list_lookup_fmap, Hj; reflexivity
      | apply url_safe_plain, Hsafe ] ]).
  apply map_eq. intros k. rewrite fold_insert_lookup.
  destruct (decide (k ∈ token_names (tokens body))) as [Hin|Hnin].
  - rewrite Hbody in Hin.
    destruct (Hvals k Hin) as (v & Hv & _). unfold param_value. rewrite Hv. reflexivity.
  - rewrite lookup_empty. destruct (params !! k) as [v|] eqn:E; [|reflexivity].
    exfalso. apply Hnin. rewrite Hbody.
    apply Hkeys. rewrite E. eexists. reflexivity.
Qed.

Lemma generatePath_matchPath_witness :
  exists generated pm,
    generatePath s!"/users/:id" {[ s!"id" := s!"42" ]} = Return generated
    /\ matchPath (PatString s!"/users/:id") generated = Return (Some pm)
    /\ pm_params pm = {[ s!"id" := s!"42" ]}.
Proof.
  apply (generatePath_matchPath s!"/users/:id" {[ s!"id" := s!"42" ]}).
  - reflexivity.
  - reflexivity.
  - intros Hin. vm_compute in Hin. apply list_elem_of_singleton in Hin.
    discriminate Hin.
  - intros name Hin. vm_compute in Hin. apply list_elem_of_singleton in Hin as ->.
    exists s!"42". split; [apply lookup_singleton_eq|]. split; [discriminate|reflexivity].
  - intros name [v Hv]. apply lookup_singleton_Some in Hv as [<- _].
    vm_compute. apply list_elem_of_here.
Defined.

(** ** The matcher [compilePath] builds *)

Lemma tokens_from_names (s : str) :
  forall skip name, name ∈ token_names (tokens_from skip s) -> is_name name = true.
Proof.
  induction s as [s IH] using (induction_ltof1 _ (@length ascii)).
  unfold ltof in IH. intros skip name Hin.
  destruct s as [|c s]; [destruct skip; inversion Hin|].
  destruct skip as [|n]; cbn [tokens_from] in Hin.
  - destruct (Ascii.eqb c ":" && negb (str_eqb (take_while is_word s) [])) eqn:E.
    + cbn in Hin. apply elem_of_cons in Hin as [->|Hin].
      * apply andb_true_iff in E as [_ E]. unfold is_name. rewrite E.
        apply take_while_all.
      * apply (IH s) in Hin; [exact Hin | cbn; lia].
    + cbn in Hin. apply (IH s) in Hin; [exact Hin | cbn; lia].
  - apply (IH s) in Hin; [exact Hin | cbn; lia].
Qed.

Lemma paramNames_of_tokens (path : str) :
  paramNames_of path
  = token_names (tokens (pattern_body path))
    ++ (if endsWith path s!"*" then [s!"*"] else []).
Proof. unfold paramNames_of. f_equal. apply (names_source (pattern_body path)). Qed.

Lemma paramNames_of_length (path : str) (caseSensitive end_ : bool) :
  length (paramNames_of path) = re_groups (pattern_RegExp path caseSensitive end_).
Proof.
  rewrite paramNames_of_tokens, length_app. cbn [re_groups pattern_RegExp].
  unfold param_count, tail_groups. destruct (endsWith path s!"*"); reflexivity.
Qed.

(** X1: [compilePath] never throws: whatever the path, the source it
    builds is read by [new RegExp].  The matcher has one capture group for
    each parameter name, ignores case unless [caseSensitive] is [true],
    and is not global; the names are non-empty words, followed by [*]
    exactly when the path ends with a star. *)
Theorem compilePath_compiles (path : str) (caseSensitive end_ : option bool) :
  exists matcher paramNames,
    snd (compilePath path caseSensitive end_) = Return (matcher, paramNames)
    /\ re_groups matcher = length paramNames
    /\ re_ignoreCase matcher = negb (default false caseSensitive)
    /\ re_global matcher = false
    /\ (exists names,
          paramNames = names ++ (if endsWith path s!"*" then [s!"*"] else [])
          /\ forallb is_name names = true).
Proof.
  eexists _, _. split; [apply compilePath_pattern|].
  split; [symmetry; apply paramNames_of_length|].
  split; [reflexivity|]. split; [reflexivity|].
  exists (token_names (tokens (pattern_body path))).
  split; [apply paramNames_of_tokens|].
  apply forallb_forall. intros name Hin. apply list_elem_of_In in Hin.
  exact (tokens_from_names _ _ _ Hin).
Qed.

(** ** What [matchPath] returns *)

Lemma set_param_is_Some (memo : Params) (key value name : str) :
  is_Some (set_param memo key value !! name)
  <-> (name = key /\ key <> s!"__proto__") \/ is_Some (memo !! name).
Proof.
  unfold set_param.
  destruct (str_eqb key s!"__proto__") eqn:Ekey; cbn [andb].
  - apply str_eqb_eq in Ekey. destruct (bool_decide_reflect (memo !! key = None)) as [Hn|Hs].
    + split; [intros H; right; exact H|]. intros [[_ H]|H]; [congruence | exact H].
    + destruct (decide (name = key)) as [->|Hne].
      * rewrite lookup_insert_eq. split; [|intros _; eexists; reflexivity].
        intros _. right. destruct (memo !! key); [eexists; reflexivity | congruence].
      * rewrite lookup_insert_ne by congruence.
        split; [intros H; right; exact H|]. intros [[H _]|H]; [congruence | exact H].
  - apply str_eqb_neq in Ekey. destruct (decide (name = key)) as [->|Hne].
    + rewrite lookup_insert_eq. split; [|intros _; eexists; reflexivity].
      intros _. left. split; [reflexivity | exact Ekey].
    + rewrite lookup_insert_ne by congruence.
      split; [intros H; right; exact H|]. intros [[H _]|H]; [congruence | exact H].
Qed.

Lemma param_fold_keys (matched : str) (groups : list (option str))
    (entries : list (nat * str)) :
  forall memo base name,
  is_Some (fst (fold_left (param_step matched groups) entries (memo, base)) !! name)
  <-> (name ∈ map snd entries /\ name <> s!"__proto__") \/ is_Some (memo !! name).
Proof.
  induction entries as [|[index paramName] entries IH]; intros memo base name;
    cbn [fold_left map snd].
  - rewrite elem_of_nil. tauto.
  - unfold param_step at 2. rewrite IH, set_param_is_Some, elem_of_cons.
    split.
    + intros [[H Hn]|[[-> Hn]|H]]; [left | left | right]; tauto.
    + intros [[[->|H] Hn]|H]; tauto.
Qed.

Lemma map_snd_zip_seq {A : Type} (l : list A) (i : nat) :
  map snd (zip (seq i (length l)) l) = l.
Proof.
  revert i. induction l as [|x l IH]; intros i; [reflexivity|].
  cbn. rewrite IH. reflexivity.
Qed.

(** X2: the own keys of the parameters of a match are exactly the names
    of the pattern other than [__proto__]: every such [:name] of the
    path and, for a path that ends with a star, the splat [*].  Each of
    them has a value, whatever was captured; a parameter named
    [__proto__] is never written, since the assignment to that name on
    a plain object sets no own property. *)
Theorem matchPath_params_keys (pattern : PatternArg) (pathname : str) (pm : PathMatch) :
  matchPath pattern pathname = Return (Some pm) ->
  forall name,
    is_Some (pm_params pm !! name)
    <-> name <> s!"__proto__"
        /\ (name ∈ token_names (tokens (pattern_body (pat_path (pattern_of pattern))))
            \/ (name = s!"*" /\ endsWith (pat_path (pattern_of pattern)) s!"*" = true)).
Proof.
  rewrite matchPath_unfold. intros H name.
  destruct (match_here _ _ _) as [m|]; [|discriminate].
  destruct (fold_left _ _ _) as [memo base] eqn:Efold.
  injection H as <-. cbn [pm_params].
  apply (f_equal fst) in Efold. cbn [fst] in Efold. rewrite <- Efold.
  rewrite param_fold_keys, map_snd_zip_seq, lookup_empty, paramNames_of_tokens.
  rewrite elem_of_app.
  assert (s!"*" <> s!"__proto__") as Hstar by discriminate.
  destruct (endsWith _ s!"*").
  - rewrite list_elem_of_singleton. split.
    + intros [[[H|H] Hn]|H]; [tauto | tauto | destruct H; discriminate].
    + intros [Hn [H|[H _]]]; tauto.
  - rewrite elem_of_nil. split.
    + intros [[[H|H] Hn]|H]; [tauto | tauto | destruct H; discriminate].
    + intros [Hn [H|[_ H]]]; [tauto | discriminate].
Qed.

Lemma matchPath_params_keys_witness :
  is_Some (({[ s!"id" := s!"42" ]} : Params) !! s!"id")
  <-> s!"id" <> s!"__proto__"
      /\ (s!"id" ∈ token_names (tokens (pattern_body s!"/users/:id"))
          \/ (s!"id" = s!"*" /\ endsWith s!"/users/:id" s!"*" = true)).
Proof.
  refine (matchPath_params_keys (PatString s!"/users/:id") s!"/users/42"
            (MkPathMatch {[ s!"id" := s!"42" ]} s!"/users/42" s!"/users/42"
               (MkPathPattern s!"/users/:id" (Some false) (Some true))) _ s!"id").
  vm_compute. reflexivity.
Defined.

(** Whatever a matcher returns was returned by its continuation. *)
Lemma star_loop_through (body : cont -> cont) (k : cont) :
  (forall k' st res, body k' st = Some res -> exists st', k' st' = Some res) ->
  forall fuel st res,
  star_loop body k fuel st = Some res -> exists st', k st' = Some res.
Proof.
  intros Hbody. induction fuel as [|fuel IH]; intros st res; cbn [star_loop].
  - intros H. eauto.
  - unfold or_else. destruct (body _ st) as [x|] eqn:E.
    + intros [= ->]. apply Hbody in E as [st' E].
      destruct (progress st st'); [|discriminate]. eauto.
    + intros H. eauto.
Qed.

Lemma rmatch_through (ic : bool) (r : regex) :
  forall k st res, rmatch ic r k st = Some res -> exists st', k st' = Some res.
Proof.
  assert (forall p k st res, step_char p k st = Some res -> exists st', k st' = Some res)
    as Hstep.
  { intros p k st res. unfold step_char. destruct (m_rest st) as [|x rest];
      [discriminate|]. destruct (p x); [eauto | discriminate]. }
  induction r as [| c | | neg items | | | neg | a IHa b IHb | a IHa b IHb
                  | a IHa | a IHa | a IHa | n a IHa];
    intros k st res; cbn [rmatch]; eauto.
  - destruct (m_pre st); [eauto | discriminate].
  - destruct (m_rest st); [eauto | discriminate].
  - destruct (xorb neg (at_boundary st)); [eauto | discriminate].
  - intros H. apply IHa in H as [st' H]. eauto.
  - unfold or_else. destruct (rmatch ic a k st) eqn:E; [intros [= ->]|]; eauto.
  - apply star_loop_through. exact IHa.
  - intros H. apply IHa in H as [st' H].
    apply (star_loop_through _ _ IHa) in H. exact H.
  - unfold or_else. destruct (rmatch ic a _ st) as [x|] eqn:E.
    + intros [= ->]. apply IHa in E as [st' E].
      destruct (progress st st'); [eauto | discriminate].
    + eauto.
  - intros H. apply IHa in H as [st' H]. eauto.
Qed.

Lemma rmatch_foldr_through (ic : bool) (R : regex) (k : cont) (l : list regex) :
  forall st res,
  rmatch ic (foldr RSeq R l) k st = Some res ->
  exists st', rmatch ic R k st' = Some res.
Proof.
  induction l as [|a l IH]; intros st res; cbn [foldr]; [eauto|].
  rewrite rmatch_seq. intros H. apply rmatch_through in H as [st' H]. eauto.
Qed.

Lemma tail_atoms_eol (n : nat) (path : str) (end_ : bool) :
  end_ || endsWith path s!"*" = true ->
  exists front, tail_atoms n path end_ = front ++ [REol].
Proof.
  unfold tail_atoms. intros H. destruct (endsWith path s!"*").
  - destruct (str_eqb path s!"*" || str_eqb path s!"/*");
      [exists [RGroup (S n) (RSeq (RStar RAny) REmpty)]; reflexivity|].
    eexists [_]. reflexivity.
  - rewrite orb_false_r in H. subst end_. exists [RStar (RChar "/")]. reflexivity.
Qed.

Lemma match_here_whole (path : str) (caseSensitive end_ : bool) (pathname : str)
    (m : match_result) :
  end_ || endsWith path s!"*" = true ->
  match_here (pattern_RegExp path caseSensitive end_) [] pathname = Some m ->
  mr_text m = pathname.
Proof.
  intros Hend. unfold match_here. cbn [re_ast re_ignoreCase pattern_RegExp].
  destruct (rmatch _ _ _ _) as [st'|] eqn:E; [|discriminate].
  intros [= <-]. cbn [mr_text].
  unfold pattern_regex in E.
  destruct (tail_atoms_eol (param_count (tokens (pattern_body path))) path end_ Hend)
    as [front Hfront].
  rewrite Hfront, app_assoc, app_comm_cons, foldr_app in E. cbn [foldr] in E.
  apply rmatch_foldr_through in E as [st1 E].
  rewrite rmatch_seq, rmatch_eol in E.
  destruct (m_rest st1) eqn:E1; [|discriminate].
  rewrite rmatch_empty in E. injection E as <-. rewrite E1. cbn [length].
  rewrite Nat.sub_0_r. apply firstn_all.
Qed.

(** X3: a pattern that is matched to the end ([end] not [false], or a
    path that ends with a star) matches the whole pathname or nothing: the
    [pathname] of a match is the pathname given. *)
Theorem matchPath_whole (pattern : PatternArg) (pathname : str) (pm : PathMatch) :
  to_the_end (pattern_of pattern) = true ->
  matchPath pattern pathname = Return (Some pm) ->
  pm_pathname pm = pathname /\ pm_pattern pm = pattern_of pattern.
Proof.
  intros Hend. rewrite matchPath_unfold.
  destruct (match_here _ _ _) as [m|] eqn:E; [|discriminate].
  destruct (fold_left _ _ _) as [memo base]. intros [= <-]. cbn [pm_pathname pm_pattern].
  split; [|reflexivity]. exact (match_here_whole _ _ _ _ _ Hend E).
Qed.

Lemma matchPath_whole_witness :
  pm_pathname
    (MkPathMatch {[ s!"*" := s!"a/b" ]} s!"/files/a/b" s!"/files"
       (MkPathPattern s!"/files/*" None (Some false)))
  = s!"/files/a/b"
  /\ pm_pattern
       (MkPathMatch {[ s!"*" := s!"a/b" ]} s!"/files/a/b" s!"/files"
          (MkPathPattern s!"/files/*" None (Some false)))
     = pattern_of (PatObject (MkPathPattern s!"/files/*" None (Some false))).
Proof.
  apply (matchPath_whole (PatObject (MkPathPattern s!"/files/*" None (Some false)))
           s!"/files/a/b").
  - reflexivity.
  - vm_compute. reflexivity.
Defined.

(** ** [generatePath] in closed form *)

Lemma get_param_splat (params : Params) : get_param params s!"*" = params !! s!"*".
Proof. unfold get_param. destruct (params !! s!"*"); reflexivity. Qed.

Lemma token_written_literals (params : Params) (s : str) :
  flat_map (token_written params) (map TLit s) = s.
Proof. induction s as [|c s IH]; [reflexivity|]. cbn. rewrite IH. reflexivity. Qed.

Lemma subst_hits_missing (params : Params) (f : match_result -> outcome str)
    (ps : list piece) :
  (forall m,
     f m = if bool_decide (is_Some (get_param params (capture 1 m)))
           then Return (default [] (get_param params (capture 1 m)))
           else Throw (missing_message (capture 1 m))) ->
  subst_hits f ps
  = match first_missing params (token_names (map piece_token ps)) with
    | Some key => Throw (missing_message key)
    | None => Return (flat_map (token_written params) (map piece_token ps))
    end.
Proof.
  intros Hf. induction ps as [|p ps IH]; [reflexivity|].
  destruct p as [c|m]; cbn [subst_hits map piece_token].
  - rewrite IH. change (token_names (TLit c :: map piece_token ps))
      with (token_names (map piece_token ps)).
    destruct (first_missing _ _); reflexivity.
  - change (token_names (TParam (capture 1 m) :: map piece_token ps))
      with (capture 1 m :: token_names (map piece_token ps)).
    cbn [first_missing]. rewrite Hf.
    destruct (bool_decide (is_Some (get_param params (capture 1 m)))); [|reflexivity].
    cbn [mbind outcome_bind]. rewrite IH.
    destruct (first_missing _ _); reflexivity.
Qed.

Lemma splat_cont (st : mstate) :
  rmatch false (RSeq (RChar "*") (RSeq REol REmpty)) Some st
  = if str_eqb (m_rest st) s!"*"
    then Some (MState ("*" :: m_pre st) [] (m_caps st)) else None.
Proof.
  rewrite rmatch_seq. erewrite rmatch_atom by reflexivity. unfold step_char.
  destruct (m_rest st) as [|x r]; [reflexivity|].
  rewrite char_matches_exact. cbn [str_eqb list_ascii_of_string].
  rewrite (Ascii.eqb_sym x). destruct (Ascii.eqb_spec "*" x) as [<-|]; [|reflexivity].
  cbn [andb]. rewrite rmatch_seq, rmatch_eol. cbn [m_rest].
  destruct r; reflexivity.
Qed.

Lemma match_here_splat (pre rest : str) :
  match_here re_trailing_splat pre rest
  = if str_eqb (drop_while is_slash rest) s!"*"
    then Some (MatchResult (length pre) rest []) else None.
Proof.
  unfold match_here.
  change (re_ast re_trailing_splat)
    with (RSeq (RStar (RChar "/")) (RSeq (RChar "*") (RSeq REol REmpty))).
  change (re_ignoreCase re_trailing_splat) with false.
  rewrite rmatch_seq. erewrite rmatch_star_atom by reflexivity.
  cbn [m_pre m_rest m_caps].
  rewrite greedy_commit.
  2:{ intros pre' x r caps' Hx. rewrite splat_cont. cbn [m_rest].
      rewrite char_matches_exact in Hx. apply Ascii.eqb_eq in Hx as <-. reflexivity. }
  rewrite splat_cont. cbn [m_rest m_pre m_caps].
  change (char_matches false "/") with is_slash.
  destruct (str_eqb (drop_while is_slash rest) s!"*"); [|reflexivity].
  cbn [m_rest length]. rewrite Nat.sub_0_r, firstn_all. reflexivity.
Qed.

Lemma splat_inside (u t : str) :
  u <> [] -> last u <> Some "/" -> forallb is_slash t = true ->
  str_eqb (drop_while is_slash (u ++ t ++ s!"*")) s!"*" = false.
Proof.
  intros Hu Hlast Ht.
  assert (drop_while is_slash u <> []) as Hd.
  { intros Hd. apply drop_while_all in Hd.
    destruct (last u) as [x|] eqn:E.
    - pose proof (last_forallb _ _ _ Hd E) as Hx. unfold is_slash in Hx.
      apply Ascii.eqb_eq in Hx as <-. congruence.
    - apply last_None in E. congruence. }
  rewrite (drop_while_app_stop _ _ _ Hd).
  apply str_eqb_neq. intros H.
  destruct (drop_while is_slash u) as [|x d]; [congruence|].
  cbn [app list_ascii_of_string] in H. injection H as _ H.
  destruct d; [destruct t; discriminate H | discriminate H].
Qed.

Lemma match_from_splat (q t : str) :
  last q <> Some "/" -> forallb is_slash t = true ->
  forall pre,
  match_from re_trailing_splat pre (q ++ t ++ s!"*")
  = Some (MatchResult (length pre + length q) (t ++ s!"*") []).
Proof.
  intros Hlast Ht. induction q as [|c q IH]; intros pre.
  - cbn [app length]. rewrite Nat.add_0_r.
    assert (match_here re_trailing_splat pre (t ++ s!"*")
            = Some (MatchResult (length pre) (t ++ s!"*") [])) as H.
    { rewrite match_here_splat.
      assert (drop_while is_slash (t ++ s!"*") = s!"*") as ->; [|reflexivity].
      induction t as [|x t IHt]; [reflexivity|].
      cbn in Ht |- *. apply andb_true_iff in Ht as [-> Ht]. auto. }
    destruct (t ++ s!"*"); cbn [match_from]; rewrite H; reflexivity.
  - cbn [app match_from]. change (c :: q ++ t ++ s!"*") with ((c :: q) ++ t ++ s!"*").
    rewrite match_here_splat, splat_inside by (auto; discriminate).
    cbn [app]. rewrite IH.
    + cbn [length]. do 2 f_equal. lia.
    + destruct q as [|d q]; [discriminate|]. exact Hlast.
Qed.

Lemma match_from_no_splat (rest : str) :
  last rest <> Some "*" -> forall pre, match_from re_trailing_splat pre rest = None.
Proof.
  induction rest as [|c rest IH]; intros Hlast pre; cbn [match_from];
    rewrite match_here_splat.
  - reflexivity.
  - destruct (str_eqb _ s!"*") eqn:E.
    + exfalso. apply Hlast. apply str_eqb_eq in E.
      rewrite <- (take_drop_while is_slash (c :: rest)), E.
      apply last_snoc.
    + apply IH. destruct rest as [|d rest]; [discriminate|]. exact Hlast.
Qed.

Lemma replace_with_splat (f : match_result -> str) (q t : str) :
  last q <> Some "/" -> forallb is_slash t = true ->
  replace_with re_trailing_splat f (q ++ t ++ s!"*")
  = q ++ f (MatchResult (length q) (t ++ s!"*") []).
Proof.
  intros Hlast Ht. rewrite replace_with_first by reflexivity. unfold RegExp_exec.
  rewrite (match_from_splat q t Hlast Ht []).
  cbn [mr_index mr_text length Nat.add]. rewrite take_app_length.
  rewrite <- length_app, drop_all, app_nil_r. reflexivity.
Qed.

Lemma replace_with_no_splat (f : match_result -> str) (s : str) :
  last s <> Some "*" -> replace_with re_trailing_splat f s = s.
Proof.
  intros Hlast. rewrite replace_with_first by reflexivity. unfold RegExp_exec.
  rewrite (match_from_no_splat s Hlast []). reflexivity.
Qed.

Lemma generatePath_stages (path : str) (params : Params) :
  generatePath path params
  = match first_missing params (token_names (tokens path)) with
    | Some key => Throw (missing_message key)
    | None =>
        Return (replace_with re_trailing_splat
                  (fun _ =>
                     match get_param params s!"*" with
                     | None => []
                     | Some v => replace re_leading_slashes "/" v
                     end)
                  (flat_map (token_written params) (tokens path)))
    end.
Proof.
  unfold generatePath.
  pose proof (pieces_param_tokens path 0 []) as Hp. fold (pieces re_param path) in Hp.
  change (tokens_from 0 path) with (tokens path) in Hp.
  erewrite (subst_hits_missing params).
  2:{ intros m. cbv zeta.
      destruct (bool_decide (is_Some (get_param params (capture 1 m)))); reflexivity. }
  rewrite Hp. destruct (first_missing _ _); reflexivity.
Qed.

(** A name that [Object.prototype] defines needs no own value: the
    function [Object] is written for [:constructor], and the error is
    thrown for the first name without any value. *)
Lemma generatePath_inherited :
  generatePath s!"/:constructor" ∅ = Return s!"/function Object() { [native code] }"
  /\ generatePath s!"/:toString/:id" ∅ = Throw (missing_message s!"id").
Proof. split; vm_compute; reflexivity. Qed.

(** X4: [generatePath] throws exactly when a [:name] of the path has no
    value in the mapping, neither an own one nor one inherited from
    [Object.prototype]; the message names the first such name, in the
    order of the path. *)
Theorem generatePath_missing (path : str) (params : Params) :
  match first_missing params (token_names (tokens path)) with
  | Some key => generatePath path params = Throw (missing_message key)
  | None => exists generated, generatePath path params = Return generated
  end.
Proof.
  rewrite generatePath_stages.
  destruct (first_missing _ _); [reflexivity | eexists; reflexivity].
Qed.

Lemma tokens_no_colon (s : str) : ":" ∉ s -> tokens s = map TLit s.
Proof.
  unfold tokens. induction s as [|c s IH]; intros Hc; [reflexivity|].
  cbn [tokens_from map].
  destruct (Ascii.eqb_spec c ":") as [->|Hne].
  - exfalso. apply Hc, list_elem_of_here.
  - cbn [andb]. rewrite IH; [reflexivity|].
    intros H. apply Hc, list_elem_of_further, H.
Qed.

(** X5: a path without colon that does not end with a star is returned
    as it is, whatever the mapping. *)
Theorem generatePath_literal (path : str) (params : Params) :
  ":" ∉ path -> last path <> Some "*" ->
  generatePath path params = Return path.
Proof.
  intros Hc Hlast. rewrite generatePath_stages, (tokens_no_colon path Hc).
  rewrite token_names_literals, token_written_literals. cbn [first_missing].
  rewrite replace_with_no_splat by exact Hlast. reflexivity.
Qed.

Lemma generatePath_literal_witness :
  generatePath s!"/about/team" {[ s!"id" := s!"7" ]} = Return s!"/about/team".
Proof.
  apply generatePath_literal.
  - intros H. apply list_elem_of_In in H. cbn in H.
    repeat (destruct H as [H|H]; [discriminate H|]). exact H.
  - discriminate.
Defined.

(** X6: for a path without colon that ends with a star, the star and
    the slashes before it are replaced by the splat: nothing when the
    mapping has no value for [*], else one slash and the value without
    its leading slashes. *)
Theorem generatePath_splat (q t : str) (params : Params) :
  ":" ∉ q -> last q <> Some "/" -> forallb is_slash t = true ->
  generatePath (q ++ t ++ s!"*") params = Return (q ++ splat_text params).
Proof.
  intros Hc Hlast Ht.
  assert (":" ∉ q ++ t ++ s!"*") as Hc'.
  { intros H. apply elem_of_app in H as [H|H]; [exact (Hc H)|].
    apply elem_of_app in H as [H|H].
    - rewrite forallb_forall in Ht. apply list_elem_of_In, Ht in H. discriminate H.
    - apply list_elem_of_singleton in H. discriminate H. }
  rewrite generatePath_stages, (tokens_no_colon _ Hc').
  rewrite token_names_literals, token_written_literals. cbn [first_missing].
  rewrite (replace_with_splat _ q t Hlast Ht), get_param_splat. unfold splat_text.
  destruct (params !! s!"*") as [v|]; [|reflexivity].
  rewrite replace_leading. reflexivity.
Qed.

Lemma generatePath_splat_witness :
  generatePath (s!"/files" ++ s!"/" ++ s!"*") {[ s!"*" := s!"//a/b" ]}
  = Return (s!"/files" ++ splat_text {[ s!"*" := s!"//a/b" ]}).
Proof.
  apply generatePath_splat.
  - intros H. apply list_elem_of_In in H. cbn in H.
    repeat (destruct H as [H|H]; [discriminate H|]). exact H.
  - discriminate.
  - reflexivity.
Defined.

(** ** [joinPaths] *)

Lemma match_here_slashes (pre rest : str) :
  match_here re_slashes pre rest
  = match rest with
    | x :: y :: r =>
        if is_slash x && is_slash y
        then Some (MatchResult (length pre) (x :: y :: take_while is_slash r) [])
        else None
    | _ => None
    end.
Proof.
  unfold match_here.
  change (re_ast re_slashes)
    with (RSeq (RChar "/") (RSeq (RPlus (RChar "/")) REmpty)).
  change (re_ignoreCase re_slashes) with false.
  rewrite rmatch_seq. erewrite rmatch_atom by reflexivity. unfold step_char at 1.
  cbn [m_rest m_pre m_caps]. change (char_matches false "/") with is_slash.
  destruct rest as [|x rest]; [reflexivity|].
  destruct (is_slash x); [|destruct rest; reflexivity]. cbn [andb].
  rewrite rmatch_seq. erewrite rmatch_plus_atom by reflexivity. unfold step_char.
  cbn [m_rest m_pre m_caps]. change (char_matches false "/") with is_slash.
  destruct rest as [|y r]; [reflexivity|].
  destruct (is_slash y); [|reflexivity].
  rewrite (greedy_ext _ _ (fun st => Some (id st))) by reflexivity.
  rewrite greedy_all. unfold id. cbn [m_rest length].
  do 2 f_equal.
  replace (S (S (length r)) - length (drop_while is_slash r))%nat
    with (S (S (length r - length (drop_while is_slash r)))).
  - cbn [take firstn]. rewrite take_take_while. reflexivity.
  - pose proof (take_while_length is_slash r). rewrite <- (take_drop_while is_slash r) at 1 3.
    rewrite length_app. lia.
Qed.

Lemma pieces_from_skip (re : RegExp) (a : str) :
  forall pre r, pieces_from re (length a) pre (a ++ r) = pieces_from re 0 (rev a ++ pre) r.
Proof.
  induction a as [|c a IH]; intros pre r; [reflexivity|].
  cbn [length app pieces_from rev]. rewrite IH, <- app_assoc. reflexivity.
Qed.

Lemma squeeze_run (t r : str) :
  forallb is_slash t = true -> slash_next r = false ->
  squeeze (t ++ s!"/" ++ r) = "/" :: squeeze r.
Proof.
  intros Ht Hr. induction t as [|x t IH].
  - cbn [app list_ascii_of_string squeeze]. rewrite Hr, andb_false_r. reflexivity.
  - cbn [forallb] in Ht. apply andb_true_iff in Ht as [Hx Ht].
    cbn [app squeeze]. rewrite Hx. cbn [andb].
    assert (slash_next (t ++ s!"/" ++ r) = true) as ->; [|exact (IH Ht)].
    destruct t as [|y t]; [reflexivity|]. cbn in Ht |- *.
    apply andb_true_iff in Ht as [-> _]. reflexivity.
Qed.

Lemma slash_next_drop_while (r : str) : slash_next (drop_while is_slash r) = false.
Proof.
  pose proof (drop_while_stop is_slash r) as H.
  destruct (drop_while is_slash r); [reflexivity | exact H].
Qed.

Lemma replace_slashes (s : str) : replace re_slashes "/" s = squeeze s.
Proof.
  unfold replace, replace_with, pieces.
  assert (forall pre,
            flat_map (fun p => match p with
                               | Keep c => [c]
                               | Hit m => expand s!"/" m
                               end) (pieces_from re_slashes 0 pre s)
            = squeeze s) as H; [|apply H].
  induction s as [s IH] using (induction_ltof1 _ (@length ascii)).
  unfold ltof in IH. intros pre.
  destruct s as [|x s]; [reflexivity|].
  cbn [pieces_from]. rewrite match_here_slashes.
  destruct s as [|y r].
  - cbn [flat_map pieces_from squeeze slash_next]. rewrite match_here_slashes.
    rewrite andb_false_r. reflexivity.
  - change (squeeze (x :: y :: r))
      with (if is_slash x && is_slash y then squeeze (y :: r)
            else x :: squeeze (y :: r)).
    destruct (is_slash x && is_slash y) eqn:E.
    + apply andb_true_iff in E as [Hx Hy].
      change (re_global re_slashes) with true. cbn [mr_text length flat_map].
      cbn [expand list_ascii_of_string app].
      rewrite <- (take_drop_while is_slash r) at 2.
      change (y :: take_while is_slash r ++ drop_while is_slash r)
        with ((y :: take_while is_slash r) ++ drop_while is_slash r).
      change (S (length (take_while is_slash r)))
        with (length (y :: take_while is_slash r)).
      rewrite pieces_from_skip, IH.
      2:{ cbn [length]. rewrite <- (take_drop_while is_slash r) at 2.
          rewrite length_app. lia. }
      symmetry.
      rewrite <- (take_drop_while is_slash r) at 1.
      pose proof (take_while_all is_slash r) as Hall.
      assert (exists t', y :: take_while is_slash r = t' ++ s!"/"
                         /\ forallb is_slash t' = true) as (t' & Ht' & Hall').
      { destruct (exists_last (l := y :: take_while is_slash r) ltac:(discriminate))
          as (t0 & w & Hw).
        assert (forallb is_slash (y :: take_while is_slash r) = true) as Hrun
          by (cbn [forallb]; rewrite Hy, Hall; reflexivity).
        rewrite Hw in Hrun |- *. rewrite forallb_app in Hrun.
        apply andb_true_iff in Hrun as [Ht0 Hw'].
        cbn [forallb] in Hw'. rewrite andb_true_r in Hw'. unfold is_slash in Hw'.
        apply Ascii.eqb_eq in Hw' as <-. exists t0. split; [reflexivity | exact Ht0]. }
      change (y :: take_while is_slash r ++ drop_while is_slash r)
        with ((y :: take_while is_slash r) ++ drop_while is_slash r).
      rewrite Ht', <- app_assoc.
      apply squeeze_run; [exact Hall' | apply slash_next_drop_while].
    + cbn [flat_map app]. f_equal. apply IH. cbn. lia.
Qed.

Lemma slash_next_squeeze (s : str) : slash_next (squeeze s) = slash_next s.
Proof.
  induction s as [|c r IH]; [reflexivity|]. cbn [squeeze].
  destruct (is_slash c && slash_next r) eqn:E; [|reflexivity].
  apply andb_true_iff in E as [Hc Hr]. rewrite IH, Hr. cbn [slash_next].
  rewrite Hc. reflexivity.
Qed.

Lemma squeeze_no_double (s : str) :
  forall i, squeeze s !! i = Some "/" -> squeeze s !! S i <> Some "/".
Proof.
  induction s as [|c r IH]; intros i; [intros H; inversion H|]. cbn [squeeze].
  destruct (is_slash c && slash_next r) eqn:E; [apply IH|].
  destruct i as [|i]; [|apply IH]. cbn. intros [= ->]. cbn [is_slash andb] in E.
  change (Ascii.eqb "/" "/") with true in E. cbn [andb] in E.
  rewrite <- slash_next_squeeze in E.
  destruct (squeeze r) as [|x t]; [discriminate|]. cbn in E |- *.
  intros [= ->]. discriminate E.
Qed.

Lemma squeeze_squeeze (s : str) : squeeze (squeeze s) = squeeze s.
Proof.
  induction s as [|c r IH]; [reflexivity|]. cbn [squeeze].
  destruct (is_slash c && slash_next r) eqn:E; [exact IH|].
  cbn [squeeze]. rewrite slash_next_squeeze, E, IH. reflexivity.
Qed.

(** X7: [joinPaths] joins the paths with slashes and reduces every run
    of slashes to one: no slash of the result is followed by a slash, and
    joining the result alone returns it. *)
Theorem joinPaths_squeezed (paths : list str) :
  joinPaths paths = squeeze (join s!"/" paths)
  /\ (forall i, joinPaths paths !! i = Some "/" -> joinPaths paths !! S i <> Some "/")
  /\ joinPaths [joinPaths paths] = joinPaths paths.
Proof.
  assert (joinPaths paths = squeeze (join s!"/" paths)) as H
    by apply replace_slashes.
  split; [exact H|]. split.
  - rewrite H. apply squeeze_no_double.
  - unfold joinPaths at 1. cbn [join]. rewrite replace_slashes, H.
    apply squeeze_squeeze.
Qed.

(** ** [normalizePathname] *)

Lemma match_here_trailing_slashes (pre rest : str) :
  match_here re_trailing_slashes pre rest
  = if negb (str_eqb rest []) && forallb is_slash rest
    then Some (MatchResult (length pre) rest []) else None.
Proof.
  unfold match_here.
  change (re_ast re_trailing_slashes)
    with (RSeq (RPlus (RChar "/")) (RSeq REol REmpty)).
  change (re_ignoreCase re_trailing_slashes) with false.
  rewrite rmatch_seq. erewrite rmatch_plus_atom by reflexivity. unfold step_char.
  cbn [m_rest m_pre m_caps]. change (char_matches false "/") with is_slash.
  destruct rest as [|x r]; [reflexivity|]. cbn [str_eqb negb andb forallb].
  destruct (is_slash x); [|reflexivity]. cbn [andb].
  rewrite greedy_eol_re. destruct (forallb is_slash r); [|reflexivity].
  cbn [m_rest]. change (length (@nil ascii)) with 0%nat.
  rewrite Nat.sub_0_r, firstn_all. reflexivity.
Qed.

Lemma not_all_slashes (u t : str) :
  u <> [] -> last u <> Some "/" -> forallb is_slash (u ++ t) = false.
Proof.
  intros Hu Hlast. apply not_true_is_false. intros H.
  rewrite forallb_app in H. apply andb_true_iff in H as [H _].
  destruct (last u) as [x|] eqn:E.
  - pose proof (last_forallb _ _ _ H E) as Hx. unfold is_slash in Hx.
    apply Ascii.eqb_eq in Hx as <-. congruence.
  - apply last_None in E. congruence.
Qed.

Lemma match_from_trailing_slashes (q t : str) :
  last q <> Some "/" -> forallb is_slash t = true ->
  forall pre,
  match_from re_trailing_slashes pre (q ++ t)
  = if str_eqb t [] then None
    else Some (MatchResult (length pre + length q) t []).
Proof.
  intros Hlast Ht. induction q as [|c q IH]; intros pre.
  - cbn [app length]. rewrite Nat.add_0_r.
    destruct t as [|x t]; cbn [match_from]; rewrite match_here_trailing_slashes.
    + reflexivity.
    + rewrite Ht. reflexivity.
  - cbn [app match_from]. rewrite match_here_trailing_slashes.
    change (c :: q ++ t) with ((c :: q) ++ t).
    rewrite not_all_slashes, andb_false_r by (auto; discriminate).
    cbn [app]. rewrite IH.
    + destruct (str_eqb t []); [reflexivity|]. cbn [length]. do 2 f_equal. lia.
    + destruct q as [|d q]; [discriminate|]. exact Hlast.
Qed.

Lemma replace_trailing_slashes (s : str) :
  replace re_trailing_slashes "" s = rstrip_slashes s.
Proof.
  pose proof (rstrip_split s) as Hs. pose proof (rstrip_last s) as Hlast.
  pose proof (trailing_all_slashes s) as Ht.
  set (q := rstrip_slashes s) in *. set (t := trailing_slashes s) in *.
  clearbody q t. subst s.
  unfold replace. rewrite replace_with_first by reflexivity. unfold RegExp_exec.
  rewrite (match_from_trailing_slashes q t Hlast Ht []).
  destruct (str_eqb t []) eqn:E.
  - apply str_eqb_eq in E. rewrite E. apply app_nil_r.
  - cbn [mr_index mr_text length Nat.add expand list_ascii_of_string app].
    rewrite take_app_length, <- length_app, drop_all. apply app_nil_r.
Qed.

Lemma last_drop_while_slash (s : str) :
  last (drop_while is_slash (rstrip_slashes s)) <> Some "/".
Proof.
  destruct (drop_while is_slash (rstrip_slashes s)) as [|x d] eqn:E; [discriminate|].
  rewrite <- E, last_drop_while by (rewrite E; discriminate). apply rstrip_last.
Qed.

Lemma rstrip_fixed (s : str) : last s <> Some "/" -> rstrip_slashes s = s.
Proof.
  intros Hlast. unfold rstrip_slashes.
  assert (drop_while is_slash (rev s) = rev s) as ->; [|apply rev_involutive].
  assert (head (rev s) <> Some "/") as Hhead
    by (rewrite <- last_rev_head, rev_involutive; exact Hlast).
  destruct (rev s) as [|x r]; [reflexivity|]. cbn [drop_while].
  destruct (is_slash x) eqn:E; [|reflexivity].
  unfold is_slash in E. apply Ascii.eqb_eq in E as <-. exfalso. apply Hhead. reflexivity.
Qed.

(** X8: [normalizePathname] returns one slash followed by the pathname
    without its leading and its trailing slashes.  The result begins with
    exactly one slash, ends with a slash only when it is ["/"], and is
    left as it is by a second normalisation. *)
Theorem normalizePathname_normal (pathname : str) :
  normalizePathname pathname = "/" :: drop_while is_slash (rstrip_slashes pathname)
  /\ (exists rest, normalizePathname pathname = "/" :: rest
                   /\ slash_next rest = false /\ last rest <> Some "/")
  /\ normalizePathname (normalizePathname pathname) = normalizePathname pathname.
Proof.
  assert (forall p, normalizePathname p = "/" :: drop_while is_slash (rstrip_slashes p))
    as H.
  { intros p. unfold normalizePathname.
    rewrite replace_trailing_slashes, replace_leading. reflexivity. }
  split; [apply H|]. split.
  - eexists. split; [apply H|]. split;
      [apply slash_next_drop_while | apply last_drop_while_slash].
  - rewrite (H (normalizePathname pathname)), (H pathname).
    set (core := drop_while is_slash (rstrip_slashes pathname)).
    pose proof (last_drop_while_slash pathname) as Hlast. fold core in Hlast.
    pose proof (slash_next_drop_while (rstrip_slashes pathname)) as Hnext.
    fold core in Hnext.
    destruct core as [|x core'] eqn:E.
    + reflexivity.
    + rewrite rstrip_fixed by exact Hlast. cbn [drop_while].
      change (is_slash "/") with true. cbn [slash_next] in Hnext.
      cbn [drop_while]. rewrite Hnext. reflexivity.
Qed.

(** ** [normalizeSearch] and [normalizeHash] *)

Lemma mark_normal (mark : ascii) (s : str) :
  let f := fun s : str =>
    if str_eqb s [] || str_eqb s [mark] then []
    else if startsWith s [mark] then s else [mark] ++ s in
  (f s = [] <-> s = [] \/ s = [mark])
  /\ (f s = [] \/ exists rest, rest <> [] /\ f s = mark :: rest)
  /\ f (f s) = f s.
Proof.
  cbv zeta.
  destruct s as [|c r]; [cbn; split; [tauto | split; [left|]; reflexivity]|].
  cbn [str_eqb orb startsWith].
  destruct (Ascii.eqb_spec c mark) as [->|Hne]; cbn [andb].
  - destruct r as [|d r]; cbn [str_eqb].
    + split; [tauto|]. split; [left; reflexivity | reflexivity].
    + split; [split; [discriminate | intros [H|H]; discriminate H]|].
      split; [right; exists (d :: r); split; [discriminate | reflexivity]|].
      cbn [str_eqb orb startsWith]. rewrite Ascii.eqb_refl. reflexivity.
  - split; [split; [discriminate | intros [H|H]; [discriminate H | congruence]]|].
    split; [right; exists (c :: r); split; [discriminate | reflexivity]|].
    cbn [app str_eqb orb startsWith]. rewrite Ascii.eqb_refl. reflexivity.
Qed.

Lemma mark_kept (mark : ascii) (s : str) :
  let f := fun s : str =>
    if str_eqb s [] || str_eqb s [mark] then []
    else if startsWith s [mark] then s else [mark] ++ s in
  (startsWith s [mark] = true -> s <> [mark] -> f s = s)
  /\ (s <> [] -> startsWith s [mark] = false -> f s = mark :: s).
Proof.
  cbv zeta. split.
  - intros Hst Hne. rewrite Hst. apply str_eqb_neq in Hne. rewrite Hne, orb_false_r.
    destruct s; reflexivity.
  - intros Hne Hst. rewrite Hst.
    assert (s <> [mark]) as Hm.
    { intros ->. cbn [startsWith] in Hst. rewrite Ascii.eqb_refl in Hst. discriminate Hst. }
    apply str_eqb_neq in Hne, Hm. rewrite Hne, Hm. reflexivity.
Qed.

(** X9: [normalizeSearch] returns the empty text for an empty search and
    for ["?"] alone; any other search that begins with ["?"] is returned
    as it is, and any other search that does not is returned with one
    ["?"] in front.  [normalizeHash] does the same with ["#"].  A result
    is empty or has a character after its mark, and is left as it is by a
    second normalisation. *)
Theorem normalizeSearch_normalizeHash (s : str) :
  ((normalizeSearch s = [] <-> s = [] \/ s = s!"?")
   /\ (startsWith s s!"?" = true -> s <> s!"?" -> normalizeSearch s = s)
   /\ (s <> [] -> startsWith s s!"?" = false -> normalizeSearch s = "?" :: s)
   /\ (normalizeSearch s = [] \/ exists rest, rest <> [] /\ normalizeSearch s = "?" :: rest)
   /\ normalizeSearch (normalizeSearch s) = normalizeSearch s)
  /\ ((normalizeHash s = [] <-> s = [] \/ s = s!"#")
      /\ (startsWith s s!"#" = true -> s <> s!"#" -> normalizeHash s = s)
      /\ (s <> [] -> startsWith s s!"#" = false -> normalizeHash s = "#" :: s)
      /\ (normalizeHash s = [] \/ exists rest, rest <> [] /\ normalizeHash s = "#" :: rest)
      /\ normalizeHash (normalizeHash s) = normalizeHash s).
Proof.
  destruct (mark_normal "?" s) as (Hs1 & Hs2 & Hs3).
  destruct (mark_kept "?" s) as (Hs4 & Hs5).
  destruct (mark_normal "#" s) as (Hh1 & Hh2 & Hh3).
  destruct (mark_kept "#" s) as (Hh4 & Hh5).
  split; (split; [|split; [|split; [|split]]]); assumption.
Qed.

(** ** [resolvePathname] *)

Lemma resolvePathname_unfold (relativePath fromPathname : str) :
  resolvePathname relativePath fromPathname
  = let segments :=
      fold_left resolve_step (split "/" relativePath)
        (split "/" (rstrip_slashes fromPathname)) in
    if (1 <? length segments)%nat then join s!"/" segments else s!"/".
Proof. unfold resolvePathname. rewrite replace_trailing_slashes. reflexivity. Qed.

Lemma rstrip_prefix (s : str) : rstrip_slashes s `prefix_of` s.
Proof. exists (trailing_slashes s). apply rstrip_split. Qed.

Lemma split_head_root (s : str) :
  startsWith s s!"/" = true -> head (split "/" (rstrip_slashes s)) = Some [].
Proof.
  intros Hs. destruct (rstrip_prefix s) as [t Ht].
  destruct (rstrip_slashes s) as [|c r]; [reflexivity|].
  rewrite Ht in Hs. cbn in Hs. apply andb_true_iff in Hs as [Hc _].
  apply Ascii.eqb_eq in Hc as ->. reflexivity.
Qed.

Lemma resolve_step_head (segments : list str) (segment : str) :
  head segments = Some [] -> head (resolve_step segments segment) = Some [].
Proof.
  intros H. unfold resolve_step, slice_init.
  destruct (str_eqb segment s!"..").
  - destruct (Nat.ltb_spec 1 (length segments)); [|exact H].
    destruct segments as [|x [|y l]]; cbn in *; try lia. exact H.
  - destruct (negb (str_eqb segment s!".")); [|exact H].
    destruct segments; [discriminate | exact H].
Qed.

Lemma resolve_fold_head (relativeSegments : list str) :
  forall segments,
  head segments = Some [] ->
  head (fold_left resolve_step relativeSegments segments) = Some [].
Proof.
  induction relativeSegments as [|seg rest IH]; intros segments H; [exact H|].
  cbn [fold_left]. apply IH, resolve_step_head, H.
Qed.

Lemma resolvePathname_root (relativePath fromPathname : str) :
  startsWith fromPathname s!"/" = true ->
  startsWith (resolvePathname relativePath fromPathname) s!"/" = true.
Proof.
  intros Hfrom. rewrite resolvePathname_unfold. cbv zeta.
  pose proof (resolve_fold_head (split "/" relativePath) _
                (split_head_root _ Hfrom)) as Hhead.
  destruct (fold_left _ _ _) as [|x [|y l]]; try reflexivity.
  injection Hhead as ->. reflexivity.
Qed.

Lemma split_join (sep : ascii) (l : list str) :
  l <> [] -> Forall (fun seg => sep ∉ seg) l -> split sep (join [sep] l) = l.
Proof.
  induction l as [|x l IH]; [congruence|]. intros _ Hall.
  apply Forall_cons in Hall as [Hx Hl].
  destruct l as [|y l]; [apply split_no_sep, Hx|].
  rewrite join_cons. cbn [app]. rewrite split_app_sep, split_no_sep by exact Hx.
  rewrite IH by (auto; discriminate). reflexivity.
Qed.

Lemma resolve_fold_dots (dots : list str) :
  Forall (fun seg => seg = s!"..") dots ->
  forall segments,
  segments <> [] ->
  length (fold_left resolve_step dots segments)
  = Nat.max 1 (length segments - length dots).
Proof.
  induction 1 as [|seg dots -> _ IH]; intros segments Hne; cbn [fold_left length].
  - destruct segments; [congruence | cbn; lia].
  - unfold resolve_step at 2. cbn [str_eqb list_ascii_of_string Ascii.eqb Bool.eqb andb].
    destruct (Nat.ltb_spec 1 (length segments)) as [Hlen|Hlen].
    + rewrite IH.
      * unfold slice_init. rewrite length_take. lia.
      * unfold slice_init. destruct segments as [|x [|y l]]; cbn in *; try lia.
        discriminate.
    + rewrite IH by exact Hne. destruct segments; [congruence | cbn in *; lia].
Qed.

Lemma resolvePathname_dots (fromPathname : str) (dots : list str) :
  Forall (fun seg => seg = s!"..") dots ->
  length (split "/" (rstrip_slashes fromPathname)) <= length dots ->
  resolvePathname (join s!"/" dots) fromPathname = s!"/".
Proof.
  intros Hdots Hlen. rewrite resolvePathname_unfold. cbv zeta.
  pose proof (split_nonempty "/" (rstrip_slashes fromPathname)) as Hne.
  change (s!"/") with ["/"] at 1. rewrite split_join.
  - destruct (Nat.ltb_spec 1 (length (fold_left resolve_step dots
                                        (split "/" (rstrip_slashes fromPathname)))))
      as [H|H]; [|reflexivity].
    rewrite (resolve_fold_dots dots Hdots _ Hne) in H. lia.
  - intros ->. destruct (split "/" (rstrip_slashes fromPathname)); [congruence|].
    cbn in Hlen. lia.
  - eapply Forall_impl; [exact Hdots|]. intros seg -> H.
    apply list_elem_of_In in H. cbn in H. destruct H as [H|[H|[]]]; discriminate H.
Qed.

(** X10: resolved against a pathname that begins with a slash, a
    relative path gives a pathname that begins with a slash: the root
    segment is never removed.  A relative path of [..] segments, as many
    as the base has segments or more, resolves to ["/"]. *)
Theorem resolvePathname_absolute (relativePath fromPathname : str) :
  startsWith fromPathname s!"/" = true ->
  startsWith (resolvePathname relativePath fromPathname) s!"/" = true
  /\ (forall dots,
        Forall (fun seg => seg = s!"..") dots ->
        length (split "/" (rstrip_slashes fromPathname)) <= length dots ->
        resolvePathname (join s!"/" dots) fromPathname = s!"/").
Proof.
  intros Hfrom. split; [apply resolvePathname_root, Hfrom|].
  intros dots Hdots Hlen. apply (resolvePathname_dots _ _ Hdots Hlen).
Qed.

Lemma resolvePathname_absolute_witness :
  startsWith (resolvePathname s!"../../../x" s!"/a/b") s!"/" = true
  /\ (forall dots,
        Forall (fun seg => seg = s!"..") dots ->
        length (split "/" (rstrip_slashes s!"/a/b")) <= length dots ->
        resolvePathname (join s!"/" dots) s!"/a/b" = s!"/").
Proof. apply resolvePathname_absolute. reflexivity. Defined.

Lemma resolve_step_keeps (P : str -> Prop) (segments : list str) (segment : str) :
  Forall P segments -> (plain_segment segment = true -> P segment) ->
  Forall P (resolve_step segments segment).
Proof.
  intros Hall Hseg. unfold resolve_step, slice_init, plain_segment in *.
  destruct (str_eqb segment s!"..").
  - destruct (1 <? length segments)%nat; [|exact Hall]. apply Forall_take, Hall.
  - destruct (negb (str_eqb segment s!".")); [|exact Hall].
    apply Forall_app. split; [exact Hall|]. apply Forall_singleton, Hseg. reflexivity.
Qed.

Lemma resolve_fold_keeps (P : str -> Prop) (relativeSegments : list str) :
  forall segments,
  Forall P segments ->
  Forall (fun seg => plain_segment seg = true -> P seg) relativeSegments ->
  Forall P (fold_left resolve_step relativeSegments segments).
Proof.
  induction relativeSegments as [|seg rest IH]; intros segments Hall Hrel; [exact Hall|].
  apply Forall_cons in Hrel as [Hseg Hrest]. cbn [fold_left].
  apply IH; [apply resolve_step_keeps; assumption | exact Hrest].
Qed.

Lemma resolve_fold_nonempty (relativeSegments : list str) :
  forall segments,
  segments <> [] -> fold_left resolve_step relativeSegments segments <> [].
Proof.
  induction relativeSegments as [|seg rest IH]; intros segments H; [exact H|].
  cbn [fold_left]. apply IH. unfold resolve_step, slice_init.
  destruct (str_eqb seg s!"..").
  - destruct (Nat.ltb_spec 1 (length segments)); [|exact H].
    destruct segments as [|x [|y l]]; cbn in *; try lia. discriminate.
  - destruct (negb (str_eqb seg s!".")); [|exact H].
    destruct segments; discriminate.
Qed.

Lemma split_rstrip (P : str -> Prop) (s : str) :
  Forall P (split "/" s) -> Forall P (split "/" (rstrip_slashes s)).
Proof.
  rewrite (rstrip_split s) at 1.
  destruct (trailing_slashes s) as [|x t] eqn:E; [rewrite app_nil_r; auto|].
  pose proof (trailing_all_slashes s) as Hall. rewrite E in Hall.
  cbn [forallb] in Hall. apply andb_true_iff in Hall as [Hx _].
  unfold is_slash in Hx. apply Ascii.eqb_eq in Hx as <-.
  rewrite split_app_sep. intros H. apply Forall_app in H as [H _]. exact H.
Qed.

Lemma forallb_Forall {A : Type} (p : A -> bool) (l : list A) :
  forallb p l = true <-> Forall (fun x => p x = true) l.
Proof.
  induction l as [|x l IH]; cbn [forallb]; [split; auto|].
  rewrite andb_true_iff, Forall_cons, IH. reflexivity.
Qed.

(** X11: a pathname resolved from a base without [.] and [..]
    segments has no [.] and no [..] segment: every dot segment of the
    relative path is consumed. *)
Theorem resolvePathname_no_dots (relativePath fromPathname : str) :
  no_dot_segments fromPathname = true ->
  no_dot_segments (resolvePathname relativePath fromPathname) = true.
Proof.
  unfold no_dot_segments. rewrite !forallb_Forall.
  intros Hfrom. rewrite resolvePathname_unfold. cbv zeta.
  set (P := fun seg : str => plain_segment seg = true /\ ("/" ∉ seg)).
  assert (Forall P (fold_left resolve_step (split "/" relativePath)
                      (split "/" (rstrip_slashes fromPathname)))) as Hall.
  { apply resolve_fold_keeps.
    - apply Forall_and. split; [apply split_rstrip, Hfrom | apply split_no_sep_in].
    - eapply Forall_impl; [apply (split_no_sep_in "/" relativePath)|].
      intros seg Hseg Hplain. split; assumption. }
  pose proof (resolve_fold_nonempty (split "/" relativePath) _
                (split_nonempty "/" (rstrip_slashes fromPathname))) as Hne.
  destruct (1 <? length (fold_left resolve_step (split "/" relativePath)
                           (split "/" (rstrip_slashes fromPathname))))%nat.
  - change (s!"/") with ["/"]. rewrite split_join.
    + eapply Forall_impl; [exact Hall|]. intros seg [H _]. exact H.
    + exact Hne.
    + eapply Forall_impl; [exact Hall|]. intros seg [_ H]. exact H.
  - repeat constructor.
Qed.

Lemma resolvePathname_no_dots_witness :
  no_dot_segments (resolvePathname s!"../c/./d" s!"/a/b") = true.
Proof. apply resolvePathname_no_dots. reflexivity. Defined.

(** ** [resolvePath] and [resolveTo] *)

Lemma resolvePath_root (to : To) (fromPathname : str) :
  startsWith fromPathname s!"/" = true ->
  startsWith (p_pathname (resolvePath to fromPathname)) s!"/" = true.
Proof.
  intros Hfrom. unfold resolvePath. cbn [p_pathname].
  destruct (pp_pathname (location_of to)) as [t|]; [|exact Hfrom].
  destruct (str_eqb t []); [exact Hfrom|].
  destruct (startsWith t s!"/") eqn:E; [exact E|].
  apply resolvePathname_root, Hfrom.
Qed.

(** X12: [resolvePath] against a pathname that begins with a slash
    returns a pathname that begins with a slash.  A pathname of [to] that
    begins with a slash is returned as it is, whatever the base; without a
    pathname, or with an empty one, the base is returned. *)
Theorem resolvePath_pathname (to : To) (fromPathname : str) :
  (startsWith fromPathname s!"/" = true ->
   startsWith (p_pathname (resolvePath to fromPathname)) s!"/" = true)
  /\ (forall toPathname,
        pp_pathname (location_of to) = Some toPathname ->
        startsWith toPathname s!"/" = true ->
        p_pathname (resolvePath to fromPathname) = toPathname)
  /\ (pp_pathname (location_of to) = None \/ pp_pathname (location_of to) = Some [] ->
      p_pathname (resolvePath to fromPathname) = fromPathname).
Proof.
  split; [intros Hfrom; apply resolvePath_root, Hfrom|]. split.
  - intros t Ht Habs. unfold resolvePath. cbn [p_pathname]. rewrite Ht, Habs.
    destruct t; [discriminate | reflexivity].
  - intros [H|H]; unfold resolvePath; cbn [p_pathname]; rewrite H; reflexivity.
Qed.

Lemma resolvePath_pathname_witness :
  startsWith (p_pathname (resolvePath (ToString s!"../x?q=1") s!"/a/b")) s!"/" = true
  /\ (forall toPathname,
        pp_pathname (location_of (ToString s!"../x?q=1")) = Some toPathname ->
        startsWith toPathname s!"/" = true ->
        p_pathname (resolvePath (ToString s!"../x?q=1") s!"/a/b") = toPathname)
  /\ (pp_pathname (location_of (ToString s!"../x?q=1")) = None
      \/ pp_pathname (location_of (ToString s!"../x?q=1")) = Some [] ->
      p_pathname (resolvePath (ToString s!"../x?q=1") s!"/a/b") = s!"/a/b").
Proof.
  destruct (resolvePath_pathname (ToString s!"../x?q=1") s!"/a/b") as (H1 & H2 & H3).
  split; [apply H1; reflexivity|]. split; assumption.
Defined.

Lemma drop_dotdots_index (segments : list str) :
  forall i, (snd (drop_dotdots segments i) <= i)%Z.
Proof.
  induction segments as [|seg rest IH]; intros i; cbn [drop_dotdots]; [cbn; lia|].
  destruct (str_eqb seg s!".."); [|cbn; lia].
  specialize (IH (i - 1)%Z). lia.
Qed.

(** The shape of [resolveTo]: a path resolved against the location
    pathname, a route pathname or the root, with a slash added at the end
    when the pathname of [to] has one. *)
Lemma resolveTo_unfold (toArg : To) (routePathnames : list str)
    (locationPathname : str) :
  exists to from,
    (from = locationPathname \/ from ∈ routePathnames \/ from = s!"/")
    /\ resolveTo toArg routePathnames locationPathname
       = let path := resolvePath (ToPath to) from in
         match getToPathname toArg with
         | Some toPathname =>
             if negb (str_eqb toPathname []) && negb (str_eqb toPathname s!"/")
                && endsWith toPathname s!"/" && negb (endsWith (p_pathname path) s!"/")
             then MkPath (p_pathname path ++ s!"/") (p_search path) (p_hash path)
             else path
         | None => path
         end.
Proof.
  unfold resolveTo.
  change (if is_empty_string toArg
             || bool_decide (pp_pathname (location_of toArg) = Some [])
          then Some s!"/" else pp_pathname (location_of toArg))
    with (getToPathname toArg).
  assert (forall idx : Z,
            (idx <= Z.of_nat (length routePathnames) - 1)%Z ->
            let from := if (0 <=? idx)%Z
                        then default [] (routePathnames !! Z.to_nat idx)
                        else s!"/" in
            from = locationPathname \/ from ∈ routePathnames \/ from = s!"/") as Hfrom.
  { intros idx Hidx from. subst from. destruct (Z.leb_spec 0 idx); [|auto].
    destruct (routePathnames !! Z.to_nat idx) as [p|] eqn:E.
    - right. left. cbn. eapply list_elem_of_lookup_2, E.
    - apply lookup_ge_None in E. lia. }
  destruct (getToPathname toArg) as [t|].
  - destruct (startsWith t s!"..").
    + pose proof (drop_dotdots_index (split "/" t)
                    (Z.of_nat (length routePathnames) - 1)) as Hidx.
      destruct (drop_dotdots _ _) as [segs idx]. cbn [snd] in Hidx.
      eexists _, _. split; [apply (Hfrom idx Hidx) | reflexivity].
    + eexists _, _. split; [apply (Hfrom _ (Z.le_refl _)) | reflexivity].
  - eexists _, _. split; [left; reflexivity | reflexivity].
Qed.

(** X13: when the route pathnames and the location pathname begin with
    a slash, the pathname [resolveTo] returns begins with a slash. *)
Theorem resolveTo_absolute (toArg : To) (routePathnames : list str)
    (locationPathname : str) :
  forallb (fun p => startsWith p s!"/") routePathnames = true ->
  startsWith locationPathname s!"/" = true ->
  startsWith (p_pathname (resolveTo toArg routePathnames locationPathname)) s!"/" = true.
Proof.
  intros Hroutes Hloc.
  destruct (resolveTo_unfold toArg routePathnames locationPathname)
    as (to & from & Hfrom & ->). cbv zeta.
  assert (startsWith from s!"/" = true) as Habs.
  { destruct Hfrom as [->|[Hin| ->]]; [exact Hloc| |reflexivity].
    rewrite forallb_forall in Hroutes. apply Hroutes, list_elem_of_In, Hin. }
  pose proof (resolvePath_root (ToPath to) from Habs) as Hpath.
  destruct (getToPathname toArg) as [t|]; [|exact Hpath].
  destruct (_ && _); [|exact Hpath]. cbn [p_pathname].
  destruct (p_pathname (resolvePath (ToPath to) from)); [discriminate | exact Hpath].
Qed.

Lemma resolveTo_absolute_witness :
  startsWith
    (p_pathname (resolveTo (ToString s!"../../../x") [s!"/a"; s!"/a/b"] s!"/a/b/c"))
    s!"/" = true.
Proof. apply resolveTo_absolute; reflexivity. Defined.

(** X14: a pathname of [to] other than ["/"] that ends with a slash
    gives a pathname that ends with a slash. *)
Theorem resolveTo_trailing_slash (toArg : To) (routePathnames : list str)
    (locationPathname toPathname : str) :
  getToPathname toArg = Some toPathname ->
  toPathname <> s!"/" -> endsWith toPathname s!"/" = true ->
  endsWith (p_pathname (resolveTo toArg routePathnames locationPathname)) s!"/" = true.
Proof.
  intros Hto Hne Hend.
  destruct (resolveTo_unfold toArg routePathnames locationPathname)
    as (to & from & _ & ->). cbv zeta. rewrite Hto, Hend.
  apply str_eqb_neq in Hne. rewrite Hne.
  assert (str_eqb toPathname [] = false) as ->
    by (destruct toPathname; [discriminate Hend | reflexivity]).
  cbn [negb andb].
  destruct (endsWith (p_pathname (resolvePath (ToPath to) from)) s!"/") eqn:E;
    cbn [negb]; [exact E|].
  cbn [p_pathname]. apply endsWith_app.
Qed.

Lemma resolveTo_trailing_slash_witness :
  endsWith (p_pathname (resolveTo (ToString s!"../x/") [s!"/a"; s!"/a/b"] s!"/a/b/c"))
    s!"/" = true.
Proof.
  apply (resolveTo_trailing_slash _ _ _ s!"../x/"); [reflexivity | discriminate | reflexivity].
Defined.

(** ** [stripBasename] *)

(** X15: for a basename other than ["/"], a pathname that is stripped is
    the basename, up to the case of letters, followed by nothing or by a
    slash: the result is ["/"] or the rest of the pathname, and begins
    with a slash. *)
Theorem stripBasename_rest (pathname basename rest : str) :
  basename <> s!"/" ->
  stripBasename pathname basename = Some rest ->
  startsWith rest s!"/" = true
  /\ toLowerCase (take (length basename) pathname) = toLowerCase basename
  /\ (pathname = take (length basename) pathname ++ rest
      \/ (pathname = take (length basename) pathname /\ rest = s!"/")).
Proof.
  intros Hb. unfold stripBasename. apply str_eqb_neq in Hb. rewrite Hb.
  destruct (startsWith (toLowerCase pathname) (toLowerCase basename)) eqn:Hpre;
    [|discriminate]. cbn [negb].
  apply startsWith_prefix in Hpre as [t Ht].
  assert (toLowerCase (take (length basename) pathname) = toLowerCase basename) as Hhead.
  { unfold toLowerCase in *. rewrite <- firstn_map. fold (toLowerCase pathname).
    change (map to_lower pathname) with (toLowerCase pathname) in *.
    unfold toLowerCase in Ht |- *. rewrite Ht.
    rewrite <- (length_map to_lower basename). apply take_app_length. }
  rewrite charAt_lookup. unfold slice_from.
  pose proof (take_drop (length basename) pathname) as Hsplit.
  destruct (pathname !! length basename) as [c|] eqn:E.
  - cbn [str_eqb negb andb list_ascii_of_string].
    destruct (Ascii.eqb_spec c "/") as [->|Hc]; cbn [andb negb]; [|discriminate].
    intros [= <-].
    apply (drop_S pathname "/" (length basename)) in E as Hdrop.
    rewrite Hdrop. cbn [or_str]. split; [reflexivity|]. split; [exact Hhead|].
    left. rewrite <- Hdrop. symmetry. exact Hsplit.
  - cbn [str_eqb negb andb]. intros [= <-].
    apply lookup_ge_None in E. rewrite drop_ge by lia. cbn [or_str].
    split; [reflexivity|]. split; [exact Hhead|]. right.
    split; [|reflexivity]. symmetry. apply take_ge. lia.
Qed.

Lemma stripBasename_rest_witness :
  startsWith s!"/Home" s!"/" = true
  /\ toLowerCase (take (length s!"/app") s!"/APP/Home") = toLowerCase s!"/app"
  /\ (s!"/APP/Home" = take (length s!"/app") s!"/APP/Home" ++ s!"/Home"
      \/ (s!"/APP/Home" = take (length s!"/app") s!"/APP/Home" /\ s!"/Home" = s!"/")).
Proof.
  apply (stripBasename_rest s!"/APP/Home" s!"/app" s!"/Home");
    [discriminate | reflexivity].
Defined.

(** ** [flattenRoutes] under a parent path *)

Lemma matchable_skip (route : RouteObject) :
  bool_decide (r_path route = None) && negb (r_index route) = negb (matchable route).
Proof.
  unfold matchable. destruct (bool_decide (r_path route = None)), (r_index route);
    reflexivity.
Qed.

Lemma flatten_from_closed (routes : list RouteObject) (parentsMeta : list RouteMeta)
    (parentPath : str) :
  forall index branches,
  flatten_from index routes branches parentsMeta parentPath
  = match first_route (misplaced parentPath) routes with
    | Some route => Throw (misplaced_message parentPath route)
    | None => Return (branches ++ branches_from parentsMeta parentPath index routes)
    end.
Proof.
  induction routes as [|route rest IH]; intros index branches;
    cbn [first_route flatten_from branches_from].
  - rewrite app_nil_r. reflexivity.
  - rewrite matchable_skip. unfold misplaced at 1, branch_of.
    destruct (startsWith (default [] (r_path route)) s!"/") eqn:Habs; cbn [andb].
    + destruct (startsWith (default [] (r_path route)) parentPath) eqn:Hpre;
        cbn [negb invariant mbind outcome_bind]; [|reflexivity].
      destruct (matchable route); cbn [negb]; rewrite IH;
        destruct (first_route _ rest); try reflexivity.
      rewrite <- app_assoc. reflexivity.
    + cbn [mbind outcome_bind].
      destruct (matchable route); cbn [negb]; rewrite IH;
        destruct (first_route _ rest); try reflexivity.
      rewrite <- app_assoc. reflexivity.
Qed.

Lemma branches_from_length (parentsMeta : list RouteMeta) (parentPath : str)
    (routes : list RouteObject) :
  forall index,
  length (branches_from parentsMeta parentPath index routes)
  = length (List.filter matchable routes).
Proof.
  induction routes as [|route rest IH]; intros index; [reflexivity|].
  cbn [branches_from List.filter]. rewrite length_app, IH.
  destruct (matchable route); reflexivity.
Qed.

(** X16: [flattenRoutes] throws exactly when a route of the list has a
    path that begins with a slash and does not begin with the parent
    path; the message names the first such route.  Otherwise the branches
    it is given stay at the front of the result, in their order, followed
    by one branch for each route that has a path or an index flag. *)
Theorem flattenRoutes_checked (routes : list RouteObject) (branches : list RouteBranch)
    (parentsMeta : list RouteMeta) (parentPath : str) :
  match first_route (misplaced parentPath) routes with
  | Some route =>
      flattenRoutes routes branches parentsMeta parentPath
      = Throw (misplaced_message parentPath route)
  | None =>
      exists new,
        flattenRoutes routes branches parentsMeta parentPath = Return (branches ++ new)
        /\ length new = length (List.filter matchable routes)
        /\ Forall (fun b => exists meta,
                     routesMeta b = parentsMeta ++ [meta]
                     /\ path b = joinPaths [parentPath; relativePath meta]) new
  end.
Proof.
  unfold flattenRoutes. rewrite flatten_from_closed.
  destruct (first_route _ routes); [reflexivity|].
  eexists. split; [reflexivity|]. split; [apply branches_from_length|].
  generalize 0%nat. induction routes as [|route rest IH]; intros index;
    cbn [branches_from]; [constructor|].
  apply Forall_app. split; [|apply IH].
  destruct (matchable route); constructor; [|constructor].
  eexists. split; reflexivity.
Qed.

(** ** [matchRoutes] *)

Lemma first_route_top (routes : list RouteObject) :
  first_route (misplaced []) routes = None.
Proof.
  induction routes as [|route rest IH]; [reflexivity|]. cbn [first_route].
  unfold misplaced. rewrite startsWith_nil, andb_false_r. exact IH.
Qed.

Lemma branches_from_elem (parentsMeta : list RouteMeta) (parentPath : str)
    (routes : list RouteObject) (b : RouteBranch) :
  forall index,
  b ∈ branches_from parentsMeta parentPath index routes
  <-> exists i route, routes !! i = Some route /\ matchable route = true
                      /\ b = branch_of parentsMeta parentPath (index + i) route.
Proof.
  induction routes as [|route rest IH]; intros index; cbn [branches_from].
  - rewrite elem_of_nil. split; [tauto | intros (i & r & H & _); discriminate H].
  - rewrite elem_of_app, IH. split.
    + intros [H | (i & r & Hr & Hm & ->)].
      * destruct (matchable route) eqn:Hm; [|inversion H].
        apply list_elem_of_singleton in H as ->.
        exists 0%nat, route. rewrite Nat.add_0_r. auto.
      * exists (S i), r. rewrite Nat.add_succ_r. auto.
    + intros ([|i] & r & Hr & Hm & ->).
      * injection Hr as ->. rewrite Hm, Nat.add_0_r. left.
        apply list_elem_of_here.
      * right. exists i, r. rewrite Nat.add_succ_r. auto.
Qed.

Lemma matchRouteBranch_top (routes : list RouteObject) (i : nat) (route : RouteObject)
    (pathname : str) :
  routes !! i = Some route ->
  matchRouteBranch (branch_of [] [] i route) routes pathname
  = match matchPath (route_pattern route) pathname with
    | Return (Some pm) => Return (Some [route_match route pm])
    | Return None => Return None
    | Throw e => Throw e
    end.
Proof.
  intros Hi. unfold matchRouteBranch, branch_of. cbn [routesMeta app match_chain].
  cbn [relativePath caseSensitive childrenIndex str_eqb list_ascii_of_string Ascii.eqb
       Bool.eqb andb length].
  assert ((if startsWith (default [] (r_path route)) ["/"]
           then slice_from 0 (default [] (r_path route))
           else default [] (r_path route)) = default [] (r_path route)) as ->
    by (destruct (startsWith _ _); reflexivity).
  fold (route_pattern route).
  destruct (matchPath (route_pattern route) pathname) as [[pm|]|e];
    cbn [mbind outcome_bind]; try reflexivity.
  rewrite Hi. unfold route_match. rewrite (right_id_L ∅ (∪)). reflexivity.
Qed.

Lemma first_match_top (routes : list RouteObject) (pathname : str)
    (bs : list RouteBranch) :
  Forall (fun b => exists i route, routes !! i = Some route
                                   /\ b = branch_of [] [] i route) bs ->
  exists r,
    first_match bs routes pathname = Return r
    /\ (forall matches, r = Some matches ->
          exists i route pm,
            routes !! i = Some route /\ branch_of [] [] i route ∈ bs
            /\ matchPath (route_pattern route) pathname = Return (Some pm)
            /\ matches = [route_match route pm])
    /\ (r = None ->
        forall i route, routes !! i = Some route -> branch_of [] [] i route ∈ bs ->
          matchPath (route_pattern route) pathname = Return None).
Proof.
  induction 1 as [|b bs (i & route & Hi & ->) _ IH]; cbn [first_match].
  - exists None. split; [reflexivity|]. split; [discriminate|].
    intros _ i route _ H. inversion H.
  - rewrite (matchRouteBranch_top routes i route pathname Hi).
    destruct (matchPath_returns (route_pattern route) pathname) as [[pm|] Hpm];
      rewrite Hpm; cbn [mbind outcome_bind].
    + exists (Some [route_match route pm]). split; [reflexivity|]. split; [|discriminate].
      intros matches [= <-]. exists i, route, pm.
      split; [exact Hi|]. split; [apply list_elem_of_here|]. split; [exact Hpm|reflexivity].
    + destruct IH as (r & Hr & Hsome & Hnone). exists r. split; [exact Hr|]. split.
      * intros matches Hm. destruct (Hsome matches Hm) as (j & rt & pm & Hj & Hin & H).
        exists j, rt, pm. split; [exact Hj|]. split; [apply list_elem_of_further, Hin|exact H].
      * intros Hn j rt Hj Hin. apply elem_of_cons in Hin as [Heq|Hin].
        -- assert (j = i) as -> by (apply (f_equal routesMeta) in Heq; cbn in Heq; congruence).
           rewrite Hi in Hj. injection Hj as <-. exact Hpm.
        -- exact (Hnone Hn j rt Hj Hin).
Qed.

(** X17: [matchRoutes] never throws.  A result other than [null] holds
    one match: that of the pattern of a route of the list that has a path
    or an index flag, matched to its end against the pathname without the
    basename.  The result is [null] only when the basename does not strip
    or no such route matches. *)
Theorem matchRoutes_single (routes : list RouteObject) (locationArg : To)
    (basename : str) :
  exists r,
    matchRoutes routes locationArg basename = Return r
    /\ (forall matches, r = Some matches ->
          exists pathname i route pm,
            stripBasename (location_pathname locationArg) basename = Some pathname
            /\ routes !! i = Some route /\ matchable route = true
            /\ matchPath (route_pattern route) pathname = Return (Some pm)
            /\ matches = [route_match route pm])
    /\ (r = None ->
        forall pathname,
          stripBasename (location_pathname locationArg) basename = Some pathname ->
          forall route, route ∈ routes -> matchable route = true ->
            matchPath (route_pattern route) pathname = Return None).
Proof.
  unfold matchRoutes. fold (location_pathname locationArg).
  destruct (stripBasename (location_pathname locationArg) basename) as [pathname|].
  2:{ exists None. split; [reflexivity|]. split; discriminate. }
  unfold flattenRoutes. rewrite flatten_from_closed, first_route_top.
  cbn [mbind outcome_bind app].
  set (bs := branches_from [] [] 0 routes).
  assert (forall b, b ∈ rankRouteBranches bs <-> b ∈ bs) as Hrank.
  { intros b. destruct (rankRouteBranches_scores bs) as [Hperm _].
    rewrite Hperm. reflexivity. }
  destruct (first_match_top routes pathname (rankRouteBranches bs))
    as (r & Hr & Hsome & Hnone).
  { apply Forall_forall. intros b Hb. apply Hrank, branches_from_elem in Hb
      as (i & route & Hi & _ & ->). eauto. }
  exists r. split; [exact Hr|]. split.
  - intros matches Hm. destruct (Hsome matches Hm) as (i & route & pm & Hi & Hin & Hpm & ->).
    apply Hrank, branches_from_elem in Hin as (j & rt & Hj & Hmat & Heq).
    assert (j = i) as -> by (apply (f_equal routesMeta) in Heq; cbn in Heq; congruence).
    rewrite Hi in Hj. injection Hj as <-.
    exists pathname, i, route, pm. auto.
  - intros Hn p [= <-] route Hin Hmat.
    apply list_elem_of_lookup in Hin as [i Hi].
    apply (Hnone Hn i route Hi). apply Hrank, branches_from_elem.
    exists i, route. auto.
Qed.

(** ** Slashes around a pattern *)

Lemma endsWith_removelast (s : str) (c : ascii) :
  endsWith s [c] = true -> s = removelast s ++ [c].
Proof.
  intros H. apply endsWith_last, last_Some in H as [l' ->].
  rewrite removelast_last. reflexivity.
Qed.

Lemma drop_while_slashes (t u : str) :
  forallb is_slash t = true -> drop_while is_slash (t ++ u) = drop_while is_slash u.
Proof.
  induction t as [|x t IH]; [reflexivity|]. cbn [forallb app drop_while].
  intros H. apply andb_true_iff in H as [-> H]. exact (IH H).
Qed.

Lemma replace_trailing_tail (path : str) : replace re_trailing "" path = strip_tail path.
Proof.
  unfold strip_tail. destruct (endsWith path s!"*") eqn:E.
  - pose proof (endsWith_removelast path "*" E) as Hp.
    set (s0 := removelast path) in *. clearbody s0. subst path.
    rewrite (rstrip_split s0) at 1. rewrite <- app_assoc.
    apply replace_trailing; [apply rstrip_last | |].
    + destruct (trailing_slashes s0); discriminate.
    + unfold trailing_ok.
      rewrite (drop_while_slashes _ _ (trailing_all_slashes s0)). reflexivity.
  - rewrite (rstrip_split path) at 1.
    apply replace_trailing_core; [apply rstrip_last | apply trailing_all_slashes |].
    intros Ht Hlast. pose proof (rstrip_split path) as Hp. rewrite Ht, app_nil_r in Hp.
    rewrite <- Hp in Hlast. apply endsWith_last in Hlast.
    change (s!"*") with ["*"] in E. congruence.
Qed.

Lemma pattern_body_tail (path : str) :
  pattern_body path = "/" :: drop_while is_slash (strip_tail path).
Proof. unfold pattern_body. rewrite replace_trailing_tail, replace_leading. reflexivity. Qed.

Lemma drop_while_snoc (p : ascii -> bool) (a : str) (c : ascii) :
  drop_while p (a ++ [c])
  = if forallb p a then drop_while p [c] else drop_while p a ++ [c].
Proof.
  induction a as [|x a IH]; [reflexivity|]. cbn [app drop_while forallb].
  destruct (p x); [exact IH | reflexivity].
Qed.

Lemma forallb_rev {A : Type} (p : A -> bool) (l : list A) :
  forallb p (rev l) = forallb p l.
Proof.
  induction l as [|x l IH]; [reflexivity|]. cbn [rev forallb].
  rewrite forallb_app, IH. cbn [forallb]. rewrite andb_true_r. apply andb_comm.
Qed.

Lemma rstrip_cons (c : ascii) (x : str) :
  rstrip_slashes (c :: x)
  = if forallb is_slash x && is_slash c then [] else c :: rstrip_slashes x.
Proof.
  unfold rstrip_slashes. cbn [rev]. rewrite drop_while_snoc, forallb_rev.
  destruct (forallb is_slash x) eqn:E; cbn [andb drop_while].
  - destruct (is_slash c); [reflexivity|].
    assert (drop_while is_slash (rev x) = []) as ->; [|reflexivity].
    rewrite <- forallb_rev in E. revert E. generalize (rev x).
    induction l as [|y l IH]; [reflexivity|]. cbn [forallb drop_while].
    intros H. apply andb_true_iff in H as [-> H]. exact (IH H).
  - rewrite rev_app_distr. reflexivity.
Qed.

Lemma rstrip_snoc_slash (q : str) : rstrip_slashes (q ++ s!"/") = rstrip_slashes q.
Proof. unfold rstrip_slashes. rewrite rev_app_distr. reflexivity. Qed.

Lemma strip_tail_slash (q : str) :
  drop_while is_slash (strip_tail ("/" :: q)) = drop_while is_slash (strip_tail q).
Proof.
  unfold strip_tail.
  assert (endsWith ("/" :: q) s!"*" = endsWith q s!"*") as ->.
  { destruct (endsWith q s!"*") eqn:E.
    - apply endsWith_last. apply endsWith_last in E.
      destruct q; [discriminate E | exact E].
    - destruct (endsWith ("/" :: q) s!"*") eqn:E'; [|reflexivity].
      apply endsWith_last in E'. destruct q as [|x q]; [discriminate E'|].
      change (last (x :: q) = Some "*") in E'.
      apply endsWith_last in E'. change (s!"*") with ["*"] in E. congruence. }
  assert (forall x, drop_while is_slash (rstrip_slashes ("/" :: x))
                    = drop_while is_slash (rstrip_slashes x)) as Hx.
  { intros x. rewrite rstrip_cons. change (is_slash "/") with true.
    rewrite andb_true_r. destruct (forallb is_slash x) eqn:E; [|reflexivity].
    symmetry. cbn [drop_while].
    pose proof (rstrip_prefix x) as [t Ht].
    assert (forallb is_slash (rstrip_slashes x) = true) as Hall.
    { rewrite Ht, forallb_app in E. apply andb_true_iff in E as [E _]. exact E. }
    pose proof (rstrip_last x) as Hlast.
    destruct (last (rstrip_slashes x)) as [y|] eqn:El.
    - pose proof (last_forallb _ _ _ Hall El) as Hy. unfold is_slash in Hy.
      apply Ascii.eqb_eq in Hy as <-. congruence.
    - apply last_None in El. rewrite El. reflexivity. }
  destruct (endsWith q s!"*") eqn:E; [|apply Hx].
  destruct q as [|x q]; [discriminate E|].
  change (removelast ("/" :: x :: q)) with ("/" :: removelast (x :: q)). apply Hx.
Qed.

Lemma pattern_body_leading (q : str) : pattern_body ("/" :: q) = pattern_body q.
Proof. rewrite !pattern_body_tail, strip_tail_slash. reflexivity. Qed.

Lemma strip_tail_trailing (q : str) :
  last q <> Some "*" -> strip_tail (q ++ s!"/") = strip_tail q.
Proof.
  intros Hlast. unfold strip_tail.
  assert (endsWith (q ++ s!"/") s!"*" = false) as ->.
  { apply not_true_is_false. intros H. apply endsWith_last in H.
    change (s!"/") with ["/"] in H. rewrite last_snoc in H. discriminate H. }
  assert (endsWith q s!"*" = false) as ->.
  { apply not_true_is_false. intros H. apply endsWith_last in H. congruence. }
  apply rstrip_snoc_slash.
Qed.

Lemma regexpSource_body (path : str) (end_ : bool) :
  regexpSource path end_
  = s!"^" ++ replace re_param "([^\/]+)" (replace re_special "\$&" (pattern_body path))
    ++ (if endsWith path s!"*" then
          if str_eqb path s!"*" || str_eqb path s!"/*" then s!"(.*)$"
          else s!"(?:\/(.+)|\/*)$"
        else if end_ then s!"\/*$" else s!"(?:\b|$)").
Proof. reflexivity. Qed.

Lemma compilePath_same (p1 p2 : str) (caseSensitive end_ : option bool) :
  pattern_body p1 = pattern_body p2 ->
  endsWith p1 s!"*" = endsWith p2 s!"*" ->
  str_eqb p1 s!"*" || str_eqb p1 s!"/*" = str_eqb p2 s!"*" || str_eqb p2 s!"/*" ->
  snd (compilePath p1 caseSensitive end_) = snd (compilePath p2 caseSensitive end_).
Proof.
  intros Hbody Hends Hroot. unfold compilePath. cbn [snd].
  rewrite !regexpSource_body, Hbody, Hends, Hroot.
  assert (paramNames_of p1 = paramNames_of p2) as ->; [|reflexivity].
  unfold paramNames_of. fold (pattern_body p1). fold (pattern_body p2).
  rewrite Hbody, Hends. reflexivity.
Qed.

(** X18: a slash in front of a path changes nothing to the matcher
    [compilePath] builds, nor to what [matchPath] returns with it, the
    path ["/*"] apart. *)
Theorem compilePath_leading_slash (q : str) (caseSensitive end_ : option bool) :
  q <> s!"/*" ->
  snd (compilePath ("/" :: q) caseSensitive end_)
  = snd (compilePath q caseSensitive end_)
  /\ (forall pathname,
        match_outcome
          (matchPath (PatObject (MkPathPattern ("/" :: q) caseSensitive end_)) pathname)
        = match_outcome
            (matchPath (PatObject (MkPathPattern q caseSensitive end_)) pathname)).
Proof.
  intros Hq.
  assert (snd (compilePath ("/" :: q) caseSensitive end_)
          = snd (compilePath q caseSensitive end_)) as H.
  { apply compilePath_same.
    - apply pattern_body_leading.
    - destruct (endsWith q s!"*") eqn:E.
      + apply endsWith_last. apply endsWith_last in E.
        destruct q; [discriminate E | exact E].
      + destruct (endsWith ("/" :: q) s!"*") eqn:E'; [|reflexivity].
        apply endsWith_last in E'. destruct q as [|x q]; [discriminate E'|].
        change (last (x :: q) = Some "*") in E'.
        apply endsWith_last in E'. change (s!"*") with ["*"] in E. congruence.
    - apply str_eqb_neq in Hq. rewrite Hq, orb_false_r.
      cbn [str_eqb list_ascii_of_string Ascii.eqb Bool.eqb andb orb].
      destruct q; reflexivity. }
  split; [exact H|]. intros pathname. apply matchPath_same_compile, H.
Qed.

Lemma compilePath_leading_slash_witness :
  snd (compilePath ("/" :: s!"users/:id") None None)
  = snd (compilePath s!"users/:id" None None)
  /\ (forall pathname,
        match_outcome
          (matchPath (PatObject (MkPathPattern ("/" :: s!"users/:id") None None)) pathname)
        = match_outcome
            (matchPath (PatObject (MkPathPattern s!"users/:id" None None)) pathname)).
Proof. apply compilePath_leading_slash. discriminate. Defined.

(** X19: a slash at the end of a path that does not end with a star
    changes nothing to the matcher either. *)
Theorem compilePath_trailing_slash (q : str) (caseSensitive end_ : option bool) :
  last q <> Some "*" ->
  snd (compilePath (q ++ s!"/") caseSensitive end_)
  = snd (compilePath q caseSensitive end_)
  /\ (forall pathname,
        match_outcome
          (matchPath (PatObject (MkPathPattern (q ++ s!"/") caseSensitive end_)) pathname)
        = match_outcome
            (matchPath (PatObject (MkPathPattern q caseSensitive end_)) pathname)).
Proof.
  intros Hlast.
  assert (endsWith q s!"*" = false) as Hq.
  { apply not_true_is_false. intros H. apply endsWith_last in H. congruence. }
  assert (endsWith (q ++ s!"/") s!"*" = false) as Hq'.
  { apply not_true_is_false. intros H. apply endsWith_last in H.
    change (s!"/") with ["/"] in H. rewrite last_snoc in H. discriminate H. }
  assert (snd (compilePath (q ++ s!"/") caseSensitive end_)
          = snd (compilePath q caseSensitive end_)) as H.
  { unfold compilePath. cbn [snd]. rewrite !regexpSource_body, Hq, Hq'.
    rewrite !pattern_body_tail, (strip_tail_trailing q Hlast).
    assert (paramNames_of (q ++ s!"/") = paramNames_of q) as ->; [|reflexivity].
    unfold paramNames_of. fold (pattern_body (q ++ s!"/")). fold (pattern_body q).
    rewrite !pattern_body_tail, (strip_tail_trailing q Hlast), Hq, Hq'. reflexivity. }
  split; [exact H|]. intros pathname. apply matchPath_same_compile, H.
Qed.

Lemma compilePath_trailing_slash_witness :
  snd (compilePath (s!"/users/:id" ++ s!"/") None None)
  = snd (compilePath s!"/users/:id" None None)
  /\ (forall pathname,
        match_outcome
          (matchPath (PatObject (MkPathPattern (s!"/users/:id" ++ s!"/") None None))
             pathname)
        = match_outcome
            (matchPath (PatObject (MkPathPattern s!"/users/:id" None None)) pathname)).
Proof. apply compilePath_trailing_slash. discriminate. Defined.

(** ** The stores of [src/index.ts] *)

(** X20: after [routeDestroyed] the routes left are those whose path
    differs from the destroyed one, in their order: every route of that
    path is removed and a route without path never is.  Destroying the
    path of a route just initialised, when no other route has it, gives
    the routes back. *)
Theorem routes_destroyed (routes : list RouteObject) (destroyedPath : str) :
  (forall route,
     route ∈ on_routeDestroyed routes destroyedPath
     <-> route ∈ routes /\ r_path route <> Some destroyedPath)
  /\ on_routeDestroyed routes destroyedPath `sublist_of` routes
  /\ (forall route,
        r_path route = Some destroyedPath ->
        (forall other, other ∈ routes -> r_path other <> Some destroyedPath) ->
        on_routeDestroyed (on_routeInitialized routes route) destroyedPath = routes).
Proof.
  unfold on_routeDestroyed, on_routeInitialized. split; [|split].
  - intros route. rewrite list_elem_of_In, filter_In, <- list_elem_of_In.
    rewrite negb_true_iff, bool_decide_eq_false. reflexivity.
  - induction routes as [|r rest IH]; [constructor|]. cbn [List.filter].
    destruct (negb _); [apply sublist_skip | apply sublist_cons]; exact IH.
  - intros route Hpath Hothers. rewrite List.filter_app. cbn [List.filter].
    rewrite bool_decide_eq_true_2 by exact Hpath. cbn [negb]. rewrite app_nil_r.
    induction routes as [|r rest IH]; [reflexivity|]. cbn [List.filter].
    rewrite bool_decide_eq_false_2 by (apply Hothers, list_elem_of_here).
    cbn [negb]. f_equal. apply IH. intros other Hin.
    apply Hothers, list_elem_of_further, Hin.
Qed.

(** X21: the function that computes [$matchedRoutes] never throws and
    returns at most one match, of a route of [$routes]; without a match
    it returns the empty list. *)
Theorem matched_routes_single (routes : list RouteObject) (location : Path) :
  exists matches,
    matched_routes routes location = Return matches
    /\ length matches <= 1
    /\ (forall m, m ∈ matches ->
          exists route pm,
            route ∈ routes /\ matchable route = true
            /\ matchPath (route_pattern route) (or_str (p_pathname location) s!"/")
               = Return (Some pm)
            /\ m = route_match route pm).
Proof.
  unfold matched_routes, matchRoutes.
  cbn [location_of pp_pathname default from_option id]. rewrite stripBasename_root.
  unfold flattenRoutes. rewrite flatten_from_closed, first_route_top.
  cbn [mbind outcome_bind app].
  set (bs := branches_from [] [] 0 routes).
  destruct (first_match_top routes (or_str (p_pathname location) s!"/")
              (rankRouteBranches bs)) as (r & Hr & Hsome & _).
  { apply Forall_forall. intros b Hb.
    destruct (rankRouteBranches_scores bs) as [Hperm _]. rewrite Hperm in Hb.
    apply branches_from_elem in Hb as (i & route & Hi & _ & ->). eauto. }
  rewrite Hr. cbn [mbind outcome_bind]. exists (default [] r).
  split; [reflexivity|]. destruct r as [matches|]; cbn [default].
  - destruct (Hsome matches eq_refl) as (i & route & pm & Hi & Hin & Hpm & ->).
    split; [cbn; lia|]. intros m Hm. apply list_elem_of_singleton in Hm as ->.
    exists route, pm. split; [eapply list_elem_of_lookup_2, Hi|].
    split; [|split; [exact Hpm | reflexivity]].
    destruct (rankRouteBranches_scores bs) as [Hperm _]. rewrite Hperm in Hin.
    apply branches_from_elem in Hin as (j & rt & Hj & Hmat & Heq).
    assert (j = i) as -> by (apply (f_equal routesMeta) in Heq; cbn in Heq; congruence).
    rewrite Hi in Hj. injection Hj as <-. exact Hmat.
  - split; [cbn; lia|]. intros m Hm. inversion Hm.
Qed.

(** ** Literal patterns *)

Lemma char_matches_slash (ic : bool) (x : ascii) : char_matches ic "/" x = is_slash x.
Proof.
  destruct ic; [|reflexivity].
  destruct x as [[] [] [] [] [] [] [] []]; reflexivity.
Qed.

Lemma forallb_same {A : Type} (p q : A -> bool) (l : list A) :
  (forall x, p x = q x) -> forallb p l = forallb q l.
Proof.
  intros H. induction l as [|x l IH]; [reflexivity|]. cbn. rewrite H, IH. reflexivity.
Qed.

Lemma rmatch_literal (ic : bool) (R : regex) (k : cont) (literal : str) :
  forall pre rest caps,
  rmatch ic (foldr RSeq R (map RChar literal)) k (MState pre rest caps)
  = match literal_prefix ic literal rest with
    | Some rest' =>
        rmatch ic R k (MState (rev (take (length literal) rest) ++ pre) rest' caps)
    | None => None
    end.
Proof.
  induction literal as [|c literal IH]; intros pre rest caps;
    cbn [map foldr literal_prefix length].
  - rewrite take_0. reflexivity.
  - rewrite rmatch_seq. erewrite rmatch_atom by reflexivity. unfold step_char.
    cbn [m_rest m_pre m_caps]. destruct rest as [|x rest]; [reflexivity|].
    destruct (char_matches ic c x); [|reflexivity].
    rewrite IH. cbn [take firstn rev]. rewrite <- app_assoc. reflexivity.
Qed.

Lemma literal_prefix_drop (ic : bool) (literal : str) :
  forall text rest,
  literal_prefix ic literal text = Some rest ->
  rest = drop (length literal) text /\ length literal <= length text.
Proof.
  induction literal as [|c literal IH]; intros text rest; cbn [literal_prefix length].
  - intros [= <-]. split; [reflexivity | lia].
  - destruct text as [|x text]; [discriminate|].
    destruct (char_matches ic c x); [|discriminate].
    intros H. apply IH in H as [-> H]. split; [reflexivity | cbn; lia].
Qed.

Lemma literal_prefix_spec (ic : bool) (literal : str) :
  forall text rest,
  literal_prefix ic literal text = Some rest
  <-> exists head, text = head ++ rest
                   /\ map (canonicalize ic) head = map (canonicalize ic) literal.
Proof.
  induction literal as [|c literal IH]; intros text rest; cbn [literal_prefix].
  - split.
    + intros [= <-]. exists []. split; reflexivity.
    + intros (head & -> & H). destruct head; [reflexivity | discriminate H].
  - destruct text as [|x text].
    + split; [discriminate|]. intros ([|y head] & Ht & H); discriminate.
    + unfold char_matches. destruct (Ascii.eqb_spec (canonicalize ic c) (canonicalize ic x))
        as [Heq|Hne].
      * rewrite IH. split.
        -- intros (head & -> & H). exists (x :: head). split; [reflexivity|].
           cbn [map]. rewrite H, Heq. reflexivity.
        -- intros ([|y head] & Ht & H); [discriminate H|].
           injection Ht as <- ->. injection H as _ H. exists head. auto.
      * split; [discriminate|]. intros ([|y head] & Ht & H); [discriminate H|].
        injection Ht as <- ->. injection H as H _. congruence.
Qed.

Lemma token_atoms_literals (n : nat) (s : str) :
  token_atoms n (map TLit s) = map RChar s.
Proof. induction s as [|c s IH]; [reflexivity|]. cbn. rewrite IH. reflexivity. Qed.

Lemma elem_of_rstrip (x : ascii) (s : str) : x ∈ rstrip_slashes s -> x ∈ s.
Proof.
  intros H. destruct (rstrip_prefix s) as [t Ht]. rewrite Ht.
  apply elem_of_app. left. exact H.
Qed.

Lemma elem_of_drop_while (p : ascii -> bool) (x : ascii) (s : str) :
  x ∈ drop_while p s -> x ∈ s.
Proof.
  intros H. rewrite <- (take_drop_while p s). apply elem_of_app. right. exact H.
Qed.

Lemma elem_of_removelast (x : ascii) (s : str) : x ∈ removelast s -> x ∈ s.
Proof.
  destruct s as [|c s]; [intros H; inversion H|].
  destruct (exists_last (l := c :: s) ltac:(discriminate)) as (s' & y & ->).
  rewrite removelast_last. intros H. apply elem_of_app. left. exact H.
Qed.

Lemma pattern_body_chars (x : ascii) (path : str) :
  x ∈ pattern_body path -> x = "/" \/ x ∈ path.
Proof.
  rewrite pattern_body_tail. intros H. apply elem_of_cons in H as [H|H]; [left; exact H|].
  right. apply elem_of_drop_while in H. unfold strip_tail in H.
  apply elem_of_rstrip in H. destruct (endsWith path s!"*"); [|exact H].
  apply elem_of_removelast, H.
Qed.

Lemma tokens_body_literal (path : str) :
  ":" ∉ path -> tokens (pattern_body path) = map TLit (pattern_body path).
Proof.
  intros Hc. apply tokens_no_colon. intros H.
  apply pattern_body_chars in H as [H|H]; [discriminate H | exact (Hc H)].
Qed.

Lemma literal_regex (path : str) (end_ : bool) :
  ":" ∉ path -> last path <> Some "*" ->
  pattern_regex path end_
  = RSeq RBol
      (foldr RSeq
         (if end_ then RSeq (RStar (RChar "/")) (RSeq REol REmpty)
          else RSeq (RAlt (RSeq (RWordB false) REmpty) (RSeq REol REmpty)) REmpty)
         (map RChar (pattern_body path))).
Proof.
  intros Hc Hlast. unfold pattern_regex, tail_atoms.
  assert (endsWith path s!"*" = false) as ->.
  { apply not_true_is_false. intros H. apply endsWith_last in H. congruence. }
  rewrite (tokens_body_literal path Hc), token_atoms_literals.
  cbn [foldr]. rewrite foldr_app. destruct end_; reflexivity.
Qed.

Lemma literal_groups (path : str) (caseSensitive end_ : bool) (caps : list (nat * str)) :
  ":" ∉ path -> last path <> Some "*" ->
  groups_of (pattern_RegExp path caseSensitive end_) caps = [].
Proof.
  intros Hc Hlast. unfold groups_of. cbn [re_groups pattern_RegExp].
  unfold tail_groups, param_count.
  assert (endsWith path s!"*" = false) as ->.
  { apply not_true_is_false. intros H. apply endsWith_last in H. congruence. }
  rewrite (tokens_body_literal path Hc), token_names_literals. reflexivity.
Qed.

Lemma word_before_rev (s : str) (rest : str) (caps : list (nat * str)) :
  word_before (MState (rev s ++ []) rest caps) = word_last s.
Proof.
  unfold word_before, word_last. cbn [m_pre]. rewrite app_nil_r.
  rewrite <- (rev_involutive s) at 2. rewrite last_rev_head.
  destruct (rev s); reflexivity.
Qed.

Lemma rmatch_literal_pattern (path : str) (caseSensitive end_ : bool) (pathname : str) :
  ":" ∉ path -> last path <> Some "*" ->
  rmatch (negb caseSensitive) (pattern_regex path end_) Some (MState [] pathname [])
  = match literal_prefix (negb caseSensitive) (pattern_body path) pathname with
    | Some rest =>
        if if end_ then forallb is_slash rest
           else str_eqb rest []
                || boundary_between (take (length (pattern_body path)) pathname) rest
        then Some (MState
                     (if end_ then rev pathname
                      else rev (take (length (pattern_body path)) pathname))
                     (if end_ then [] else rest) [])
        else None
    | None => None
    end.
Proof.
  intros Hc Hlast. rewrite (literal_regex path end_ Hc Hlast).
  rewrite rmatch_seq, rmatch_bol. cbn [m_pre]. rewrite rmatch_literal.
  destruct (literal_prefix _ _ pathname) as [rest|] eqn:E; [|reflexivity].
  apply literal_prefix_drop in E as [-> Hlen].
  destruct end_.
  - rewrite rmatch_seq. erewrite rmatch_star_atom by reflexivity.
    cbn [m_pre m_rest m_caps]. rewrite greedy_eol_re.
    rewrite (forallb_same _ is_slash) by (intros x; apply char_matches_slash).
    destruct (forallb is_slash _); [|reflexivity].
    rewrite app_nil_r, <- rev_app_distr, take_drop. reflexivity.
  - rewrite rmatch_seq, rmatch_alt, !rmatch_seq, rmatch_eol, !rmatch_empty.
    cbn [rmatch xorb]. unfold at_boundary. rewrite word_before_rev.
    cbn [m_rest]. unfold boundary_between.
    change (word_after (MState (rev (take (length (pattern_body path)) pathname) ++ [])
                          (drop (length (pattern_body path)) pathname) []))
      with (word_first (drop (length (pattern_body path)) pathname)).
    rewrite app_nil_r.
    destruct (xorb _ _); cbn [or_else orb m_rest].
    + rewrite orb_true_r. reflexivity.
    + rewrite orb_false_r.
      destruct (drop (length (pattern_body path)) pathname) eqn:Ed; reflexivity.
Qed.

Lemma match_here_literal (path : str) (caseSensitive end_ : bool) (pathname : str) :
  ":" ∉ path -> last path <> Some "*" ->
  match_here (pattern_RegExp path caseSensitive end_) [] pathname
  = match literal_prefix (negb caseSensitive) (pattern_body path) pathname with
    | Some rest =>
        if end_ then
          if forallb is_slash rest then Some (MatchResult 0 pathname []) else None
        else
          if str_eqb rest []
             || boundary_between (take (length (pattern_body path)) pathname) rest
          then Some (MatchResult 0 (take (length (pattern_body path)) pathname) [])
          else None
    | None => None
    end.
Proof.
  intros Hc Hlast. unfold match_here.
  cbn [re_ast re_ignoreCase pattern_RegExp].
  rewrite (rmatch_literal_pattern path caseSensitive end_ pathname Hc Hlast).
  destruct (literal_prefix _ _ pathname) as [rest|] eqn:E; [|reflexivity].
  apply literal_prefix_drop in E as [-> Hlen].
  destruct end_.
  - destruct (forallb is_slash _); [|reflexivity].
    rewrite (literal_groups path _ _ _ Hc Hlast). cbn [m_rest length].
    rewrite Nat.sub_0_r, firstn_all. reflexivity.
  - destruct (_ || _); [|reflexivity].
    rewrite (literal_groups path _ _ _ Hc Hlast). cbn [m_rest].
    rewrite length_drop.
    replace (length pathname - (length pathname - length (pattern_body path)))
      with (length (pattern_body path)) by lia.
    reflexivity.
Qed.

Lemma paramNames_of_literal (path : str) :
  ":" ∉ path -> last path <> Some "*" -> paramNames_of path = [].
Proof.
  intros Hc Hlast. rewrite paramNames_of_tokens.
  assert (endsWith path s!"*" = false) as ->.
  { apply not_true_is_false. intros H. apply endsWith_last in H. congruence. }
  rewrite (tokens_body_literal path Hc), token_names_literals. reflexivity.
Qed.

Lemma matchPath_literal (path : str) (caseSensitive end_ : option bool)
    (pathname : str) :
  ":" ∉ path -> last path <> Some "*" ->
  matchPath (PatObject (MkPathPattern path caseSensitive end_)) pathname
  = Return
      (match match_here (pattern_RegExp path (default false caseSensitive)
                           (default true end_)) [] pathname with
       | Some m =>
           Some (MkPathMatch ∅ (mr_text m) (base_of (mr_text m))
                   (MkPathPattern path caseSensitive end_))
       | None => None
       end).
Proof.
  intros Hc Hlast. rewrite matchPath_unfold.
  change (matcher_of (PatObject (MkPathPattern path caseSensitive end_)))
    with (pattern_RegExp path (default false caseSensitive) (default true end_)).
  cbn [pattern_of pat_path].
  destruct (match_here _ _ _) as [m|]; [|reflexivity].
  rewrite (paramNames_of_literal path Hc Hlast). reflexivity.
Qed.

(** X22: a path without colon and without star at its end, matched to
    the end, matches the pathnames that are its body (the path between
    one leading slash and no trailing slash), in any letter case unless
    [caseSensitive] is set, followed by slashes only.  The match has no
    parameters and covers the whole pathname. *)
Theorem matchPath_literal_whole (path : str) (caseSensitive end_ : option bool)
    (pathname : str) :
  ":" ∉ path -> last path <> Some "*" -> default true end_ = true ->
  matchPath (PatObject (MkPathPattern path caseSensitive end_)) pathname
  = Return
      (match literal_prefix (negb (default false caseSensitive)) (pattern_body path)
               pathname with
       | Some rest =>
           if forallb is_slash rest
           then Some (MkPathMatch ∅ pathname (base_of pathname)
                        (MkPathPattern path caseSensitive end_))
           else None
       | None => None
       end)
  /\ (forall rest,
        literal_prefix (negb (default false caseSensitive)) (pattern_body path) pathname
        = Some rest
        <-> exists head,
              pathname = head ++ rest
              /\ map (canonicalize (negb (default false caseSensitive))) head
                 = map (canonicalize (negb (default false caseSensitive)))
                     (pattern_body path)).
Proof.
  intros Hc Hlast Hend. split; [|intros rest; apply literal_prefix_spec].
  rewrite (matchPath_literal path caseSensitive end_ pathname Hc Hlast).
  rewrite (match_here_literal _ _ _ _ Hc Hlast), Hend.
  destruct (literal_prefix _ _ pathname) as [rest|]; [|reflexivity].
  destruct (forallb is_slash rest); reflexivity.
Qed.

Lemma matchPath_literal_whole_witness :
  matchPath (PatObject (MkPathPattern s!"about/team/" None None)) s!"/About/Team//"
  = Return
      (match literal_prefix (negb (default false None)) (pattern_body s!"about/team/")
               s!"/About/Team//" with
       | Some rest =>
           if forallb is_slash rest
           then Some (MkPathMatch ∅ s!"/About/Team//" (base_of s!"/About/Team//")
                        (MkPathPattern s!"about/team/" None None))
           else None
       | None => None
       end)
  /\ (forall rest,
        literal_prefix (negb (default false None)) (pattern_body s!"about/team/")
          s!"/About/Team//"
        = Some rest
        <-> exists head,
              s!"/About/Team//" = head ++ rest
              /\ map (canonicalize (negb (default false None))) head
                 = map (canonicalize (negb (default false None)))
                     (pattern_body s!"about/team/")).
Proof.
  apply matchPath_literal_whole.
  - intros H. apply list_elem_of_In in H. cbn in H.
    repeat (destruct H as [H|H]; [discriminate H|]). exact H.
  - discriminate.
  - reflexivity.
Defined.

(** X23: with [end] set to [false], such a path matches the pathnames
    that begin with its body, in any letter case unless [caseSensitive]
    is set, provided the pathname ends there or a word boundary follows:
    ["/home"] matches ["/home/x"] and not ["/home2"].  The match covers
    that beginning of the pathname. *)
Theorem matchPath_literal_prefix (path : str) (caseSensitive : option bool)
    (pathname : str) :
  ":" ∉ path -> last path <> Some "*" ->
  let matched := take (length (pattern_body path)) pathname in
  matchPath (PatObject (MkPathPattern path caseSensitive (Some false))) pathname
  = Return
      (match literal_prefix (negb (default false caseSensitive)) (pattern_body path)
               pathname with
       | Some rest =>
           if str_eqb rest [] || boundary_between matched rest
           then Some (MkPathMatch ∅ matched (base_of matched)
                        (MkPathPattern path caseSensitive (Some false)))
           else None
       | None => None
       end)
  /\ match_outcome (matchPath (PatObject (MkPathPattern s!"/home" None (Some false)))
                      s!"/home/x")
     = Return (Some (∅, s!"/home", s!"/home"))
  /\ matchPath (PatObject (MkPathPattern s!"/home" None (Some false))) s!"/home2"
     = Return None.
Proof.
  intros Hc Hlast matched. split; [|split; vm_compute; reflexivity].
  rewrite (matchPath_literal path caseSensitive (Some false) pathname Hc Hlast).
  rewrite (match_here_literal _ _ _ _ Hc Hlast). cbn [default from_option id].
  destruct (literal_prefix _ _ pathname) as [rest|]; [|reflexivity].
  fold matched. destruct (_ || _); reflexivity.
Qed.

Lemma matchPath_literal_prefix_witness :
  matchPath (PatObject (MkPathPattern s!"/home" None (Some false))) s!"/Home/x"
  = Return
      (match literal_prefix (negb (default false None)) (pattern_body s!"/home")
               s!"/Home/x" with
       | Some rest =>
           if str_eqb rest []
              || boundary_between (take (length (pattern_body s!"/home")) s!"/Home/x")
                   rest
           then Some (MkPathMatch ∅ (take (length (pattern_body s!"/home")) s!"/Home/x")
                        (base_of (take (length (pattern_body s!"/home")) s!"/Home/x"))
                        (MkPathPattern s!"/home" None (Some false)))
           else None
       | None => None
       end)
  /\ match_outcome (matchPath (PatObject (MkPathPattern s!"/home" None (Some false)))
                      s!"/home/x")
     = Return (Some (∅, s!"/home", s!"/home"))
  /\ matchPath (PatObject (MkPathPattern s!"/home" None (Some false))) s!"/home2"
     = Return None.
Proof.
  apply (matchPath_literal_prefix s!"/home" None s!"/Home/x").
  - intros H. apply list_elem_of_In in H. cbn in H.
    repeat (destruct H as [H|H]; [discriminate H|]). exact H.
  - discriminate.
Defined.

(** ** Pathnames without a leading slash *)

Lemma pattern_regex_slash (path : str) (end_ : bool) :
  exists rest, pattern_regex path end_ = RSeq RBol (RSeq (RChar "/") rest).
Proof.
  unfold pattern_regex. rewrite pattern_body_tail. unfold tokens.
  cbn [tokens_from]. change (Ascii.eqb "/" ":") with false. cbn [andb token_atoms app foldr].
  eexists. reflexivity.
Qed.

(** X24: no pattern matches a pathname that does not begin with a
    slash: the matcher of every path begins with [^/]. *)
Theorem matchPath_needs_slash (pattern : PatternArg) (pathname : str) :
  startsWith pathname s!"/" = false ->
  matchPath pattern pathname = Return None.
Proof.
  intros Hp. rewrite matchPath_unfold.
  assert (match_here (matcher_of pattern) [] pathname = None) as ->; [|reflexivity].
  unfold match_here, matcher_of. cbn [re_ast re_ignoreCase pattern_RegExp].
  destruct (pattern_regex_slash (pat_path (pattern_of pattern))
              (default true (pat_end (pattern_of pattern)))) as [rest ->].
  rewrite rmatch_seq, rmatch_bol. cbn [m_pre]. rewrite rmatch_seq.
  erewrite rmatch_atom by reflexivity. unfold step_char. cbn [m_rest].
  destruct pathname as [|x r]; [reflexivity|].
  rewrite char_matches_slash. cbn in Hp. rewrite andb_true_r in Hp.
  unfold is_slash. rewrite Ascii.eqb_sym, Hp. reflexivity.
Qed.

Lemma matchPath_needs_slash_witness :
  matchPath (PatString s!"users/:id") s!"users/1" = Return None.
Proof. apply matchPath_needs_slash. reflexivity. Defined.

(** ** Patterns that end with a star *)

Lemma slash_not_terminator (s : str) :
  forallb is_slash s = true -> no_line_terminator s = true.
Proof.
  unfold no_line_terminator. rewrite !forallb_forall. intros H x Hx.
  specialize (H x Hx). unfold is_slash in H. apply Ascii.eqb_eq in H as <-. reflexivity.
Qed.

Lemma rmatch_any_group (ic : bool) (n : nat) (plus : bool) (final : mstate -> mstate)
    (pre rest : str) (caps : list (nat * str)) :
  rmatch ic
    (RGroup n (RSeq (if plus then RPlus RAny else RStar RAny) REmpty))
    (rmatch ic (RSeq REol REmpty) (fun st => Some (final st)))
    (MState pre rest caps)
  = if negb (plus && str_eqb rest []) && no_line_terminator rest
    then Some (final (MState (rev rest ++ pre) [] ((n, rest) :: caps)))
    else None.
Proof.
  rewrite rmatch_group, rmatch_seq.
  set (k := fun st' : mstate =>
              match m_rest st' with
              | [] => Some (final (set_cap n (MState pre rest caps) st'))
              | _ :: _ => None
              end).
  assert (forall st', rmatch ic REmpty
                        (fun st' => rmatch ic (RSeq REol REmpty)
                                      (fun st => Some (final st))
                                      (set_cap n (MState pre rest caps) st')) st'
                      = k st') as Hk.
  { intros st'. rewrite rmatch_empty, rmatch_seq, rmatch_eol. reflexivity. }
  assert (forall pre' rest',
            length rest' <= length rest ->
            greedy (fun x => negb (is_line_terminator x)) k pre' rest' caps
            = if no_line_terminator rest'
              then Some (final (MState (rev rest' ++ pre') []
                                  ((n, take (length rest) rest) :: caps)))
              else None) as Hg.
  { intros pre' rest' Hlen.
    rewrite (greedy_eol _ (fun st' => Some (final (set_cap n (MState pre rest caps) st')))).
    unfold no_line_terminator. destruct (forallb _ rest'); [|reflexivity].
    unfold set_cap, consumed. cbn [m_pre m_rest m_caps length].
    rewrite Nat.sub_0_r. reflexivity. }
  destruct plus.
  - erewrite rmatch_plus_atom by reflexivity. unfold step_char. cbn [m_rest m_pre m_caps].
    destruct rest as [|x rest]; [reflexivity|]. cbn [str_eqb andb negb].
    unfold no_line_terminator at 1. cbn [forallb].
    destruct (negb (is_line_terminator x)); [|reflexivity]. cbn [andb].
    rewrite (greedy_ext _ _ k) by exact Hk.
    rewrite Hg by (cbn; lia). fold (no_line_terminator rest).
    destruct (no_line_terminator rest); [|reflexivity].
    rewrite firstn_all. cbn [rev]. rewrite <- app_assoc. reflexivity.
  - erewrite rmatch_star_atom by reflexivity. cbn [m_rest m_pre m_caps andb negb].
    rewrite (greedy_ext _ _ k) by exact Hk.
    rewrite Hg by lia. destruct (no_line_terminator rest); [|reflexivity].
    rewrite firstn_all. reflexivity.
Qed.

Lemma star_loop_ext (body : cont -> cont) (k1 k2 : cont) :
  (forall k k' st, (forall s, k s = k' s) -> body k st = body k' st) ->
  (forall st, k1 st = k2 st) ->
  forall fuel st, star_loop body k1 fuel st = star_loop body k2 fuel st.
Proof.
  intros Hbody Hk. induction fuel as [|fuel IH]; intros st; cbn [star_loop]; [apply Hk|].
  rewrite Hk. f_equal. apply Hbody. intros s. destruct (progress st s); [apply IH|reflexivity].
Qed.

Lemma rmatch_ext (ic : bool) (r : regex) :
  forall k1 k2, (forall st, k1 st = k2 st) ->
  forall st, rmatch ic r k1 st = rmatch ic r k2 st.
Proof.
  assert (forall p k1 k2, (forall st, k1 st = k2 st) ->
            forall st, step_char p k1 st = step_char p k2 st) as Hstep.
  { intros p k1 k2 Hk st. unfold step_char. destruct (m_rest st); [reflexivity|].
    destruct (p a); [apply Hk | reflexivity]. }
  induction r as [| c | | neg items | | | neg | a IHa b IHb | a IHa b IHb
                  | a IHa | a IHa | a IHa | n a IHa];
    intros k1 k2 Hk st; cbn [rmatch]; auto.
  - destruct (m_pre st); [apply Hk | reflexivity].
  - destruct (m_rest st); [apply Hk | reflexivity].
  - destruct (xorb neg (at_boundary st)); [apply Hk | reflexivity].
  - rewrite (IHa k1 k2 Hk), (IHb k1 k2 Hk). reflexivity.
  - apply star_loop_ext; [|exact Hk]. intros k k' s H. apply IHa, H.
  - apply IHa. intros s. apply star_loop_ext; [|exact Hk]. intros k k' s' H. apply IHa, H.
  - rewrite Hk. f_equal. apply IHa. intros s. destruct (progress st s); [apply Hk|reflexivity].
Qed.

Lemma splat_regex (path : str) (end_ : bool) :
  ":" ∉ path -> endsWith path s!"*" = true ->
  pattern_regex path end_
  = RSeq RBol
      (foldr RSeq
         (if str_eqb path s!"*" || str_eqb path s!"/*"
          then RSeq (RGroup 1 (RSeq (RStar RAny) REmpty)) (RSeq REol REmpty)
          else RSeq (RAlt (RSeq (RChar "/")
                             (RSeq (RGroup 1 (RSeq (RPlus RAny) REmpty)) REmpty))
                          (RSeq (RStar (RChar "/")) REmpty))
                    (RSeq REol REmpty))
         (map RChar (pattern_body path))).
Proof.
  intros Hc Hends. unfold pattern_regex, tail_atoms. rewrite Hends.
  rewrite (tokens_body_literal path Hc), token_atoms_literals.
  unfold param_count. rewrite token_names_literals.
  cbn [foldr length]. rewrite foldr_app.
  destruct (str_eqb path s!"*" || str_eqb path s!"/*"); reflexivity.
Qed.

Lemma splat_groups (path : str) (caseSensitive end_ : bool) (caps : list (nat * str)) :
  ":" ∉ path -> endsWith path s!"*" = true ->
  groups_of (pattern_RegExp path caseSensitive end_) caps = [cap_lookup 1 caps].
Proof.
  intros Hc Hends. unfold groups_of. cbn [re_groups pattern_RegExp].
  unfold tail_groups, param_count. rewrite Hends.
  rewrite (tokens_body_literal path Hc), token_names_literals. reflexivity.
Qed.

Lemma rmatch_splat_tail (ic : bool) (pre rest : str) :
  rmatch ic
    (RSeq (RAlt (RSeq (RChar "/")
                   (RSeq (RGroup 1 (RSeq (RPlus RAny) REmpty)) REmpty))
                (RSeq (RStar (RChar "/")) REmpty))
          (RSeq REol REmpty)) Some (MState pre rest [])
  = match splat_of rest with
    | Some splat =>
        Some (MState (rev rest ++ pre) []
                (match splat with [] => [] | _ :: _ => [(1, splat)] end))
    | None => None
    end.
Proof.
  rewrite rmatch_seq, rmatch_alt.
  assert (rmatch ic (RSeq (RStar (RChar "/")) REmpty) (rmatch ic (RSeq REol REmpty) Some)
            (MState pre rest [])
          = if forallb is_slash rest then Some (MState (rev rest ++ pre) [] []) else None)
    as ->.
  { rewrite rmatch_seq. erewrite rmatch_star_atom by reflexivity.
    cbn [m_pre m_rest m_caps].
    rewrite (greedy_ext _ _ (rmatch ic (RSeq REol REmpty) Some))
      by (intros st; apply rmatch_empty).
    rewrite greedy_eol_re.
    rewrite (forallb_same _ is_slash) by (intros x; apply char_matches_slash).
    reflexivity. }
  rewrite rmatch_seq. erewrite rmatch_atom by reflexivity. unfold step_char.
  cbn [m_rest m_pre m_caps]. unfold splat_of.
  destruct rest as [|c rest]; [reflexivity|]. rewrite char_matches_slash.
  cbn [forallb]. destruct (is_slash c) eqn:Ec; cbn [andb or_else].
  2:{ destruct rest; reflexivity. }
  rewrite rmatch_seq.
  rewrite (rmatch_ext ic _ _ (rmatch ic (RSeq REol REmpty) (fun st => Some (id st))))
    by (intros st; apply rmatch_empty).
  rewrite (rmatch_any_group ic 1 true id). unfold id.
  destruct rest as [|x s]; [reflexivity|]. cbn [str_eqb andb negb].
  destruct (no_line_terminator (x :: s)) eqn:E; cbn [or_else].
  - cbn [rev]. rewrite <- !app_assoc. reflexivity.
  - assert (forallb is_slash (x :: s) = false) as ->; [|reflexivity].
    apply not_true_is_false. intros H. apply slash_not_terminator in H. congruence.
Qed.

Lemma match_here_splat_pattern (path : str) (caseSensitive end_ : bool)
    (pathname : str) :
  ":" ∉ path -> endsWith path s!"*" = true ->
  str_eqb path s!"*" || str_eqb path s!"/*" = false ->
  match_here (pattern_RegExp path caseSensitive end_) [] pathname
  = match literal_prefix (negb caseSensitive) (pattern_body path) pathname with
    | Some rest =>
        match splat_of rest with
        | Some splat =>
            Some (MatchResult 0 pathname
                    [match splat with [] => None | _ :: _ => Some splat end])
        | None => None
        end
    | None => None
    end.
Proof.
  intros Hc Hends Hroot. unfold match_here.
  cbn [re_ast re_ignoreCase pattern_RegExp].
  rewrite (splat_regex path end_ Hc Hends), Hroot.
  rewrite rmatch_seq, rmatch_bol. cbn [m_pre]. rewrite rmatch_literal.
  destruct (literal_prefix _ _ pathname) as [rest|]; [|reflexivity].
  rewrite rmatch_splat_tail.
  destruct (splat_of rest) as [splat|]; [|reflexivity].
  rewrite (splat_groups path _ _ _ Hc Hends). cbn [m_rest m_caps length].
  rewrite Nat.sub_0_r, firstn_all.
  destruct splat; cbn [cap_lookup Nat.eqb]; reflexivity.
Qed.

Lemma paramNames_of_splat (path : str) :
  ":" ∉ path -> endsWith path s!"*" = true -> paramNames_of path = [s!"*"].
Proof.
  intros Hc Hends. rewrite paramNames_of_tokens, Hends.
  rewrite (tokens_body_literal path Hc), token_names_literals. reflexivity.
Qed.

(** X25: a path without colon that ends with a star, other than ["*"]
    and ["/*"], matches the pathnames that begin with its body, in any
    letter case unless [caseSensitive] is set, followed by nothing, by
    one slash, or by one slash and a text that is not empty and has no
    line terminator.  That text, decoded, is the parameter [*] (the
    empty text when nothing or one slash follows the body); the match
    covers the whole pathname and its [pathnameBase] is what precedes
    the splat, without trailing slashes. *)
Theorem matchPath_splat (path : str) (caseSensitive end_ : option bool)
    (pathname : str) :
  ":" ∉ path -> endsWith path s!"*" = true ->
  path <> s!"*" -> path <> s!"/*" ->
  matchPath (PatObject (MkPathPattern path caseSensitive end_)) pathname
  = Return
      (match literal_prefix (negb (default false caseSensitive)) (pattern_body path)
               pathname with
       | Some rest =>
           match splat_of rest with
           | Some splat =>
               Some (splat_match (MkPathPattern path caseSensitive end_) pathname splat)
           | None => None
           end
       | None => None
       end).
Proof.
  intros Hc Hends H1 H2. rewrite matchPath_unfold.
  change (matcher_of (PatObject (MkPathPattern path caseSensitive end_)))
    with (pattern_RegExp path (default false caseSensitive) (default true end_)).
  cbn [pattern_of pat_path].
  rewrite (match_here_splat_pattern path _ _ pathname Hc Hends).
  2:{ apply str_eqb_neq in H1, H2. rewrite H1, H2. reflexivity. }
  destruct (literal_prefix _ _ pathname) as [rest|]; [|reflexivity].
  destruct (splat_of rest) as [splat|]; [|reflexivity].
  rewrite (paramNames_of_splat path Hc Hends).
  cbn [length seq zip zip_with fold_left mr_text mr_groups]. unfold param_step, splat_match.
  cbn [str_eqb list_ascii_of_string Ascii.eqb Bool.eqb andb lookup list_lookup mjoin
       option_join].
  destruct splat; reflexivity.
Qed.

Lemma matchPath_splat_witness :
  matchPath (PatObject (MkPathPattern s!"/files/*" None None)) s!"/Files/a%20b/c"
  = Return
      (match literal_prefix (negb (default false None)) (pattern_body s!"/files/*")
               s!"/Files/a%20b/c" with
       | Some rest =>
           match splat_of rest with
           | Some splat =>
               Some (splat_match (MkPathPattern s!"/files/*" None None)
                       s!"/Files/a%20b/c" splat)
           | None => None
           end
       | None => None
       end).
Proof.
  apply matchPath_splat; try discriminate; [|reflexivity].
  intros H. apply list_elem_of_In in H. cbn in H.
  repeat (destruct H as [H|H]; [discriminate H|]). exact H.
Defined.

Lemma root_splat_regex (path : str) (end_ : bool) :
  path = s!"*" \/ path = s!"/*" ->
  pattern_regex path end_
  = RSeq RBol
      (RSeq (RChar "/")
         (RSeq (RGroup 1 (RSeq (RStar RAny) REmpty)) (RSeq REol REmpty))).
Proof. intros [-> | ->]; vm_compute; reflexivity. Qed.

(** X26: the paths ["*"] and ["/*"] match every pathname that begins
    with a slash and has no line terminator after it.  The parameter [*]
    is what follows the slash, decoded, and [pathnameBase] is ["/"]. *)
Theorem matchPath_root_splat (path : str) (caseSensitive end_ : option bool)
    (pathname : str) :
  path = s!"*" \/ path = s!"/*" ->
  matchPath (PatObject (MkPathPattern path caseSensitive end_)) pathname
  = Return
      (match pathname with
       | c :: splat =>
           if is_slash c && no_line_terminator splat
           then Some (MkPathMatch {[ s!"*" := safelyDecodeURIComponent splat s!"*" ]}
                        pathname s!"/" (MkPathPattern path caseSensitive end_))
           else None
       | [] => None
       end).
Proof.
  intros Hpath. rewrite matchPath_unfold.
  change (matcher_of (PatObject (MkPathPattern path caseSensitive end_)))
    with (pattern_RegExp path (default false caseSensitive) (default true end_)).
  cbn [pattern_of pat_path].
  assert (paramNames_of path = [s!"*"]) as ->
    by (destruct Hpath as [-> | ->]; vm_compute; reflexivity).
  assert (forall caps,
            groups_of (pattern_RegExp path (default false caseSensitive)
                         (default true end_)) caps = [cap_lookup 1 caps]) as Hgroups
    by (intros caps; destruct Hpath as [-> | ->]; reflexivity).
  unfold match_here. cbn [re_ast re_ignoreCase pattern_RegExp].
  rewrite (root_splat_regex path _ Hpath).
  rewrite rmatch_seq, rmatch_bol. cbn [m_pre]. rewrite rmatch_seq.
  erewrite rmatch_atom by reflexivity. unfold step_char. cbn [m_rest m_pre m_caps].
  destruct pathname as [|c splat]; [reflexivity|]. rewrite char_matches_slash.
  destruct (is_slash c) eqn:Ec; [|reflexivity]. cbn [andb].
  rewrite rmatch_seq.
  change (rmatch (negb (default false caseSensitive)) (RSeq REol REmpty) Some)
    with (rmatch (negb (default false caseSensitive)) (RSeq REol REmpty)
            (fun st => Some (id st))).
  rewrite (rmatch_any_group _ 1 false id). unfold id. cbn [andb negb].
  destruct (no_line_terminator splat); [|reflexivity].
  rewrite Hgroups. cbn [m_rest m_caps length cap_lookup Nat.eqb].
  rewrite Nat.sub_0_r. change (S (length splat)) with (length (c :: splat)).
  rewrite firstn_all.
  cbn [length seq zip zip_with fold_left mr_text mr_groups]. unfold param_step.
  cbn [str_eqb list_ascii_of_string Ascii.eqb Bool.eqb andb lookup list_lookup mjoin
       option_join default from_option id].
  replace (length (c :: splat) - length splat) with 1 by (cbn; lia).
  unfold is_slash in Ec. apply Ascii.eqb_eq in Ec as <-.
  cbn [take firstn]. reflexivity.
Qed.

Lemma matchPath_root_splat_witness :
  matchPath (PatObject (MkPathPattern s!"*" None None)) s!"/a/b"
  = Return
      (match s!"/a/b" with
       | c :: splat =>
           if is_slash c && no_line_terminator splat
           then Some (MkPathMatch {[ s!"*" := safelyDecodeURIComponent splat s!"*" ]}
                        s!"/a/b" s!"/" (MkPathPattern s!"*" None None))
           else None
       | [] => None
       end).
Proof. apply matchPath_root_splat. left. reflexivity. Defined.

(** ** The score of a splat and the comparison of branches *)

(** X27: a splat segment added to a path changes its score by the
    segment counted and the penalty: one less for a path without splat
    segment, one more for a path that has one already (the penalty is
    counted once). *)
Theorem computeScore_splat (path : str) (index : bool) :
  computeScore (path ++ s!"/*") index
  = (computeScore path index
     + (if existsb isSplat (split "/" path) then 1 else -1))%Z.
Proof.
  rewrite !computeScore_formula. unfold score_formula.
  change (path ++ s!"/*") with (path ++ "/" :: s!"*").
  rewrite split_app_sep.
  change (split "/" s!"*") with [s!"*"].
  rewrite length_app, existsb_app, List.filter_app, map_app, sumZ_app.
  cbn [existsb List.filter length str_eqb list_ascii_of_string Ascii.eqb Bool.eqb andb
       orb negb map sumZ foldr].
  rewrite orb_true_r.
  assert (existsb isSplat (split "/" path)
          = existsb (fun s => str_eqb s s!"*") (split "/" path)) as -> by reflexivity.
  destruct (existsb _ _), index; lia.
Qed.

(** X28: the comparison [rankRouteBranches] sorts with is
    antisymmetric; it puts the branch of higher score first, and holds
    two branches of the same score equal unless they are siblings, which
    it orders by their last index. *)
Theorem compareBranches_antisymmetric (a b : RouteBranch) :
  compareBranches b a = (- compareBranches a b)%Z
  /\ ((score b < score a)%Z -> (compareBranches a b < 0)%Z)
  /\ (score a = score b -> ~ sibling_chains (chain_of a) (chain_of b) ->
      compareBranches a b = 0%Z)
  /\ (score a = score b -> sibling_chains (chain_of a) (chain_of b) ->
      forall x y, last (chain_of a) = Some x -> last (chain_of b) = Some y ->
      compareBranches a b = (Z.of_nat x - Z.of_nat y)%Z).
Proof.
  split; [apply compareBranches_anti|]. split; [|split].
  - intros H. unfold compareBranches.
    destruct (Z.eqb_spec (score a) (score b)); cbn [negb]; lia.
  - intros Hs Hn. rewrite (compareBranches_tie a b Hs).
    apply compareIndexes_strangers, Hn.
  - intros Hs Hsib x y Hx Hy. rewrite (compareBranches_tie a b Hs).
    rewrite (compareIndexes_siblings _ _ Hsib), Hx, Hy. reflexivity.
Qed.

(** ** The route [matchRoutes] prefers *)

Lemma branch_of_top (i : nat) (route : RouteObject) :
  branch_of [] [] i route
  = MkRouteBranch (joinPaths [[]; default [] (r_path route)]) (route_score route)
      [MkRouteMeta (default [] (r_path route)) (r_caseSensitive route) i].
Proof.
  unfold branch_of, route_score. cbn [length app].
  assert ((if startsWith (default [] (r_path route)) s!"/"
           then slice_from 0 (default [] (r_path route))
           else default [] (r_path route)) = default [] (r_path route)) as ->
    by (destruct (startsWith _ _); reflexivity).
  reflexivity.
Qed.

Lemma compareBranches_top (i j : nat) (a b : RouteObject) :
  (compareBranches (branch_of [] [] i a) (branch_of [] [] j b) <= 0)%Z ->
  (route_score b < route_score a)%Z
  \/ (route_score b = route_score a /\ i <= j).
Proof.
  rewrite !branch_of_top. unfold compareBranches. cbn [score routesMeta map childrenIndex].
  destruct (Z.eqb_spec (route_score a) (route_score b)) as [He|Hne]; cbn [negb].
  - unfold compareIndexes, slice_init.
    cbn [length Nat.eqb take firstn Nat.sub every_equal andb last].
    intros H. right. split; [symmetry; exact He | lia].
  - intros H. left. lia.
Qed.

Lemma first_match_first (routes : list RouteObject) (pathname : str)
    (bs : list RouteBranch) :
  Forall (fun b => exists i route, routes !! i = Some route
                                   /\ b = branch_of [] [] i route) bs ->
  forall matches,
  first_match bs routes pathname = Return (Some matches) ->
  exists front i route pm back,
    bs = front ++ branch_of [] [] i route :: back
    /\ routes !! i = Some route
    /\ matchPath (route_pattern route) pathname = Return (Some pm)
    /\ matches = [route_match route pm]
    /\ Forall (fun b => forall j rt, b = branch_of [] [] j rt -> routes !! j = Some rt ->
                 matchPath (route_pattern rt) pathname = Return None) front.
Proof.
  induction 1 as [|b bs (i & route & Hi & ->) _ IH]; intros matches;
    cbn [first_match]; [discriminate|].
  rewrite (matchRouteBranch_top routes i route pathname Hi).
  destruct (matchPath_returns (route_pattern route) pathname) as [[pm|] Hpm];
    rewrite Hpm; cbn [mbind outcome_bind].
  - intros [= <-]. exists [], i, route, pm, bs. repeat split; auto.
  - intros H. destruct (IH matches H) as (front & j & rt & pm & back & -> & Hj & Hm & -> & Hf).
    exists (branch_of [] [] i route :: front), j, rt, pm, back.
    repeat split; auto. constructor; [|exact Hf].
    intros k r Heq Hk.
    assert (k = i) as -> by (apply (f_equal routesMeta) in Heq; cbn in Heq; congruence).
    rewrite Hi in Hk. injection Hk as <-. exact Hpm.
Qed.

(** X29: the match [matchRoutes] returns is that of the best route that
    matches: no route of the list that has a path or an index flag and
    whose pattern matches the pathname has a higher score, and among the
    matching routes of the same score it is the first of the list. *)
Theorem matchRoutes_best (routes : list RouteObject) (locationArg : To)
    (basename pathname : str) (matches : list RouteMatch) :
  stripBasename (location_pathname locationArg) basename = Some pathname ->
  matchRoutes routes locationArg basename = Return (Some matches) ->
  exists i route pm,
    routes !! i = Some route
    /\ matchPath (route_pattern route) pathname = Return (Some pm)
    /\ matches = [route_match route pm]
    /\ (forall j other pm',
          routes !! j = Some other -> matchable other = true ->
          matchPath (route_pattern other) pathname = Return (Some pm') ->
          (route_score other < route_score route)%Z
          \/ (route_score other = route_score route /\ i <= j)).
Proof.
  intros Hstrip. unfold matchRoutes. fold (location_pathname locationArg).
  rewrite Hstrip. unfold flattenRoutes. rewrite flatten_from_closed, first_route_top.
  cbn [mbind outcome_bind app].
  set (bs := branches_from [] [] 0 routes).
  assert (forall b, b ∈ bs -> exists i route, routes !! i = Some route
                                 /\ matchable route = true
                                 /\ b = branch_of [] [] i route) as Hbs.
  { intros b Hb. apply branches_from_elem in Hb as (i & route & Hi & Hm & ->). eauto. }
  pose proof (Array_sort_perm compareBranches bs) as Hperm.
  assert (StronglySorted (fun a b => (compareBranches a b <= 0)%Z)
            (rankRouteBranches bs)) as Hsorted.
  { apply (Array_sort_sorted compareBranches compareBranches_anti).
    apply single_chains_consistent. intros b Hb.
    destruct (Hbs b Hb) as (i & route & _ & _ & ->). reflexivity. }
  fold (rankRouteBranches bs) in Hperm.
  intros Hfirst. apply first_match_first in Hfirst
    as (front & i & route & pm & back & Hrank & Hi & Hpm & -> & Hfront).
  2:{ apply Forall_forall. intros b Hb. rewrite Hperm in Hb.
      destruct (Hbs b Hb) as (i & route & Hi & _ & ->). eauto. }
  exists i, route, pm. split; [exact Hi|]. split; [exact Hpm|]. split; [reflexivity|].
  intros j other pm' Hj Hmat Hother.
  assert (branch_of [] [] j other ∈ rankRouteBranches bs) as Hin.
  { rewrite Hperm. apply branches_from_elem. exists j, other. auto. }
  rewrite Hrank in Hin, Hsorted.
  apply elem_of_app in Hin as [Hin|Hin].
  - rewrite Forall_forall in Hfront.
    rewrite (Hfront _ Hin j other eq_refl Hj) in Hother. discriminate.
  - apply StronglySorted_app_1_r, StronglySorted_cons in Hsorted as [Hall _].
    apply elem_of_cons in Hin as [Heq|Hin].
    + assert (j = i) as -> by (apply (f_equal routesMeta) in Heq; cbn in Heq; congruence).
      rewrite Hi in Hj. injection Hj as <-. right. split; [reflexivity | lia].
    + rewrite Forall_forall in Hall. apply compareBranches_top, Hall, Hin.
Qed.

Lemma matchRoutes_best_witness :
  exists i route pm,
    [MkRoute (Some s!"/users/:id") false false [];
     MkRoute (Some s!"/users/new") false false []] !! i = Some route
    /\ matchPath (route_pattern route) s!"/users/new" = Return (Some pm)
    /\ [route_match (MkRoute (Some s!"/users/new") false false [])
          (MkPathMatch ∅ s!"/users/new" s!"/users/new"
             (MkPathPattern s!"/users/new" (Some false) (Some true)))]
       = [route_match route pm]
    /\ (forall j other pm',
          [MkRoute (Some s!"/users/:id") false false [];
           MkRoute (Some s!"/users/new") false false []] !! j = Some other ->
          matchable other = true ->
          matchPath (route_pattern other) s!"/users/new" = Return (Some pm') ->
          (route_score other < route_score route)%Z
          \/ (route_score other = route_score route /\ i <= j)).
Proof.
  apply (matchRoutes_best _ (ToString s!"/app/users/new") s!"/app").
  - reflexivity.
  - vm_compute. reflexivity.
Defined.

(** ** The values [matchPath] decodes *)

Lemma param_fold_decoded (values : Params) (matched : str)
    (groups : list (option str)) (names : list str) :
  forall i0 memo base,
  (forall j name, names !! j = Some name ->
     groups !! (i0 + j)%nat = Some (Some (param_value values name))) ->
  fst (fold_left (param_step matched groups) (zip (seq i0 (length names)) names)
         (memo, base))
  = fold_left (fun m name =>
                 set_param m name (safelyDecodeURIComponent (param_value values name) name))
      names memo.
Proof.
  induction names as [|name names IH]; intros i0 memo base H; [reflexivity|].
  change (zip (seq i0 (length (name :: names))) (name :: names))
    with ((i0, name) :: zip (seq (S i0) (length names)) names).
  cbn [fold_left].
  pose proof (H 0%nat name eq_refl) as Hg. rewrite Nat.add_0_r in Hg.
  assert (fst (param_step matched groups (memo, base) (i0, name))
          = set_param memo name (safelyDecodeURIComponent (param_value values name) name))
    as Hs.
  { unfold param_step. cbv beta iota zeta. rewrite Hg. reflexivity. }
  destruct (param_step matched groups (memo, base) (i0, name)) as [memo' base'].
  cbn [fst] in Hs. subst memo'.
  apply IH. intros j nm Hj. replace (S i0 + j)%nat with (i0 + S j)%nat by lia.
  apply (H (S j)). exact Hj.
Qed.

Lemma fold_set_named (f : str -> str -> str) (names : list str) :
  forall (memo : Params) k,
  memo !! s!"__proto__" = None ->
  fold_left (fun m name => set_param m name (f name name)) names memo !! k
  = if decide (k ∈ names /\ k <> s!"__proto__") then Some (f k k) else memo !! k.
Proof.
  induction names as [|name names IH]; intros memo k Hmemo; cbn [fold_left].
  - rewrite decide_False; [reflexivity|]. intros [H _]. inversion H.
  - destruct (decide (name = s!"__proto__")) as [->|Hname].
    + rewrite set_param_proto by exact Hmemo. rewrite IH by exact Hmemo.
      destruct (decide (k ∈ names /\ k <> s!"__proto__")) as [[Hin Hk]|Hn].
      * rewrite decide_True; [reflexivity|]. split; [apply elem_of_cons; auto | exact Hk].
      * rewrite decide_False; [reflexivity|]. intros [Hin Hk]. apply Hn.
        apply elem_of_cons in Hin as [->|Hin]; [congruence | auto].
    + rewrite set_param_other by exact Hname.
      rewrite IH by (rewrite lookup_insert_ne by exact Hname; exact Hmemo).
      destruct (decide (k ∈ names /\ k <> s!"__proto__")) as [[Hin Hk]|Hn].
      * rewrite decide_True; [reflexivity|]. split; [apply elem_of_cons; auto | exact Hk].
      * destruct (decide (k = name)) as [->|Hne].
        -- rewrite decide_True by (split; [apply list_elem_of_here | exact Hname]).
           apply lookup_insert_eq.
        -- rewrite decide_False.
           ++ apply lookup_insert_ne. congruence.
           ++ intros [Hin Hk]. apply Hn.
              apply elem_of_cons in Hin as [->|Hin]; [congruence | auto].
Qed.

(** X30: a pattern that begins with one slash and is made of literal
    and [:name] segments matches the pathname obtained by writing, for
    each [:name], a value that is not empty and has no slash.  The own
    parameters of the match are the names of the pattern other than
    [__proto__] (which an assignment on a plain object does not write),
    each with its value decoded by [safelyDecodeURIComponent] (left as
    it is when it cannot be decoded). *)
Theorem matchPath_decodes (pattern : str) (values : Params) :
  one_leading_slash pattern = true ->
  forallb simple_segment (split "/" pattern) = true ->
  (forall name, name ∈ pattern_names pattern ->
     exists v, values !! name = Some v /\ v <> [] /\ ("/" ∉ v)) ->
  exists pm,
    matchPath (PatString pattern) (filled pattern values) = Return (Some pm)
    /\ pm_pathname pm = filled pattern values
    /\ (forall name,
          pm_params pm !! name
          = if decide (name ∈ pattern_names pattern /\ name <> s!"__proto__")
            then Some (safelyDecodeURIComponent (param_value values name) name)
            else None).
Proof.
  intros Hone Hsimple Hvals. unfold filled.
  assert ("*" ∉ pattern) as Hstar.
  { rewrite <- (join_split "/" pattern). apply (join_no_star _ Hsimple). }
  pose proof (no_star_endsWith pattern Hstar) as Hends.
  pose proof (tokens_simple pattern Hsimple) as Htoks.
  assert (token_names (tokens pattern) = pattern_names pattern) as Hnames.
  { rewrite Htoks. apply join_tokens_names. }
  destruct (pattern_body_simple pattern Hone Hstar) as (ts & Hpat & Hts).
  set (body := pattern_body pattern) in *.
  assert (tokens pattern = tokens body ++ map TLit ts) as Hsplit.
  { unfold tokens. rewrite Hpat at 1. apply tokens_app_slashes; [exact Hts | lia]. }
  assert (token_names (tokens body) = pattern_names pattern) as Hbody.
  { rewrite <- Hnames, Hsplit, token_names_app, token_names_literals, app_nil_r.
    reflexivity. }
  assert (delimited (tokens body) = true) as Hdel.
  { apply (delimited_app_l _ (map TLit ts)). rewrite <- Hsplit, Htoks.
    apply join_tokens_delimited. }
  assert (param_values_ok values (tokens body)) as Hok.
  { intros name Hin. rewrite Hbody in Hin. exact (Hvals name Hin). }
  pose proof (matchPath_unfold (PatString pattern)
                (flat_map (token_value values) (tokens pattern))) as Hm.
  change (matcher_of (PatString pattern)) with (pattern_RegExp pattern false true) in Hm.
  change (pat_path (pattern_of (PatString pattern))) with pattern in Hm.
  rewrite Hsplit in Hm at 2. rewrite flat_map_app, flat_map_literals in Hm.
  pose proof (match_here_generated pattern values ts Hends Hts Hdel Hok) as Hhere.
  pose proof (paramNames_of_simple pattern Hends) as Hpn.
  fold body in Hhere, Hpn. rewrite Hhere, Hpn in Hm. cbn [mr_text mr_groups] in Hm.
  destruct (fold_left _ _ _) as [memo base] eqn:Efold in Hm.
  eexists. split; [exact Hm|]. cbn [pm_pathname pm_params]. split.
  - rewrite Hsplit, flat_map_app, flat_map_literals. reflexivity.
  - intros name. apply (f_equal fst) in Efold. cbn [fst] in Efold. rewrite <- Efold.
    rewrite (param_fold_decoded values).
    2:{ intros j nm Hj. cbn [Nat.add]. rewrite !list_lookup_fmap, Hj. reflexivity. }
    rewrite (fold_set_named
               (fun n _ => safelyDecodeURIComponent (param_value values n) n))
      by apply lookup_empty.
    rewrite Hbody, lookup_empty. reflexivity.
Qed.

Lemma matchPath_decodes_witness :
  exists pm,
    matchPath (PatString s!"/users/:id")
      (filled s!"/users/:id" {[ s!"id" := s!"a%20b" ]}) = Return (Some pm)
    /\ pm_pathname pm = filled s!"/users/:id" {[ s!"id" := s!"a%20b" ]}
    /\ (forall name,
          pm_params pm !! name
          = if decide (name ∈ pattern_names s!"/users/:id" /\ name <> s!"__proto__")
            then Some (safelyDecodeURIComponent
                         (param_value {[ s!"id" := s!"a%20b" ]} name) name)
            else None).
Proof.
  apply (matchPath_decodes s!"/users/:id" {[ s!"id" := s!"a%20b" ]}).
  - reflexivity.
  - reflexivity.
  - intros name Hin. vm_compute in Hin. apply list_elem_of_singleton in Hin as ->.
    exists s!"a%20b". split; [apply lookup_singleton_eq|]. split; [discriminate|].
    intros H. apply list_elem_of_In in H. cbn in H.
    repeat (destruct H as [H|H]; [discriminate H|]). exact H.
Defined.
